(** * MatrixMonitor: the timer-driven "digital rain" engine

    A shallow embedding of the scheduling core of [MatrixMonitor]
    (src/unnamed/part_000, the full implementation with glitch support, and
    src/src/matrix-monitor.js, the simpler one).  The embedding follows the
    full implementation; the few places where the simpler file differs are
    selected by [Options.variant].

    Modelling decisions.
    - JavaScript values that the engine moves around (glyphs, table entries)
      are [jsval]: [undefined], [null] or a string.
    - Numbers that hold milliseconds, counts and indices are [Z]; the two
      places that compute with fractions ([Math.random] and the
      [alphabet.length - 0.000001] bound) use [Q].
    - The host (browser) is part of the state: a clock, the table of
      pending timers keyed by timer id, the next timer id, and the stream of
      [Math.random] results that are still to come.
    - Callbacks handed to [setTimeout]/[setInterval] are closures; they are
      defunctionalised into [Action], one constructor per closure of the
      source, carrying exactly the variables that closure captures.
    - Code runs in a state-and-exception monad [M]; [Throw] is a JavaScript
      exception.
    - The engine is modelled after [_initialize] has run: the public methods
      ([start], [pause], ...) then forward to [_start], [_pause], ...
      These take the properties of the [options] object as a record; an
      [options] argument that is absent, [null] or a primitive value is a
      [js_arg], handled by the public methods.
    - Arithmetic is exact, where the source computes in doubles.
    - Initialisation itself and the queue of calls made before it are
      modelled on top of the engine, by [Instance]: [_initialize] builds the
      grid from the answers of the page ([Dom]) and replays the queue that
      [_defer] has filled.  The two grid loops take fuel, so that a loop that
      never ends is a run that no fuel completes. *)

From Stdlib Require Import ZArith QArith Qround String Ascii Lia Lqa.
From stdpp Require Import gmap list.

Local Open Scope Z_scope.
Set Warnings "-clear-no-such-hyp".

(** ** JavaScript values *)

Inductive jsval : Type :=
| JUndefined
| JNull
| JStr (s : string).

#[global] Instance jsval_eq_dec : EqDecision jsval.
Proof. solve_decision. Defined.

(** [!!v]: of the values modelled only a non-empty string is truthy. *)
Definition truthy (v : jsval) : bool :=
  match v with
  | JStr s => negb (String.eqb s "")
  | _ => false
  end.

(** [a === b] *)
Definition strict_eq (a b : jsval) : bool := bool_decide (a = b).

(** [a || b] *)
Definition js_or (a b : jsval) : jsval := if truthy a then a else b.

(** [s[i]] on a string: the one-unit string at [i], or [undefined]. *)
Definition js_charAt (s : string) (i : Z) : jsval :=
  if i <? 0 then JUndefined
  else match String.get (Z.to_nat i) s with
       | Some a => JStr (String a EmptyString)
       | None => JUndefined
       end.

(** [a[i]] on an array of values: the element, or [undefined] past the end. *)
Definition js_index (a : list jsval) (i : nat) : jsval :=
  default JUndefined (a !! i).

(** [a[i] = x] on an array: JavaScript extends the array, leaving holes
    (read back as [hole]) when [i] is past the end. *)
Definition js_set {A} (hole : A) (a : list A) (i : nat) (x : A) : list A :=
  if decide (i < length a)%nat then <[i := x]> a
  else a ++ replicate (i - length a) hole ++ [x].

(** ** Grid, timers and options *)

(** A cell is named by [(columnIndex, rowIndex)]. *)
Abbreviation cellref := (nat * nat)%type.

Record DropletOptions := {
  d_clearScreen : bool;
  d_charList : list jsval
}.

(** [charTable] rows: [Some row] is an array, [None] anything that fails
    [Array.isArray]. *)
Record MainLoopOptions := {
  m_clearScreen : bool;
  m_charTable : list (option (list jsval));
  m_ignoreColumns : list Z
}.

Definition mainLoop_defaults : MainLoopOptions :=
  {| m_clearScreen := false; m_charTable := []; m_ignoreColumns := [] |}.

(** The closures that the source hands to [setTimeout] and [setInterval]. *)
Inductive Action : Type :=
| UpdateCell (cell : cellref) (char : jsval)
    (* monitor.updateCell(cell, char) / the updateFunction closure *)
| FadeCell (cell : cellref) (char : jsval)
    (* the 200ms closure inside updateCell: style changes only *)
| CreateDroplet (topCell : cellref) (opts : DropletOptions)
| MainLoop (opts : MainLoopOptions)
| StartFunction (mainLoopInterval : Z)
| PauseFunction (onlyTopCells allAtOnce : bool) (minPauseDelay maxPauseDelay : Z)
| ClearTimer (h : option nat)
    (* setTimeout(clearTimeout, d, h) and setTimeout(clearInterval, d, h) *)
| PauseAtOnce (onlyTopCells : bool)
| ResumeFunction (onlyTopCells : bool)
| StopFunction (clearScreen : bool)
| DrawFunction (delay duration : Z) (imageData : list (list jsval))
    (keepOnNotAffectedColumns : bool) (marginLeft width : Z)
| DrawRefresh (duration marginLeft width : Z).

Module Update.
(** [cell.update] *)
Record t := mk {
  timer : option nat;
  function : option Action;
  delay : option Z;
  progression : option Z;
  nextChar : jsval;
  isUpdated : bool
}.

(** The value [addCell] gives a new cell. *)
Definition initial : t :=
  {| timer := None; function := None; delay := None; progression := None;
     nextChar := JNull; isUpdated := false |}.
End Update.

Record Cell := {
  update : Update.t;
  innerText : jsval      (* cell.htmlElement.innerText *)
}.

Definition new_cell : Cell := {| update := Update.initial; innerText := JStr "" |}.

Module Timers.
(** [monitor.timers] *)
Record t := mk {
  mainLoopInterval : option nat;
  mainLoopDuration : option nat;
  start : option nat;
  pause : option nat;
  resume : option nat;
  stop : option nat
}.

Definition initial : t := mk None None None None None None.
End Timers.

Inductive Variant := Full | Simple.

Module Options.
(** [this[_options]], the part the engine reads. *)
Record t := mk {
  variant : Variant;
  alphabet : string;
  initialDelay : Z;
  mainLoopInterval : Z;
  mainLoopDuration : option Z;       (* null, or a number *)
  minCharStartDelay : Z;
  maxCharStartDelay : Z;
  minCharProgression : Z;
  maxCharProgression : Z
}.
End Options.

(** ** The host: clock, pending timers, random numbers *)

Record Task := {
  t_due : Z;                (* clock value at which it fires *)
  t_delay : Z;              (* the delay that was asked for *)
  t_period : option Z;      (* [Some p] for setInterval *)
  t_action : Action
}.

Record World := {
  now : Z;
  nextHandle : nat;
  pending : gmap nat Task;
  entropy : list Q;                     (* results of Math.random still to come *)
  columns : list (list Cell);           (* monitor.columns[c].cells[r] *)
  timers : Timers.t;
  options : Options.t
}.

Inductive js_error := ImageError | RangeError | TypeError.

Inductive Res (A : Type) : Type :=
| Ok (a : A) (w : World)
| Throw (e : js_error).
Arguments Ok {A} a w.
Arguments Throw {A} e.

Definition M (A : Type) : Type := World -> Res A.

Definition ret {A} (a : A) : M A := fun w => Ok a w.

Definition bind {A B} (m : M A) (k : A -> M B) : M B :=
  fun w => match m w with
           | Ok a w' => k a w'
           | Throw e => Throw e
           end.

Definition throw {A} (e : js_error) : M A := fun _ => Throw e.

Declare Scope js_scope.
Delimit Scope js_scope with js.
Notation "x <- m ;; k" := (bind m (fun x => k))
  (at level 100, m at next level, right associativity) : js_scope.
Notation "m ;; k" := (bind m (fun _ => k))
  (at level 100, right associativity) : js_scope.
Local Open Scope js_scope.

Definition gets {A} (f : World -> A) : M A := fun w => Ok (f w) w.
Definition modify (f : World -> World) : M unit := fun w => Ok tt (f w).

(** [for (const x of xs) body(x)] *)
Fixpoint for_each {A} (xs : list A) (body : A -> M unit) : M unit :=
  match xs with
  | [] => ret tt
  | x :: rest => body x ;; for_each rest body
  end.

Definition set_entropy (e : list Q) (w : World) : World :=
  {| now := now w; nextHandle := nextHandle w; pending := pending w;
     entropy := e; columns := columns w; timers := timers w;
     options := options w |}.

(** [Math.random()]: the next number of the stream ([0] once it is used up). *)
Definition Math_random : M Q :=
  fun w => Ok (hd 0%Q (entropy w)) (set_entropy (tl (entropy w)) w).

(** [Math.floor((u * (to - from)) + from)], in exact arithmetic.  The source
    computes in doubles, where a sum that lies just below an integer can be
    rounded up to it: for [from <= to] the code's result lies in
    [[from, to]], and for bounds that are far enough apart it can be [to]. *)
Definition random_of (from to u : Q) : Z := Qfloor (u * (to - from) + from)%Q.

(** [const random = (from, to) => Math.floor((Math.random() * (to - from)) + from)] *)
Definition random (from to : Q) : M Z :=
  u <- Math_random ;; ret (random_of from to u).

Definition set_pending (p : gmap nat Task) (h : nat) (w : World) : World :=
  {| now := now w; nextHandle := h; pending := p; entropy := entropy w;
     columns := columns w; timers := timers w; options := options w |}.

(** The entry [setTimeout(action, delay)] makes at clock value [clock]: a
    negative delay counts as 0. *)
Definition timeout_task (clock : Z) (delay : Z) (a : Action) : Task :=
  {| t_due := clock + Z.max 0 delay; t_delay := delay;
     t_period := None; t_action := a |}.

(** [setTimeout(action, delay)] *)
Definition setTimeout (a : Action) (delay : Z) : M nat :=
  fun w =>
    let h := nextHandle w in
    Ok h (set_pending (<[h := timeout_task (now w) delay a]> (pending w)) (S h) w).

(** The entry [setInterval(action, period)] makes. *)
Definition interval_task (clock : Z) (period : Z) (a : Action) : Task :=
  {| t_due := clock + Z.max 0 period; t_delay := period;
     t_period := Some period; t_action := a |}.

(** [setInterval(action, period)] *)
Definition setInterval (a : Action) (period : Z) : M nat :=
  fun w =>
    let h := nextHandle w in
    Ok h (set_pending (<[h := interval_task (now w) period a]> (pending w)) (S h) w).

(** Removing timer [h] from the table; [null] names no timer. *)
Definition cancel (h : option nat) (p : gmap nat Task) : gmap nat Task :=
  match h with
  | Some i => delete i p
  | None => p
  end.

(** [clearTimeout(h)] and [clearInterval(h)] (the host keeps one table for
    both). *)
Definition clearTimeout (h : option nat) : M unit :=
  fun w => Ok tt (set_pending (cancel h (pending w)) (nextHandle w) w).

Definition clearInterval := clearTimeout.

(** ** Character Source *)

(** [const lastIndexOnRandom = alphabetLenght - 0.000001] *)
Definition lastIndexOnRandom (alphabet : string) : Q :=
  (inject_Z (Z.of_nat (String.length alphabet)) - (1 # 1000000))%Q.

(** The body of [getRandomChar] once [index] is drawn. *)
Definition getRandomChar_at (alphabet : string) (except : jsval) (index : Z) : jsval :=
  let char := js_charAt alphabet index in
  if truthy except && strict_eq except char
  then (if negb (index =? 0) then js_charAt alphabet 0 else js_charAt alphabet 1)
  else char.

(** [monitor.getRandomChar = (except = null) => ...] *)
Definition getRandomChar (except : jsval) : M jsval :=
  alphabet <- gets (fun w => Options.alphabet (options w)) ;;
  index <- random 0 (lastIndexOnRandom alphabet) ;;
  ret (getRandomChar_at alphabet except index).

(** ** Grid Model *)

Definition set_columns (cols : list (list Cell)) (w : World) : World :=
  {| now := now w; nextHandle := nextHandle w; pending := pending w;
     entropy := entropy w; columns := cols; timers := timers w;
     options := options w |}.

Definition set_timers (t : Timers.t) (w : World) : World :=
  {| now := now w; nextHandle := nextHandle w; pending := pending w;
     entropy := entropy w; columns := columns w; timers := t;
     options := options w |}.

(** [monitor.columns[c].cells[r]] *)
Definition lookup_cell (cols : list (list Cell)) (c : cellref) : option Cell :=
  match cols !! c.1 with
  | Some col => col !! c.2
  | None => None
  end.

(** [get nextCell() { return col.cells[rowIndex + 1] }] *)
Definition nextCell (cols : list (list Cell)) (c : cellref) : option cellref :=
  match lookup_cell cols (c.1, S c.2) with
  | Some _ => Some (c.1, S c.2)
  | None => None
  end.

(** The cells visited by [for (let cell = start; cell; cell = cell.nextCell)].
    The fuel bounds the walk; a column's length always suffices. *)
Fixpoint chain (cols : list (list Cell)) (fuel : nat) (cell : option cellref)
  : list cellref :=
  match fuel, cell with
  | S fuel', Some c => c :: chain cols fuel' (nextCell cols c)
  | _, _ => []
  end.

Definition walk (cols : list (list Cell)) (start : cellref) : list cellref :=
  chain cols (length (default [] (cols !! start.1)))
        (match lookup_cell cols start with Some _ => Some start | None => None end).

(** The cells of column [c], top to bottom, when it has [n] rows. *)
Definition column_cells (c n : nat) : list cellref := (fun r => (c, r)) <$> seq 0 n.

(** [monitor.cells]: every cell, in the order [addCell] pushed them, that is
    column after column, [c] being the index of the first column of [cols]. *)
Fixpoint cells_from (c : nat) (cols : list (list Cell)) : list cellref :=
  match cols with
  | [] => []
  | col :: rest => column_cells c (length col) ++ cells_from (S c) rest
  end.

Definition monitor_cells (cols : list (list Cell)) : list cellref := cells_from 0 cols.

(** [monitor.topCells]: the row-0 cell of every column that has one. *)
Fixpoint topCells_from (c : nat) (cols : list (list Cell)) : list cellref :=
  match cols with
  | [] => []
  | col :: rest =>
      match col with
      | [] => topCells_from (S c) rest
      | _ :: _ => (c, 0%nat) :: topCells_from (S c) rest
      end
  end.

Definition monitor_topCells (cols : list (list Cell)) : list cellref := topCells_from 0 cols.

(** The number of rows of column [c]. *)
Definition rows (cols : list (list Cell)) (c : nat) : nat :=
  length (default [] (cols !! c)).

Definition alter_cell (f : Cell -> Cell) (c : cellref) (cols : list (list Cell))
  : list (list Cell) :=
  alter (alter f c.2) c.1 cols.

(** [cell.update], read off the grid. *)
Definition cell_update (cols : list (list Cell)) (c : cellref) : Update.t :=
  update (default new_cell (lookup_cell cols c)).

Definition get_update (c : cellref) : M Update.t :=
  gets (fun w => cell_update (columns w) c).

Definition set_update (c : cellref) (f : Update.t -> Update.t) : M unit :=
  modify (fun w =>
            set_columns (alter_cell (fun cl => {| update := f (update cl);
                                                  innerText := innerText cl |})
                                    c (columns w)) w).

Definition set_innerText (c : cellref) (v : jsval) : M unit :=
  modify (fun w =>
            set_columns (alter_cell (fun cl => {| update := update cl;
                                                  innerText := v |})
                                    c (columns w)) w).

(** [update.timer = h] *)
Definition with_timer (h : option nat) (u : Update.t) : Update.t :=
  {| Update.timer := h; Update.function := Update.function u;
     Update.delay := Update.delay u; Update.progression := Update.progression u;
     Update.nextChar := Update.nextChar u; Update.isUpdated := Update.isUpdated u |}.

(** [update.isUpdated = true] *)
Definition mark_updated (u : Update.t) : Update.t :=
  {| Update.timer := Update.timer u; Update.function := Update.function u;
     Update.delay := Update.delay u; Update.progression := Update.progression u;
     Update.nextChar := Update.nextChar u; Update.isUpdated := true |}.

(** ** Droplet Cascade Generator *)

(** [monitor.updateCell = (cell, char) => ...] (in the simpler file, the
    [updateFunction] closure): shows the glyph, marks the cell as updated and
    queues the fade, which only touches the style. *)
Definition updateCell (cell : cellref) (char : jsval) : M unit :=
  set_innerText cell char ;;
  set_update cell mark_updated ;;
  setTimeout (FadeCell cell char) 200 ;;
  ret tt.

(** [Object.assign(cell.update, {timer, delay, progression, nextChar: char,
    isUpdated: false})]; the simpler file also assigns [function]. *)
Definition droplet_assign (v : Variant) (cell : cellref) (timer : nat) (delay progression : Z)
    (char : jsval) (u : Update.t) : Update.t :=
  {| Update.timer := Some timer;
     Update.function := match v with
                        | Full => Update.function u
                        | Simple => Some (UpdateCell cell char)
                        end;
     Update.delay := Some delay;
     Update.progression := Some progression;
     Update.nextChar := char;
     Update.isUpdated := false |}.

(** The glyph chosen for the cell at row position [i]. *)
Definition droplet_char (clearScreen : bool) (charList : list jsval) (i : nat)
    (previousChar : jsval) : M jsval :=
  if clearScreen then ret (JStr "")
  else
    let char := js_index charList i in
    if negb (truthy char) && negb (strict_eq char (JStr ""))
    then getRandomChar previousChar
    else ret char.

(** The [for (let cell = topCell, i = 0; cell; cell = cell.nextCell, i++)]
    loop of [createDroplet], over the cells the walk visits. *)
Fixpoint droplet_loop (clearScreen : bool) (charList : list jsval) (progression : Z)
    (cells : list cellref) (i : nat) (delay : Z) (previousChar : jsval) : M unit :=
  match cells with
  | [] => ret tt
  | cell :: rest =>
      char <- droplet_char clearScreen charList i previousChar ;;
      old <- get_update cell ;;
      clearTimeout (Update.timer old) ;;
      timer <- setTimeout (UpdateCell cell char) delay ;;
      v <- gets (fun w => Options.variant (options w)) ;;
      set_update cell (droplet_assign v cell timer delay progression char) ;;
      droplet_loop clearScreen charList progression rest (S i) (delay + progression) char
  end.

(** [monitor.createDroplet = (topCell, dropletOptions = {}) => ...] *)
Definition createDroplet (topCell : cellref) (o : DropletOptions) : M unit :=
  cfg <- gets options ;;
  progression <- random (inject_Z (Options.minCharProgression cfg))
                        (inject_Z (Options.maxCharProgression cfg)) ;;
  cols <- gets columns ;;
  droplet_loop (d_clearScreen o) (d_charList o) progression (walk cols topCell)
               0%nat 0 JNull.

(** ** Main-Loop Scheduler *)

(** One row of the transposition: [column[i] = row[j]] for every [j]. *)
Definition transpose_row (i : nat) (row : list jsval) (tbl : list (list jsval))
  : list (list jsval) :=
  foldl (fun tbl j =>
           let column := default [] (tbl !! j) in
           js_set [] tbl j (js_set JUndefined column i (js_index row j)))
        tbl (seq 0 (length row)).

(** [charTableByColumn] *)
Definition transpose (charTable : list (option (list jsval))) : list (list jsval) :=
  foldl (fun tbl ir => match ir.2 with
                       | Some row => transpose_row ir.1 row tbl
                       | None => tbl
                       end)
        [] (imap (fun i row => (i, row)) charTable).

(** [monitor.mainLoop = (mainLoopOptions = {}) => ...] *)
Definition mainLoop (o : MainLoopOptions) : M unit :=
  cfg <- gets options ;;
  let charTableByColumn :=
    if negb (m_clearScreen o) && (0 <? Z.of_nat (length (m_charTable o)))
    then transpose (m_charTable o) else [] in
  topCells <- gets (fun w => monitor_topCells (columns w)) ;;
  for_each (imap (fun i c => (i, c)) topCells)
    (fun ic =>
       if bool_decide (Z.of_nat ic.1 ∈ m_ignoreColumns o) then ret tt
       else
         delay <- random (inject_Z (Options.minCharStartDelay cfg))
                         (inject_Z (Options.maxCharStartDelay cfg)) ;;
         h <- setTimeout (CreateDroplet ic.2
                            {| d_clearScreen := m_clearScreen o;
                               d_charList := default [] (charTableByColumn !! ic.1) |})
                         delay ;;
         set_update ic.2 (with_timer (Some h))).

(** ** Lifecycle Controller *)

(** Option records: the properties of an [options] object, as the methods
    read them by destructuring; [None] is a property that is absent
    ([undefined]).  What the methods do when [options] is no object is in
    [destructure] and the public methods, below. *)
Record StartOptions := { so_delay : option Z; so_duration : option Z }.
Record StopOptions := { st_delay : option Z; st_clearScreen : option bool }.
Record PauseOptions := {
  po_delay : option Z;
  po_onlyTopCells : option bool;
  po_allAtOnce : option bool;
  po_minPauseDelay : option Z;
  po_maxPauseDelay : option Z
}.
Record ResumeOptions := { ro_delay : option Z; ro_onlyTopCells : option bool }.

Definition no_start_options : StartOptions := {| so_delay := None; so_duration := None |}.
Definition no_stop_options : StopOptions := {| st_delay := None; st_clearScreen := None |}.
Definition no_pause_options : PauseOptions :=
  {| po_delay := None; po_onlyTopCells := None; po_allAtOnce := None;
     po_minPauseDelay := None; po_maxPauseDelay := None |}.
Definition no_resume_options : ResumeOptions := {| ro_delay := None; ro_onlyTopCells := None |}.

(** [if (options.delay)]: a number is truthy unless it is 0. *)
Definition truthy_num (n : option Z) : bool :=
  match n with
  | Some d => negb (d =? 0)
  | None => false
  end.

Definition set_mainLoopInterval (h : option nat) (t : Timers.t) : Timers.t :=
  Timers.mk h (Timers.mainLoopDuration t) (Timers.start t) (Timers.pause t)
            (Timers.resume t) (Timers.stop t).
Definition set_start (h : option nat) (t : Timers.t) : Timers.t :=
  Timers.mk (Timers.mainLoopInterval t) (Timers.mainLoopDuration t) h (Timers.pause t)
            (Timers.resume t) (Timers.stop t).
Definition set_pause (h : option nat) (t : Timers.t) : Timers.t :=
  Timers.mk (Timers.mainLoopInterval t) (Timers.mainLoopDuration t) (Timers.start t) h
            (Timers.resume t) (Timers.stop t).
Definition set_resume (h : option nat) (t : Timers.t) : Timers.t :=
  Timers.mk (Timers.mainLoopInterval t) (Timers.mainLoopDuration t) (Timers.start t)
            (Timers.pause t) h (Timers.stop t).
Definition set_stop (h : option nat) (t : Timers.t) : Timers.t :=
  Timers.mk (Timers.mainLoopInterval t) (Timers.mainLoopDuration t) (Timers.start t)
            (Timers.pause t) (Timers.resume t) h.

Definition modify_timers (f : Timers.t -> Timers.t) : M unit :=
  modify (fun w => set_timers (f (timers w)) w).

(** The [stopFunction] closure of [_stop]. *)
Definition stopFunction (clearScreen : bool) : M unit :=
  iv <- gets (fun w => Timers.mainLoopInterval (timers w)) ;;
  clearInterval iv ;;
  cells <- gets (fun w => monitor_cells (columns w)) ;;
  for_each cells (fun cell => u <- get_update cell ;; clearTimeout (Update.timer u)) ;;
  if clearScreen then
    topCells <- gets (fun w => monitor_topCells (columns w)) ;;
    for_each topCells
      (fun topCell =>
         dropletDelay <- random 200 2000 ;;
         setTimeout (CreateDroplet topCell {| d_clearScreen := true; d_charList := [] |})
                    dropletDelay ;;
         ret tt)
  else ret tt.

(** [[_stop](options = {})] *)
Definition _stop (o : StopOptions) : M unit :=
  let delay := default 0 (st_delay o) in
  let clearScreen := default false (st_clearScreen o) in
  h <- gets (fun w => Timers.stop (timers w)) ;;
  clearTimeout h ;;
  if 0 <? delay then
    h <- setTimeout (StopFunction clearScreen) delay ;;
    modify_timers (set_stop (Some h))
  else stopFunction clearScreen.

(** The [startFunction] closure of [_start]; it captures [mainLoopInterval]. *)
Definition startFunction (mainLoopInterval : Z) : M unit :=
  iv <- gets (fun w => Timers.mainLoopInterval (timers w)) ;;
  clearInterval iv ;;
  mainLoop mainLoop_defaults ;;
  h <- setInterval (MainLoop mainLoop_defaults) mainLoopInterval ;;
  modify_timers (set_mainLoopInterval (Some h)).

(** The delay [_start] ends up using. *)
Definition start_initialDelay (cfg : Options.t) (o : StartOptions) : Z :=
  if truthy_num (so_delay o) then default 0 (so_delay o) else Options.initialDelay cfg.

(** The duration [_start] ends up using. *)
Definition start_mainLoopDuration (cfg : Options.t) (o : StartOptions) : option Z :=
  if truthy_num (so_duration o) then so_duration o else Options.mainLoopDuration cfg.

(** [[_start](options = {})] *)
Definition _start (o : StartOptions) : M unit :=
  cfg <- gets options ;;
  let initialDelay := start_initialDelay cfg o in
  let mainLoopDuration := start_mainLoopDuration cfg o in
  h <- gets (fun w => Timers.start (timers w)) ;;
  clearTimeout h ;;
  (if 0 <? initialDelay then
     h <- setTimeout (StartFunction (Options.mainLoopInterval cfg)) initialDelay ;;
     modify_timers (set_start (Some h))
   else startFunction (Options.mainLoopInterval cfg)) ;;
  match mainLoopDuration with
  | Some d => _stop {| st_delay := Some (d + initialDelay); st_clearScreen := None |}
  | None => ret tt
  end.

(** [cellsToPause = onlyTopCells ? monitor.topCells : monitor.cells] *)
Definition cellsToPause (onlyTopCells : bool) (cols : list (list Cell)) : list cellref :=
  if onlyTopCells then monitor_topCells cols else monitor_cells cols.

(** The [pauseAtOnce] closure of [_pause]. *)
Definition pauseAtOnce (onlyTopCells : bool) : M unit :=
  cells <- gets (fun w => cellsToPause onlyTopCells (columns w)) ;;
  for_each cells (fun cell => u <- get_update cell ;; clearTimeout (Update.timer u)).

(** The closure [_pause] hands to [setTimeout]. *)
Definition pauseFunction (onlyTopCells allAtOnce : bool) (minPauseDelay maxPauseDelay : Z)
  : M unit :=
  iv <- gets (fun w => Timers.mainLoopInterval (timers w)) ;;
  clearInterval iv ;;
  if allAtOnce then pauseAtOnce onlyTopCells
  else
    cells <- gets (fun w => cellsToPause onlyTopCells (columns w)) ;;
    for_each cells
      (fun cell =>
         cellDelay <- random (inject_Z minPauseDelay) (inject_Z maxPauseDelay) ;;
         u <- get_update cell ;;
         setTimeout (ClearTimer (Update.timer u)) cellDelay ;;
         ret tt) ;;
    setTimeout (PauseAtOnce onlyTopCells) maxPauseDelay ;;
    ret tt.

(** [[_pause](options = {})] *)
Definition _pause (o : PauseOptions) : M unit :=
  let delay := default 0 (po_delay o) in
  let onlyTopCells := default false (po_onlyTopCells o) in
  let allAtOnce := default false (po_allAtOnce o) in
  let minPauseDelay := default 0 (po_minPauseDelay o) in
  let maxPauseDelay := default 1000 (po_maxPauseDelay o) in
  h <- gets (fun w => Timers.pause (timers w)) ;;
  clearTimeout h ;;
  h <- setTimeout (PauseFunction onlyTopCells allAtOnce minPauseDelay maxPauseDelay) delay ;;
  modify_timers (set_pause (Some h)).

(** [if (update.isUpdated) continue]; the simpler file reads
    [if (update.isUpdated || !update.function) continue]. *)
Definition resume_skips (v : Variant) (u : Update.t) : bool :=
  Update.isUpdated u ||
  match v with
  | Full => false
  | Simple => match Update.function u with Some _ => false | None => true end
  end.

(** What [resume] schedules for a cell: [monitor.updateCell] with the stored
    glyph, or in the simpler file the stored [update.function]. *)
Definition resume_action (v : Variant) (cell : cellref) (u : Update.t) : Action :=
  match v, Update.function u with
  | Simple, Some f => f
  | _, _ => UpdateCell cell (Update.nextChar u)
  end.

(** The inner [for (let cell = topCell; cell; cell = cell.nextCell)] loop of
    [resumeFunction]; [cellDelay += update.progression] adds 0 for [null]. *)
Fixpoint resume_loop (cells : list cellref) (cellDelay : Z) : M unit :=
  match cells with
  | [] => ret tt
  | cell :: rest =>
      u <- get_update cell ;;
      v <- gets (fun w => Options.variant (options w)) ;;
      if resume_skips v u then resume_loop rest cellDelay
      else
        h <- setTimeout (resume_action v cell u) cellDelay ;;
        set_update cell (with_timer (Some h)) ;;
        resume_loop rest (cellDelay + default 0 (Update.progression u))
  end.

(** The [for (const topCell of monitor.topCells)] loop of [resumeFunction]. *)
Definition resume_columns : M unit :=
  cols <- gets columns ;;
  for_each (monitor_topCells cols) (fun topCell => resume_loop (walk cols topCell) 0).

(** The [resumeFunction] closure of [_resume]. *)
Definition resumeFunction (onlyTopCells : bool) : M unit :=
  _start no_start_options ;;
  if negb onlyTopCells then resume_columns else ret tt.

(** [[_resume](options = {})] *)
Definition _resume (o : ResumeOptions) : M unit :=
  let delay := default 0 (ro_delay o) in
  let onlyTopCells := default false (ro_onlyTopCells o) in
  h <- gets (fun w => Timers.resume (timers w)) ;;
  clearTimeout h ;;
  if 0 <? delay then
    h <- setTimeout (ResumeFunction onlyTopCells) delay ;;
    modify_timers (set_resume (Some h))
  else resumeFunction onlyTopCells.

(** ** Image Compositor *)

(** An element of the array handed to [draw]: an array of glyphs, a string,
    or [null]/[undefined]. *)
Inductive js_elem : Type :=
| EArr (l : list jsval)
| EStr (s : string)
| ENull.

(** The [asciiImage] argument of [draw]: a string, an array, or any value
    that is neither. *)
Inductive js_image : Type :=
| ImgStr (s : string)
| ImgArr (rows : list js_elem)
| ImgOther.

Record DrawOptions := {
  dr_delay : option Z;
  dr_duration : option Z;
  dr_marginTop : option Z;
  dr_paddingTop : option Z;
  dr_marginBottom : option Z;
  dr_paddingBottom : option Z;
  dr_marginRight : option Z;
  dr_paddingRight : option Z;
  dr_marginLeft : option Z;
  dr_paddingLeft : option Z;
  dr_paddingChar : option jsval;
  dr_keepOnNotAffectedColumns : option bool
}.

Definition no_draw_options : DrawOptions :=
  {| dr_delay := None; dr_duration := None; dr_marginTop := None; dr_paddingTop := None;
     dr_marginBottom := None; dr_paddingBottom := None; dr_marginRight := None;
     dr_paddingRight := None; dr_marginLeft := None; dr_paddingLeft := None;
     dr_paddingChar := None; dr_keepOnNotAffectedColumns := None |}.

(** [s.split(/\n/g)], with [cur] the characters of the piece being read. *)
Fixpoint split_lines_from (cur : string) (s : string) : list string :=
  match s with
  | EmptyString => [cur]
  | String a rest =>
      if Ascii.eqb a "010"%char then cur :: split_lines_from EmptyString rest
      else split_lines_from (cur ++ String a EmptyString) rest
  end.

Definition split_lines (s : string) : list string := split_lines_from EmptyString s.

(** [row.split('')] *)
Fixpoint split_chars (s : string) : list jsval :=
  match s with
  | EmptyString => []
  | String a rest => JStr (String a EmptyString) :: split_chars rest
  end.

(** [row.length]; reading a property of [null] is a TypeError. *)
Definition elem_length (e : js_elem) : M Z :=
  match e with
  | EArr l => ret (Z.of_nat (length l))
  | EStr s => ret (Z.of_nat (String.length s))
  | ENull => throw TypeError
  end.

(** [asciiImage[i][j]] *)
Definition elem_index (e : js_elem) (j : nat) : M jsval :=
  match e with
  | EArr l => ret (js_index l j)
  | EStr s => ret (js_charAt s (Z.of_nat j))
  | ENull => throw TypeError
  end.

(** [xs.map(f)] for an [f] that may throw. *)
Fixpoint map_M {A B} (f : A -> M B) (xs : list A) : M (list B) :=
  match xs with
  | [] => ret []
  | x :: rest => y <- f x ;; ys <- map_M f rest ;; ret (y :: ys)
  end.

(** [Math.max(...ns)]; the shape test of [draw] excludes the empty list. *)
Definition Math_max (ns : list Z) : Z :=
  match ns with
  | [] => 0
  | n :: rest => foldl Z.max n rest
  end.

(** [new Array(n).fill(v)]: a length that is not an unsigned 32-bit integer
    is a RangeError. *)
Definition new_Array_fill (n : Z) (v : jsval) : M (list jsval) :=
  if (n <? 0) || (4294967295 <? n) then throw RangeError
  else ret (replicate (Z.to_nat n) v).

(** [for (let i = 0; i < n; i++) imageData.push(row())] *)
Fixpoint push_rows (n : nat) (row : M (list jsval)) : M (list (list jsval)) :=
  match n with
  | O => ret []
  | S n' => r <- row ;; rs <- push_rows n' row ;; ret (r :: rs)
  end.

(** The shape test at the head of [_draw]. *)
Definition image_rows (asciiImage : js_image) : M (list js_elem) :=
  match asciiImage with
  | ImgArr rows =>
      match rows with
      | EArr _ :: _ => ret rows
      | _ => throw ImageError
      end
  | ImgStr s => ret ((fun row => EArr (split_chars row)) <$> split_lines s)
  | ImgOther => throw ImageError
  end.

(** One of the padding rows above and below the image. *)
Definition padding_row (marginLeft paddingLeft imageWidth paddingRight marginRight : Z)
    (paddingChar : jsval) : M (list jsval) :=
  l <- new_Array_fill marginLeft JNull ;;
  m <- new_Array_fill (paddingLeft + imageWidth + paddingRight) paddingChar ;;
  r <- new_Array_fill marginRight JNull ;;
  ret (l ++ m ++ r).

(** One row of the image itself. *)
Definition image_row (marginLeft paddingLeft imageWidth paddingRight marginRight : Z)
    (paddingChar : jsval) (e : js_elem) : M (list jsval) :=
  l <- new_Array_fill marginLeft JNull ;;
  pl <- new_Array_fill paddingLeft paddingChar ;;
  glyphs <- map_M (fun j => char <- elem_index e j ;; ret (js_or char paddingChar))
                  (seq 0 (Z.to_nat imageWidth)) ;;
  pr <- new_Array_fill paddingRight paddingChar ;;
  r <- new_Array_fill marginRight JNull ;;
  ret ((l ++ pl) ++ glyphs ++ pr ++ r).

(** The construction of [imageData] in [_draw]. *)
Definition compose (rows : list js_elem)
    (marginTop paddingTop marginBottom paddingBottom
     marginRight paddingRight marginLeft paddingLeft : Z) (paddingChar : jsval)
  : M (Z * list (list jsval)) :=
  lengths <- map_M elem_length rows ;;
  let imageWidth := Math_max lengths in
  let totalWidth := marginLeft + paddingLeft + imageWidth + paddingRight + marginRight in
  top <- push_rows (Z.to_nat marginTop) (new_Array_fill totalWidth JNull) ;;
  ptop <- push_rows (Z.to_nat paddingTop)
            (padding_row marginLeft paddingLeft imageWidth paddingRight marginRight
               paddingChar) ;;
  body <- map_M (image_row marginLeft paddingLeft imageWidth paddingRight marginRight
                   paddingChar) rows ;;
  pbot <- push_rows (Z.to_nat paddingBottom)
            (padding_row marginLeft paddingLeft imageWidth paddingRight marginRight
               paddingChar) ;;
  bot <- push_rows (Z.to_nat marginBottom) (new_Array_fill totalWidth JNull) ;;
  ret (imageWidth, top ++ ptop ++ body ++ pbot ++ bot).

(** [imageData] for an image and the options of [draw], defaults applied. *)
Definition draw_imageData (asciiImage : js_image) (o : DrawOptions)
  : M (Z * list (list jsval)) :=
  rows <- image_rows asciiImage ;;
  compose rows
    (default 2 (dr_marginTop o)) (default 1 (dr_paddingTop o))
    (default 2 (dr_marginBottom o)) (default 1 (dr_paddingBottom o))
    (default 2 (dr_marginRight o)) (default 1 (dr_paddingRight o))
    (default 2 (dr_marginLeft o)) (default 1 (dr_paddingLeft o))
    (default (JStr "") (dr_paddingChar o)).

(** [[_draw](asciiImage, options = {})] *)
Definition _draw (asciiImage : js_image) (o : DrawOptions) : M unit :=
  let delay := default 1000 (dr_delay o) in
  let duration := default 30000 (dr_duration o) in
  let keep := default true (dr_keepOnNotAffectedColumns o) in
  wd <- draw_imageData asciiImage o ;;
  setTimeout (DrawFunction delay duration wd.2 keep
                (default 2 (dr_marginLeft o))
                (default 1 (dr_paddingLeft o) + wd.1 + default 1 (dr_paddingRight o)))
             delay ;;
  ret tt.

(** The closure [_draw] hands to [setTimeout].  The simpler file resumes
    before it queues the override and has no refresh cycle.  The source calls
    [this.pause] and [this.resume], which go through [_defer]: on a monitor
    that is ready, with nothing deferred, these are [_pause] and [_resume]. *)
Definition drawFunction (delay duration : Z) (imageData : list (list jsval))
    (keep : bool) (marginLeft width : Z) : M unit :=
  v <- gets (fun w => Options.variant (options w)) ;;
  let override := MainLoop {| m_clearScreen := false;
                              m_charTable := Some <$> imageData;
                              m_ignoreColumns := [] |} in
  _pause {| po_delay := Some 0; po_onlyTopCells := Some true; po_allAtOnce := None;
            po_minPauseDelay := None; po_maxPauseDelay := None |} ;;
  match v with
  | Full =>
      setTimeout override 1500 ;;
      _resume {| ro_delay := Some (delay + duration); ro_onlyTopCells := None |} ;;
      if keep then setTimeout (DrawRefresh duration marginLeft width) 2000 ;; ret tt
      else ret tt
  | Simple =>
      _resume {| ro_delay := Some (delay + duration); ro_onlyTopCells := None |} ;;
      setTimeout override 1500 ;;
      ret tt
  end.

(** The 2000ms closure of [_draw]: the refresh cycle on the columns the image
    does not cover. *)
Definition drawRefresh (duration marginLeft width : Z) : M unit :=
  zeros <- new_Array_fill width JNull ;;
  let ignoreColumns := (fun k => marginLeft + Z.of_nat k) <$> seq 0 (length zeros) in
  iv <- gets (fun w => Options.mainLoopInterval (options w)) ;;
  timer <- setInterval (MainLoop {| m_clearScreen := false; m_charTable := [];
                                    m_ignoreColumns := ignoreColumns |}) iv ;;
  setTimeout (ClearTimer (Some timer)) (2000 + duration) ;;
  ret tt.

(** ** Running callbacks *)

(** The body of each closure. *)
Definition exec (a : Action) : M unit :=
  match a with
  | UpdateCell cell char => updateCell cell char
  | FadeCell _ _ => ret tt
  | CreateDroplet topCell o => createDroplet topCell o
  | MainLoop o => mainLoop o
  | StartFunction iv => startFunction iv
  | PauseFunction onlyTop atOnce mn mx => pauseFunction onlyTop atOnce mn mx
  | ClearTimer h => clearTimeout h
  | PauseAtOnce onlyTop => pauseAtOnce onlyTop
  | ResumeFunction onlyTop => resumeFunction onlyTop
  | StopFunction clearScreen => stopFunction clearScreen
  | DrawFunction delay duration imageData keep marginLeft width =>
      drawFunction delay duration imageData keep marginLeft width
  | DrawRefresh duration marginLeft width => drawRefresh duration marginLeft width
  end.

(** The host fires timer [h]: the clock moves to its due time, a one-shot
    timer leaves the table and an interval is re-armed, then the callback
    runs. *)
Definition fire (h : nat) : M unit :=
  fun w =>
    match pending w !! h with
    | None => Ok tt w
    | Some t =>
        let clock := Z.max (now w) (t_due t) in
        let table :=
          match t_period t with
          | None => delete h (pending w)
          | Some p => <[h := interval_task clock p (t_action t)]> (pending w)
          end in
        exec (t_action t)
             {| now := clock; nextHandle := nextHandle w; pending := table;
                entropy := entropy w; columns := columns w; timers := timers w;
                options := options w |}
    end.

(** The timer the host fires next: the earliest due, the oldest among equals. *)
Definition earliest (p : gmap nat Task) : option (nat * Task) :=
  foldr (fun ht best =>
           match best with
           | None => Some ht
           | Some b =>
               if (t_due ht.2 <? t_due b.2)
                  || ((t_due ht.2 =? t_due b.2) && (ht.1 <? b.1)%nat)
               then Some ht else best
           end)
        None (map_to_list p).

(** Let the host run until no timer is due by [limit] (or the fuel ends). *)
Fixpoint run (fuel : nat) (limit : Z) : M unit :=
  match fuel with
  | O => ret tt
  | S fuel' =>
      next <- gets (fun w => earliest (pending w)) ;;
      match next with
      | Some (h, t) =>
          if t_due t <=? limit then fire h ;; run fuel' limit
          else ret tt
      | None => ret tt
      end
  end.

(** Time passes to [limit] with nothing due. *)
Definition sleep_until (limit : Z) : M unit :=
  fun w => Ok tt {| now := Z.max (now w) limit; nextHandle := nextHandle w;
                    pending := pending w; entropy := entropy w;
                    columns := columns w; timers := timers w; options := options w |}.

(** ** Initial states *)

(** [MatrixMonitor.DEFAULT_OPTIONS], with a two-glyph alphabet standing for
    the default one. *)
Definition default_options (v : Variant) (alphabet : string) : Options.t :=
  {| Options.variant := v;
     Options.alphabet := alphabet;
     Options.initialDelay := 1000;
     Options.mainLoopInterval := 10000;
     Options.mainLoopDuration := None;
     Options.minCharStartDelay := 500;
     Options.maxCharStartDelay := 10000;
     Options.minCharProgression := 200;
     Options.maxCharProgression := 800 |}.

(** The monitor right after [_initialize] built [ncols] columns of [nrows]
    cells; timer ids start at 1. *)
Definition initial_world (cfg : Options.t) (ncols nrows : nat) (rnd : list Q) : World :=
  {| now := 0; nextHandle := 1; pending := ∅; entropy := rnd;
     columns := replicate ncols (replicate nrows new_cell);
     timers := Timers.initial; options := cfg |}.

(** ** Vocabulary of the statements *)

(** [Math.random] returns a number in [[0, 1)]. *)
Definition unit_interval (u : Q) : Prop := (0 <= u)%Q /\ (u < 1)%Q.

(** The glyph at position 0 of the alphabet occurs at no other position. *)
Definition first_glyph_unique (alphabet : string) : Prop :=
  forall i, i <> 0 -> js_charAt alphabet i = js_charAt alphabet 0 ->
            js_charAt alphabet i = JUndefined.

(** The alphabet holds two glyphs that differ. *)
Definition two_distinct_glyphs (alphabet : string) : Prop :=
  exists i j a b, String.get i alphabet = Some a /\ String.get j alphabet = Some b /\ a <> b.

(** A monitor over the alphabet ["AAB"] whose next random number is 1/2. *)
Definition world_AAB : World :=
  initial_world (default_options Full "AAB") 1 1 [1 # 2]%Q.

(** The glyph [createDroplet] schedules for the cell at row position [i],
    given the glyph [previousChar] scheduled just before it: [''] when
    clearing; the [charList] entry when it is a string, the empty string
    included; otherwise what the Character Source returns for [previousChar]
    on one of the random numbers of the stream [rnd]. *)
Definition glyph_rule (alphabet : string) (rnd : list Q) (clearScreen : bool)
    (charList : list jsval) (i : nat) (previousChar ch : jsval) : Prop :=
  if clearScreen then ch = JStr ""
  else match js_index charList i with
       | JStr s => ch = JStr s
       | _ => exists n : nat,
           ch = getRandomChar_at alphabet previousChar
                  (random_of 0 (lastIndexOnRandom alphabet) (hd 0%Q (drop n rnd)))
       end.

(** Every timer id recorded in the cells [cells] was handed out by the host
    earlier. *)
Definition handles_issued (w : World) (cells : list cellref) : Prop :=
  forall c h, c ∈ cells -> Update.timer (cell_update (columns w) c) = Some h ->
              (h < nextHandle w)%nat.

(** The progression [createDroplet] draws in world [w]. *)
Definition droplet_progression (w : World) : Z :=
  random_of (inject_Z (Options.minCharProgression (options w)))
            (inject_Z (Options.maxCharProgression (options w)))
            (hd 0%Q (entropy w)).

(** The default configuration with both progression bounds set to 0. *)
Definition zero_progression_options : Options.t :=
  {| Options.variant := Full;
     Options.alphabet := "AB";
     Options.initialDelay := 1000;
     Options.mainLoopInterval := 10000;
     Options.mainLoopDuration := None;
     Options.minCharStartDelay := 500;
     Options.maxCharStartDelay := 10000;
     Options.minCharProgression := 0;
     Options.maxCharProgression := 0 |}.

(** One column of two cells under that configuration. *)
Definition world_zero_progression : World :=
  initial_world zero_progression_options 1 2 [1 # 2; 1 # 4; 3 # 4]%Q.

(** Two columns of three cells under the default configuration. *)
Definition world_2x3 : World :=
  initial_world (default_options Full "AB") 2 3 [1 # 2; 1 # 3; 1 # 4; 3 # 4]%Q.

(** The stored progressions of the cells of [cells] that [resume]
    reschedules, summed; a [null] progression counts as 0. *)
Definition resume_sum (v : Variant) (cols : list (list Cell)) (cells : list cellref) : Z :=
  foldr (fun c acc =>
           (if resume_skips v (cell_update cols c) then 0
            else default 0 (Update.progression (cell_update cols c))) + acc)
        0 cells.

(** The fresh cumulative sum for the cell in row [r] of column [c]: the
    stored progressions of the rescheduled cells above it, from 0. *)
Definition resume_delay (v : Variant) (cols : list (list Cell)) (c r : nat) : Z :=
  resume_sum v cols (column_cells c r).

(** A cell with its recorded timer id blanked: what is stored in the cell
    apart from the handle. *)
Definition strip_timer (cl : Cell) : Cell :=
  {| update := with_timer None (update cl); innerText := innerText cl |}.

(** [w'] has the clock and the configuration of [w] and, timer ids apart,
    the same cells. *)
Definition same_stored (w w' : World) : Prop :=
  now w' = now w /\
  options w' = options w /\
  forall cell, strip_timer <$> lookup_cell (columns w') cell
               = strip_timer <$> lookup_cell (columns w) cell.

(** Every run of [m] relates the world it starts in to the one it ends in. *)
Definition preserves {A} (R : World -> World -> Prop) (m : M A) : Prop :=
  forall w a w', m w = Ok a w' -> R w w'.

(** The timers [pauseAtOnce] and [stopFunction] clear for the cells [cells]
    (the grid does not change while they do). *)
Definition cancel_cells (cols : list (list Cell)) (cells : list cellref)
    (p : gmap nat Task) : gmap nat Task :=
  foldl (fun p c => cancel (Update.timer (cell_update cols c)) p) p cells.

(** Every pending update of a cell is the one the cell records. *)
Definition updates_tracked (w : World) : Prop :=
  forall h t cell ch,
    pending w !! h = Some t -> t_action t = UpdateCell cell ch ->
    Update.timer (cell_update (columns w) cell) = Some h.

(** [monitor.start({delay: 3000})] on the two-by-three grid: the start is
    pending as timer 1. *)
Definition world_start_pending : World :=
  match _start {| so_delay := Some 3000; so_duration := None |} world_2x3 with
  | Ok _ w => w
  | Throw _ => world_2x3
  end.

(** [{allAtOnce: true}] *)
Definition pause_at_once : PauseOptions :=
  {| po_delay := None; po_onlyTopCells := None; po_allAtOnce := Some true;
     po_minPauseDelay := None; po_maxPauseDelay := None |}.

(** The host after [pause({allAtOnce: true})] was called on
    [world_start_pending] and time ran to 3000. *)
Definition world_after_pause_and_start : World :=
  match (_pause pause_at_once ;; run 10 3000) world_start_pending with
  | Ok _ w => w
  | Throw _ => world_start_pending
  end.

(** [{delay: -1}]: start at once. *)
Definition start_now : StartOptions := {| so_delay := Some (-1); so_duration := None |}.

(** [start({delay: -1}); start({delay: -1})] on the two-by-three grid. *)
Definition world_started_twice : World :=
  match (_start start_now ;; _start start_now) world_2x3 with
  | Ok _ w => w
  | Throw _ => world_2x3
  end.

(** ... followed by [stop()]. *)
Definition world_started_twice_stopped : World :=
  match _stop no_stop_options world_started_twice with
  | Ok _ w => w
  | Throw _ => world_2x3
  end.

(** ... followed by 20 seconds of host time. *)
Definition world_started_twice_stopped_later : World :=
  match run 30 20000 world_started_twice_stopped with
  | Ok _ w => w
  | Throw _ => world_2x3
  end.

(** [w'] has every timer of [w] still pending, unchanged. *)
Definition cancels_nothing (w w' : World) : Prop :=
  (nextHandle w <= nextHandle w')%nat /\
  forall h, (h < nextHandle w)%nat -> pending w' !! h = pending w !! h.

(** [start({delay: 0})] on the two-by-three grid. *)
Definition world_start_zero_delay : World :=
  match _start {| so_delay := Some 0; so_duration := None |} world_2x3 with
  | Ok _ w => w
  | Throw _ => world_2x3
  end.

(** [start({delay: -1, duration: 0})] on the two-by-three grid. *)
Definition world_start_zero_duration : World :=
  match _start {| so_delay := Some (-1); so_duration := Some 0 |} world_2x3 with
  | Ok _ w => w
  | Throw _ => world_2x3
  end.

(** [row.length] of an image row that has one. *)
Definition elem_len (e : js_elem) : Z :=
  match e with
  | EArr l => Z.of_nat (length l)
  | EStr s => Z.of_nat (String.length s)
  | ENull => 0
  end.

(** [row[j]] of an image row. *)
Definition elem_glyph (e : js_elem) (j : nat) : jsval :=
  match e with
  | EArr l => js_index l j
  | EStr s => js_charAt s (Z.of_nat j)
  | ENull => JUndefined
  end.

(** The table the specification describes, written with list operations:
    [a] margin rows, [b] padding rows, the image rows, [d] padding rows and
    [e] margin rows; each row has [l] margin entries, [pl] padding entries,
    [iw] image entries, [pr] padding entries and [r] margin entries. *)
Definition spec_pad_row (l m r : nat) (pc : jsval) : list jsval :=
  replicate l JNull ++ replicate m pc ++ replicate r JNull.

Definition spec_image_row (l pl iw pr r : nat) (pc : jsval) (e : js_elem) : list jsval :=
  (replicate l JNull ++ replicate pl pc)
  ++ ((fun j => js_or (elem_glyph e j) pc) <$> seq 0 iw)
  ++ replicate pr pc ++ replicate r JNull.

Definition spec_table (rows : list js_elem) (a b d e l pl iw pr r : nat) (pc : jsval)
  : list (list jsval) :=
  replicate a (replicate (l + pl + iw + pr + r) JNull)
  ++ replicate b (spec_pad_row l (pl + iw + pr) r pc)
  ++ (spec_image_row l pl iw pr r pc <$> rows)
  ++ replicate d (spec_pad_row l (pl + iw + pr) r pc)
  ++ replicate e (replicate (l + pl + iw + pr + r) JNull).

(** All margins and paddings 1. *)
Definition ones : DrawOptions :=
  {| dr_delay := None; dr_duration := None; dr_marginTop := Some 1;
     dr_paddingTop := Some 1; dr_marginBottom := Some 1; dr_paddingBottom := Some 1;
     dr_marginRight := Some 1; dr_paddingRight := Some 1; dr_marginLeft := Some 1;
     dr_paddingLeft := Some 1; dr_paddingChar := None;
     dr_keepOnNotAffectedColumns := None |}.


(** A string, or an array whose first element is an array. *)
Definition passes_shape_test (asciiImage : js_image) : Prop :=
  match asciiImage with
  | ImgStr _ => True
  | ImgArr (EArr _ :: _) => True
  | _ => False
  end.

(** The rows [_draw] works on once the shape test has passed. *)
Definition rows_of (asciiImage : js_image) : list js_elem :=
  match asciiImage with
  | ImgStr s => (fun row => EArr (split_chars row)) <$> split_lines s
  | ImgArr rows => rows
  | ImgOther => []
  end.

(** A two-row, three-column image given as a matrix, and one given as text. *)
Definition image_2x3 : js_image :=
  ImgArr [EArr [JStr "a"; JStr "b"; JStr "c"]; EArr [JStr "d"; JStr "e"; JStr "f"]].

Definition text_2x3 : js_image := ImgStr (String "a" (String "b" (String "c"
  (String "010" (String "d" (String "e" (String "f" EmptyString))))))).


(** [m] never throws the error of the shape test. *)
Definition no_image_error {A} (m : M A) : Prop := forall w, m w <> Throw ImageError.


(** The defaults of the destructuring patterns, written out. *)
Definition pause_defaults : PauseOptions :=
  {| po_delay := Some 0; po_onlyTopCells := Some false; po_allAtOnce := Some false;
     po_minPauseDelay := Some 0; po_maxPauseDelay := Some 1000 |}.
Definition stop_defaults : StopOptions :=
  {| st_delay := Some 0; st_clearScreen := Some false |}.

(** Whether a callback is a cell update. *)
Definition is_update (a : Action) : bool :=
  match a with
  | UpdateCell _ _ => true
  | _ => false
  end.

(** The two-by-three grid 5.3 seconds after [start({delay: -1})]: the droplet
    of column 0 has shown its top cell and the two cells below are queued. *)
Definition world_mid_cascade : World :=
  match (_start start_now ;; run 30 5300) world_2x3 with
  | Ok _ w => w
  | Throw _ => world_2x3
  end.

(** ... after [pause({allAtOnce: true})] and the pause timer has fired. *)
Definition world_mid_cascade_paused : World :=
  match (_pause pause_at_once ;; run 30 5300) world_mid_cascade with
  | Ok _ w => w
  | Throw _ => world_2x3
  end.

(** ** The invariant of the engine *)

(** Partial correctness: from a world satisfying [P], a run of [m] that
    returns [a] ends in a world satisfying [Q a]. *)
Definition hoare {A} (P : World -> Prop) (m : M A) (Q : A -> World -> Prop) : Prop :=
  forall w a w', P w -> m w = Ok a w' -> Q a w'.

(** The kinds of callback each recorded timer id may name. *)
Inductive Role := CellRole | CycleRole | StartRole | PauseRole | ResumeRole | StopRole.

Definition role_of (a : Action) : option Role :=
  match a with
  | UpdateCell _ _ | CreateDroplet _ _ => Some CellRole
  | MainLoop _ => Some CycleRole
  | StartFunction _ => Some StartRole
  | PauseFunction _ _ _ _ => Some PauseRole
  | ResumeFunction _ => Some ResumeRole
  | StopFunction _ => Some StopRole
  | _ => None
  end.

(** The timer ids the monitor records, each with its role. *)
Definition recorded (w : World) (r : Role) (h : option nat) : Prop :=
  match r with
  | CellRole => exists cell, h = Update.timer (cell_update (columns w) cell)
  | CycleRole => h = Timers.mainLoopInterval (timers w)
  | StartRole => h = Timers.start (timers w)
  | PauseRole => h = Timers.pause (timers w)
  | ResumeRole => h = Timers.resume (timers w)
  | StopRole => h = Timers.stop (timers w)
  end.

(** A recorded id was handed out earlier and, while its timer is pending,
    names a callback of its role. *)
Definition role_ok (w : World) (r : Role) (h : option nat) : Prop :=
  forall i, h = Some i ->
    (i < nextHandle w)%nat /\
    forall t, pending w !! i = Some t -> role_of (t_action t) = Some r.

(** The invariant: every pending timer has an id that was handed out; every
    recorded id is [role_ok]; and a stored [update.function] is a cell
    update. *)
Definition engine_inv (w : World) : Prop :=
  (forall i, is_Some (pending w !! i) -> (i < nextHandle w)%nat) /\
  (forall r h, recorded w r h -> role_ok w r h) /\
  (forall cell f, Update.function (cell_update (columns w) cell) = Some f ->
                  role_of f = Some CellRole).

(** ** Histories of an initialised monitor *)

(** What can happen to an initialised monitor with nothing deferred: a call of
    one of the public methods modelled here, the host running its due timers,
    or time passing. *)
Inductive Event :=
  | EvStart (o : StartOptions)
  | EvStop (o : StopOptions)
  | EvPause (o : PauseOptions)
  | EvResume (o : ResumeOptions)
  | EvDraw (asciiImage : js_image) (o : DrawOptions)
  | EvRun (fuel : nat) (limit : Z)
  | EvSleep (limit : Z).

Definition event (e : Event) : M unit :=
  match e with
  | EvStart o => _start o
  | EvStop o => _stop o
  | EvPause o => _pause o
  | EvResume o => _resume o
  | EvDraw asciiImage o => _draw asciiImage o
  | EvRun fuel limit => run fuel limit
  | EvSleep limit => sleep_until limit
  end.

(** The worlds a fresh monitor reaches through events that do not throw. *)
Inductive reachable (w0 : World) : World -> Prop :=
  | reach_init : reachable w0 w0
  | reach_event e w w' : reachable w0 w -> event e w = Ok tt w' -> reachable w0 w'.

(** ** Vocabulary of the further properties *)

(** The number of droplets [mainLoop] has spawned once its loop has gone
    through the top-cell indices [indices]: the ones [ignoreColumns] does
    not hold. *)
Definition spawned (ignoreColumns : list Z) (indices : list nat) : nat :=
  length (filter (fun i => Z.of_nat i ∉ ignoreColumns) indices).

(** [charTableByColumn] as [mainLoop] computes it from its options. *)
Definition charTableByColumn (o : MainLoopOptions) : list (list jsval) :=
  if negb (m_clearScreen o) && (0 <? Z.of_nat (length (m_charTable o)))
  then transpose (m_charTable o) else [].

(** The timer ids [stop] clears when it runs in world [w]: the pending stop,
    the recurring cycle and the timer each cell records. *)
Definition stop_clears (w : World) (h : nat) : Prop :=
  Timers.stop (timers w) = Some h \/
  Timers.mainLoopInterval (timers w) = Some h \/
  exists c, c ∈ monitor_cells (columns w) /\
            Update.timer (cell_update (columns w) c) = Some h.

(** ** The generator of the cells below a cell *)

(** How a generator that is run to its end finishes. *)
Inductive gen_end := GenReturn | GenThrow (e : js_error).

(** The [do { yield nextCell; nextCell = nextCell.nextCell } while (nextCell)]
    loop of [getNextCells]: the values it yields, in order, and how it ends
    ([None] when the fuel runs out first).  A yielded [None] is
    [undefined]; reading [nextCell] of [undefined] is a TypeError. *)
Fixpoint getNextCells_loop (cols : list (list Cell)) (fuel : nat) (next : option cellref)
  : list (option cellref) * option gen_end :=
  match fuel with
  | O => ([], None)
  | S fuel' =>
      match next with
      | None => ([None], Some (GenThrow TypeError))
      | Some c =>
          match nextCell cols c with
          | None => ([Some c], Some GenReturn)
          | Some c' =>
              let r := getNextCells_loop cols fuel' (Some c') in
              (Some c :: r.1, r.2)
          end
      end
  end.

(** [* getNextCells() { let nextCell = this.nextCell ... }], run to its end;
    the rows of the column bound the loop. *)
Definition getNextCells (cols : list (list Cell)) (this : cellref)
  : list (option cellref) * option gen_end :=
  getNextCells_loop cols (S (rows cols this.1)) (nextCell cols this).

(** ** Initialisation and the deferred calls *)

(** The layout options [_initialize] reads, as [parseInt] returns them
    (whole numbers; a value [parseInt] cannot read is not modelled). *)
Record Layout := {
  paddingLeft : Z;
  cellWidth : Z;
  cellHeight : Z;
  horizontalSpacing : Z;
  verticalSpacing : Z
}.

(** The layout of [DEFAULT_OPTIONS]. *)
Definition default_layout : Layout :=
  {| paddingLeft := 10; cellWidth := 15; cellHeight := 20;
     horizontalSpacing := 8; verticalSpacing := 5 |}.

(** What the page answers while [_initialize] runs: whether
    [document.getElementById] finds the container (which is taken to be
    empty, so that the loop that empties it does nothing), its
    [clientWidth], and the [clientHeight] of the column created as number
    [i]. *)
Record Dom := {
  container : bool;
  clientWidth : Z;
  clientHeight : nat -> Z
}.

(** The cells [for (let y = y0; y < height; y += step) column.addCell(divCell)]
    adds; [None] when the fuel runs out before the loop ends. *)
Fixpoint build_column (fuel : nat) (y height step : Z) : option (list Cell) :=
  match fuel with
  | O => None
  | S fuel' =>
      if y <? height then
        match build_column fuel' (y + step) height step with
        | Some cells => Some (new_cell :: cells)
        | None => None
        end
      else Some []
  end.

(** The columns [for (let x = x0; x < width; x += cellWidth + horizontalSpacing)]
    adds, [index] being [monitor.columns.length] when the loop is at [x]. *)
Fixpoint build_columns (fuel : nat) (l : Layout) (dom : Dom) (index : nat) (x : Z)
  : option (list (list Cell)) :=
  match fuel with
  | O => None
  | S fuel' =>
      if x <? clientWidth dom then
        match build_column fuel 0 (clientHeight dom index)
                (cellHeight l + verticalSpacing l) with
        | Some col =>
            match build_columns fuel' l dom (S index)
                    (x + (cellWidth l + horizontalSpacing l)) with
            | Some rest => Some (col :: rest)
            | None => None
            end
        | None => None
        end
      else Some []
  end.

(** A call of a public method, as [_defer] stores it ([method] and [args]).
    A deferred [glitch] holds a function and is left out of the queue. *)
Inductive Call :=
| CallStart (o : StartOptions)
| CallPause (o : PauseOptions)
| CallResume (o : ResumeOptions)
| CallStop (o : StopOptions)
| CallDraw (asciiImage : js_image) (o : DrawOptions).

(** [this[method](...args)] *)
Definition invoke (c : Call) : M unit :=
  match c with
  | CallStart o => _start o
  | CallPause o => _pause o
  | CallResume o => _resume o
  | CallStop o => _stop o
  | CallDraw asciiImage o => _draw asciiImage o
  end.

(** The instance: [monitor.isInitialized], [this[_deferred]] and the rest of
    the state. *)
Record Instance := {
  isInitialized : bool;
  deferred : list Call;
  world : World
}.

(** [new MatrixMonitor(containerId, options)] before the page has loaded. *)
Definition new_instance (cfg : Options.t) (rnd : list Q) : Instance :=
  {| isInitialized := false; deferred := []; world := initial_world cfg 0 0 rnd |}.

Inductive init_error := NoContainer | Thrown (e : js_error).

(** How a method of the instance ends: it returns, it throws (the instance
    is then as the throw left it), or the fuel ran out. *)
Inductive Outcome :=
| Returns (i : Instance)
| Raises (e : init_error) (i : Instance)
| OutOfFuel.

(** [[_defer](method, ...args)].  A call that throws leaves the state as it
    was: of the methods only [_draw] throws, and it does so while it
    composes its table, before its first effect. *)
Definition _defer (c : Call) (i : Instance) : Outcome :=
  if isInitialized i && (Z.of_nat (length (deferred i)) =? 0) then
    match invoke c (world i) with
    | Ok _ w' => Returns {| isInitialized := isInitialized i; deferred := deferred i;
                            world := w' |}
    | Throw e => Raises (Thrown e) i
    end
  else Returns {| isInitialized := isInitialized i; deferred := deferred i ++ [c];
                  world := world i |}.

(** [while (this[_deferred][0]) { const deferred = this[_deferred].shift();
    this[deferred.method](...deferred.args) }]: what is left of the queue,
    the world, and the exception that ended the loop, if any. *)
Fixpoint drain (calls : list Call) (w : World) : list Call * World * option js_error :=
  match calls with
  | [] => ([], w, None)
  | c :: rest =>
      match invoke c w with
      | Ok _ w' => drain rest w'
      | Throw e => (rest, w, Some e)
      end
  end.

(** [monitor.reset()]: the grid and the recorded timer ids are dropped (the
    host's timers are not touched). *)
Definition reset (w : World) : World := set_timers Timers.initial (set_columns [] w).

(** [[_initialize]()] *)
Definition _initialize (fuel : nat) (l : Layout) (dom : Dom) (i : Instance) : Outcome :=
  let w0 := reset (world i) in
  if negb (container dom) then
    Raises NoContainer {| isInitialized := false; deferred := deferred i; world := w0 |}
  else
    match build_columns fuel l dom 0 (paddingLeft l) with
    | None => OutOfFuel
    | Some cols =>
        match drain (deferred i) (set_columns cols w0) with
        | (queue, w, None) =>
            Returns {| isInitialized := true; deferred := queue; world := w |}
        | (queue, w, Some e) =>
            Raises (Thrown e) {| isInitialized := true; deferred := queue; world := w |}
        end
    end.

(** The public calls [calls], made one after the other. *)
Fixpoint defer_all (calls : list Call) (i : Instance) : Outcome :=
  match calls with
  | [] => Returns i
  | c :: rest =>
      match _defer c i with
      | Returns i' => defer_all rest i'
      | other => other
      end
  end.

(** The number of rounds of [for (let v = from; v < to; v += step)] for a
    positive [step]. *)
Definition rounds (from to step : Z) : nat := Z.to_nat ((to - from + step - 1) / step).

(** The grid of [n] columns of fresh cells, column [i] having [height i]
    of them. *)
Definition fresh_grid (n : nat) (height : nat -> nat) : list (list Cell) :=
  (fun i => replicate (height i) new_cell) <$> seq 0 n.

(** A page whose container is 56 wide and whose columns are 75 high: with
    the default layout, two columns of three cells. *)
Definition dom_2x3 : Dom :=
  {| container := true; clientWidth := 56; clientHeight := fun _ => 75 |}.

(** The fresh two-by-three grid of [dom_2x3], and the world after the
    deferred call [start({delay: -1})] has run on it. *)
Definition world_fresh_2x3 : World :=
  set_columns (replicate 2 (replicate 3 new_cell))
    (reset (world (new_instance (default_options Full "AB") [1 # 2; 1 # 3]%Q))).

Definition world_deferred_start : World :=
  match for_each [CallStart start_now] invoke world_fresh_2x3 with
  | Ok _ w => w
  | Throw _ => world_fresh_2x3
  end.

(** ** The stuck-character glitch *)

(** [nextUpdated] of [Glitch.STUCK_CHARACTER]: going through the columns and
    down each column, the cell below every cell that has been shown while
    the one below it has not. *)
Definition nextUpdated (cols : list (list Cell)) : list cellref :=
  monitor_cells cols ≫= (fun cell =>
    match nextCell cols cell with
    | Some next =>
        if Update.isUpdated (cell_update cols cell)
           && negb (Update.isUpdated (cell_update cols next))
        then [next] else []
    | None => []
    end).

(** The [glitchFunction] closure of [Glitch.STUCK_CHARACTER], over the list
    it captured. *)
Definition stuck_glitchFunction (cells : list cellref) : M unit :=
  for_each cells (fun cell => char <- getRandomChar JNull ;; updateCell cell char).

(** The glyph [getRandomChar()] returns on random number [k] of the stream
    [rnd]. *)
Definition glyph_drawn (alphabet : string) (rnd : list Q) (k : nat) : jsval :=
  getRandomChar_at alphabet JNull
    (random_of 0 (lastIndexOnRandom alphabet) (hd 0%Q (drop k rnd))).

(** ** The public methods and their [options] argument *)

(** What a caller hands over as [options]: nothing ([undefined]), [null], a
    primitive value (a number, a string, a boolean), or an object, whose
    properties the record [A] holds. *)
Inductive js_arg (A : Type) : Type :=
| ArgUndefined
| ArgNull
| ArgPrimitive
| ArgObject (o : A).

Arguments ArgUndefined {A}.
Arguments ArgNull {A}.
Arguments ArgPrimitive {A}.
Arguments ArgObject {A} o.

(** [method(options = {}) { const {...} = options ... }]: the default
    parameter replaces [undefined] only; destructuring [null] throws a
    TypeError before anything else happens; every property read from a
    primitive value is [undefined]. *)
Definition destructure {A} (empty : A) (options : js_arg A) : M A :=
  match options with
  | ArgUndefined => ret empty
  | ArgNull => throw TypeError
  | ArgPrimitive => ret empty
  | ArgObject o => ret o
  end.

(** [start(options = {})] on a monitor that is ready: [_start] reads its
    options behind [if (options)], so [null] and the falsy primitives skip
    the block, and a truthy primitive has neither [delay] nor [duration]. *)
Definition start (options : js_arg StartOptions) : M unit :=
  _start (match options with
          | ArgObject o => o
          | _ => no_start_options
          end).

(** [pause(options = {})] on a monitor that is ready. *)
Definition pause (options : js_arg PauseOptions) : M unit :=
  o <- destructure no_pause_options options ;; _pause o.

(** [resume(options = {})] on a monitor that is ready. *)
Definition resume (options : js_arg ResumeOptions) : M unit :=
  o <- destructure no_resume_options options ;; _resume o.

(** [stop(options = {})] on a monitor that is ready. *)
Definition stop (options : js_arg StopOptions) : M unit :=
  o <- destructure no_stop_options options ;; _stop o.









(** ** A resume in the middle of a cascade *)

(** [world_mid_cascade] after [resume()]: the two queued cells of column 0
    are queued once more. *)
Definition world_resumed : World :=
  match _resume no_resume_options world_mid_cascade with
  | Ok _ w => w
  | Throw _ => world_2x3
  end.

(** ... after [pause({allAtOnce: true})] and the pause timer has fired. *)
Definition world_resumed_paused : World :=
  match (_pause pause_at_once ;; run 30 5300) world_resumed with
  | Ok _ w => w
  | Throw _ => world_2x3
  end.

(** ... and 700 ms later. *)
Definition world_resumed_paused_later : World :=
  match run 30 6000 world_resumed_paused with
  | Ok _ w => w
  | Throw _ => world_2x3
  end.

(** The default configuration with droplets that spawn at once
    ([minCharStartDelay] and [maxCharStartDelay] are 0). *)
Definition quick_spawn_options : Options.t :=
  {| Options.variant := Full;
     Options.alphabet := "AB";
     Options.initialDelay := 1000;
     Options.mainLoopInterval := 10000;
     Options.mainLoopDuration := None;
     Options.minCharStartDelay := 0;
     Options.maxCharStartDelay := 0;
     Options.minCharProgression := 200;
     Options.maxCharProgression := 800 |}.

(** One column of two cells under that configuration; [Math.random] gives 0. *)
Definition world_quick_1x2 : World := initial_world quick_spawn_options 1 2 [].

(** [start({delay: -1})], the timers due within 100 ms, [resume()],
    [start({delay: -1})] again, and the first timer that is due: the second
    droplet of the column is the next timer to fire. *)
Definition world_droplet_due : World :=
  match (_start start_now ;; run 30 100 ;; _resume no_resume_options ;;
         _start start_now ;; run 1 100) world_quick_1x2 with
  | Ok _ w => w
  | Throw _ => world_quick_1x2
  end.

(** ... after the host has fired that droplet. *)
Definition world_droplet_done : World :=
  match run 1 100 world_droplet_due with
  | Ok _ w => w
  | Throw _ => world_quick_1x2
  end.

(** ... and 300 ms later. *)
Definition world_droplet_later : World :=
  match run 30 300 world_droplet_done with
  | Ok _ w => w
  | Throw _ => world_quick_1x2
  end.

(** * Properties *)

(** ** The monad *)

(** [m] never throws. *)
Definition safe {A} (m : M A) : Prop := forall w, exists a w', m w = Ok a w'.

Lemma safe_ret {A} (a : A) : safe (ret a).
Proof. intros w. by exists a, w. Qed.

Lemma safe_bind {A B} (m : M A) (k : A -> M B) :
  safe m -> (forall a, safe (k a)) -> safe (bind m k).
Proof.
  intros Hm Hk w. destruct (Hm w) as (a & w1 & E).
  unfold bind. rewrite E. apply Hk.
Qed.

Lemma bind_Ok {A B} (m : M A) (k : A -> M B) w a w1 :
  m w = Ok a w1 -> bind m k w = k a w1.
Proof. intros E. unfold bind. by rewrite E. Qed.

Lemma safe_gets {A} (f : World -> A) : safe (gets f).
Proof. intros w. by exists (f w), w. Qed.

Lemma safe_modify f : safe (modify f).
Proof. intros w. by exists tt, (f w). Qed.

Lemma safe_for_each {A} (xs : list A) (body : A -> M unit) :
  (forall x, safe (body x)) -> safe (for_each xs body).
Proof.
  intros Hb. induction xs as [|x xs IH]; simpl.
  - apply safe_ret.
  - apply safe_bind; [apply Hb | intros _; apply IH].
Qed.

Lemma safe_Math_random : safe Math_random.
Proof. intros w. by eexists _, _. Qed.

Lemma safe_random from to : safe (random from to).
Proof. apply safe_bind; [apply safe_Math_random | intros; apply safe_ret]. Qed.

Lemma safe_setTimeout a d : safe (setTimeout a d).
Proof. intros w. by eexists _, _. Qed.

Lemma safe_setInterval a d : safe (setInterval a d).
Proof. intros w. by eexists _, _. Qed.

Lemma safe_clearTimeout h : safe (clearTimeout h).
Proof. intros w. by eexists _, _. Qed.

(** ** Character Source *)

Lemma strict_eq_true a b : strict_eq a b = true <-> a = b.
Proof. unfold strict_eq. apply bool_decide_eq_true. Qed.

Lemma truthy_defined v : truthy v = true -> v <> JUndefined.
Proof. by destruct v. Qed.

Lemma string_get_nth (s : string) (i : nat) :
  String.get i s = list_ascii_of_string s !! i.
Proof.
  revert i. induction s as [|a s IH]; intros [|i]; simpl; auto.
Qed.

(** An alphabet of pairwise distinct glyphs has a unique first glyph. *)
Lemma NoDup_first_glyph_unique (alphabet : string) :
  NoDup (list_ascii_of_string alphabet) -> first_glyph_unique alphabet.
Proof.
  intros Hnd i Hi Heq. unfold js_charAt in *.
  destruct (Z.ltb_spec i 0) as [|Hge]; [done|]. simpl in Heq.
  rewrite !string_get_nth in *.
  destruct (list_ascii_of_string alphabet !! Z.to_nat i) as [a|] eqn:Ea; [|done].
  change (Z.to_nat 0) with 0%nat in Heq.
  destruct (list_ascii_of_string alphabet !! 0%nat) as [b|] eqn:Eb; [|congruence].
  injection Heq as ->.
  assert (Z.to_nat i = 0%nat) by (eapply NoDup_lookup; eauto).
  lia.
Qed.

(** What [getRandomChar] returns is the body applied to the index drawn from
    the next random number; it uses up that number and changes nothing else. *)
Lemma getRandomChar_run (except : jsval) (w : World) :
  getRandomChar except w =
  Ok (getRandomChar_at (Options.alphabet (options w)) except
        (random_of 0 (lastIndexOnRandom (Options.alphabet (options w)))
                   (hd 0%Q (entropy w))))
     (set_entropy (tl (entropy w)) w).
Proof. reflexivity. Qed.

(** With a unique first glyph, the body of [getRandomChar] never yields a
    non-empty [except]. *)
Lemma getRandomChar_at_avoids (alphabet : string) (except : jsval) (index : Z) :
  first_glyph_unique alphabet -> truthy except = true ->
  getRandomChar_at alphabet except index <> except.
Proof.
  intros Huniq Htr. unfold getRandomChar_at. rewrite Htr. simpl.
  destruct (strict_eq except (js_charAt alphabet index)) eqn:E.
  - apply strict_eq_true in E.
    destruct (Z.eqb_spec index 0) as [->|Hne]; simpl; intros Hbad.
    + apply truthy_defined in Htr. apply Htr.
      rewrite E. rewrite <- E at 1. rewrite <- Hbad.
      apply Huniq; [done|]. congruence.
    + apply truthy_defined in Htr. apply Htr.
      rewrite E. apply Huniq; [done|]. congruence.
  - intros Hbad. apply Bool.not_true_iff_false in E. apply E.
    by apply strict_eq_true.
Qed.

(** C2, as the code has it: when the first glyph of the alphabet occurs at no
    other position (so for every alphabet of pairwise distinct glyphs) and
    [except] is a non-empty string, [getRandomChar] returns a result for every
    random draw and that result is never [except]; when the glyph at the drawn
    index equals [except], the result is the glyph at position 0 unless the
    drawn index is 0, in which case it is the glyph at position 1. *)
Theorem getRandomChar_avoids_exclude (w : World) (except : jsval) :
  first_glyph_unique (Options.alphabet (options w)) ->
  truthy except = true ->
  exists index w',
    getRandomChar except w
    = Ok (getRandomChar_at (Options.alphabet (options w)) except index) w' /\
    getRandomChar_at (Options.alphabet (options w)) except index <> except /\
    (js_charAt (Options.alphabet (options w)) index = except ->
     getRandomChar_at (Options.alphabet (options w)) except index
     = if index =? 0 then js_charAt (Options.alphabet (options w)) 1
       else js_charAt (Options.alphabet (options w)) 0).
Proof.
  intros Huniq Htr. eexists _, _. split; [apply getRandomChar_run|].
  split; [by apply getRandomChar_at_avoids|].
  intros Heq. unfold getRandomChar_at. rewrite Htr. simpl.
  assert (strict_eq except
            (js_charAt (Options.alphabet (options w))
               (random_of 0 (lastIndexOnRandom (Options.alphabet (options w)))
                  (hd 0%Q (entropy w)))) = true) as -> by (by apply strict_eq_true).
  by destruct (_ =? 0).
Qed.

Lemma getRandomChar_avoids_exclude_witness :
  exists index w',
    getRandomChar (JStr "A")
      (initial_world (default_options Full "AB") 1 1 [1 # 4]%Q)
    = Ok (getRandomChar_at "AB" (JStr "A") index) w' /\
    getRandomChar_at "AB" (JStr "A") index <> JStr "A" /\
    (js_charAt "AB" index = JStr "A" ->
     getRandomChar_at "AB" (JStr "A") index
     = if index =? 0 then js_charAt "AB" 1 else js_charAt "AB" 0).
Proof.
  apply (getRandomChar_avoids_exclude
           (initial_world (default_options Full "AB") 1 1 [1 # 4]%Q) (JStr "A")).
  - apply NoDup_first_glyph_unique. simpl. apply NoDup_cons_2; [|apply NoDup_singleton].
    intros H. apply list_elem_of_singleton in H. discriminate.
  - reflexivity.
Defined.

(** C2, as stated, fails: ["AAB"] holds two distinct glyphs, [except] is the
    non-empty ["A"], the draw 1/2 selects index 1, which holds ["A"], and the
    substitute is the glyph at position 0, ["A"] again. *)
Lemma getRandomChar_returns_exclude :
  two_distinct_glyphs "AAB" /\ truthy (JStr "A") = true /\
  unit_interval (1 # 2) /\
  exists w', getRandomChar (JStr "A") world_AAB = Ok (JStr "A") w'.
Proof.
  split; [|split; [|split]].
  - exists 0%nat, 2%nat, "A"%char, "B"%char. by repeat split.
  - reflexivity.
  - split; [unfold Qle | unfold Qlt]; simpl; lia.
  - eexists. reflexivity.
Qed.

(** ** Random numbers *)

Lemma Qfloor_lt_Z (x : Q) (z : Z) : (x < inject_Z z)%Q -> Qfloor x < z.
Proof.
  intros Hx. rewrite Zlt_Qlt. eapply Qle_lt_trans; [apply Qfloor_le|exact Hx].
Qed.

Lemma Qfloor_ge_Z (x : Q) (z : Z) : (inject_Z z <= x)%Q -> z <= Qfloor x.
Proof. intros Hx. rewrite <- (Qfloor_Z z). by apply Qfloor_resp_le. Qed.

Lemma Qfloor_le_Z (x : Q) (z : Z) : (x <= inject_Z z)%Q -> Qfloor x <= z.
Proof.
  intros Hx. transitivity (Qfloor (inject_Z z)); [by apply Qfloor_resp_le|].
  by rewrite Qfloor_Z.
Qed.

(** For integer bounds in the right order, [random] stays between them. *)
Lemma random_of_bounds (from to : Z) (u : Q) :
  unit_interval u -> from <= to ->
  from <= random_of (inject_Z from) (inject_Z to) u <= to.
Proof.
  intros [H0 H1] Hft. unfold random_of.
  assert (0 <= inject_Z to - inject_Z from)%Q as Hd.
  { rewrite Zle_Qle in Hft. unfold Qminus. rewrite <- Qle_minus_iff. exact Hft. }
  assert (0 <= u * (inject_Z to - inject_Z from))%Q as Hlo
      by (apply Qmult_le_0_compat; assumption).
  assert (u * (inject_Z to - inject_Z from) <= 1 * (inject_Z to - inject_Z from))%Q as Hhi
      by (apply Qmult_le_compat_r; [apply Qlt_le_weak|]; assumption).
  split.
  - rewrite <- (Qfloor_Z from) at 1. apply Qfloor_resp_le.
    lra.
  - rewrite <- (Qfloor_Z to) at 2. apply Qfloor_resp_le.
    lra.
Qed.

(** Whichever way round the integer bounds are, [random] stays between them. *)
Lemma random_of_between (from to : Z) (u : Q) :
  unit_interval u ->
  Z.min from to <= random_of (inject_Z from) (inject_Z to) u <= Z.max from to.
Proof.
  intros [H0 H1]. unfold random_of.
  destruct (Z.le_ge_cases from to) as [Hle|Hle].
  - rewrite Z.min_l, Z.max_r by done. rewrite Zle_Qle in Hle. split.
    + apply Qfloor_ge_Z. nra.
    + apply Qfloor_le_Z. nra.
  - rewrite Z.min_r, Z.max_l by done. rewrite Zle_Qle in Hle. split.
    + apply Qfloor_ge_Z. nra.
    + apply Qfloor_le_Z. nra.
Qed.

(** ** Grid Model *)

Lemma lookup_cell_alter_eq f c cols :
  lookup_cell (alter_cell f c cols) c = f <$> lookup_cell cols c.
Proof.
  unfold lookup_cell, alter_cell. rewrite list_lookup_alter_eq.
  destruct (cols !! c.1) as [col|]; simpl; [|done].
  apply list_lookup_alter_eq.
Qed.

Lemma lookup_cell_alter_ne f c c' cols :
  c <> c' -> lookup_cell (alter_cell f c cols) c' = lookup_cell cols c'.
Proof.
  intros Hne. unfold lookup_cell, alter_cell.
  destruct (decide (c.1 = c'.1)) as [E|E].
  - rewrite <- E, list_lookup_alter_eq.
    destruct (cols !! c.1) as [col|]; simpl; [|done].
    apply list_lookup_alter_ne. destruct c, c'; simpl in *; congruence.
  - by rewrite list_lookup_alter_ne.
Qed.

Lemma lookup_cell_alter_is_Some f c c' cols :
  is_Some (lookup_cell (alter_cell f c cols) c') <-> is_Some (lookup_cell cols c').
Proof.
  destruct (decide (c = c')) as [->|Hne].
  - rewrite lookup_cell_alter_eq. apply fmap_is_Some.
  - by rewrite lookup_cell_alter_ne.
Qed.

Lemma cell_update_alter_eq g c cols :
  is_Some (lookup_cell cols c) ->
  cell_update (alter_cell (fun cl => {| update := g (update cl); innerText := innerText cl |})
                          c cols) c
  = g (cell_update cols c).
Proof.
  intros [cl E]. unfold cell_update. by rewrite lookup_cell_alter_eq, E.
Qed.

Lemma cell_update_alter_ne f c c' cols :
  c <> c' -> cell_update (alter_cell f c cols) c' = cell_update cols c'.
Proof. intros. unfold cell_update. by rewrite lookup_cell_alter_ne. Qed.

Lemma nextCell_column cols c col r :
  cols !! c = Some col ->
  nextCell cols (c, r) = if decide (S r < length col)%nat then Some (c, S r) else None.
Proof.
  intros E. unfold nextCell, lookup_cell. simpl. rewrite E.
  destruct (decide (S r < length col)%nat) as [Hlt|Hge].
  - destruct (lookup_lt_is_Some_2 col (S r) Hlt) as [x ->]. done.
  - rewrite lookup_ge_None_2; [done|lia].
Qed.

(** Following [nextCell] from row [r] visits the remaining rows in order. *)
Lemma chain_column cols c col fuel r :
  cols !! c = Some col -> (r < length col)%nat -> (length col - r <= fuel)%nat ->
  chain cols fuel (Some (c, r)) = (fun r => (c, r)) <$> seq r (length col - r).
Proof.
  intros E. revert r. induction fuel as [|fuel IH]; intros r Hr Hf; [lia|].
  simpl. rewrite (nextCell_column _ _ _ _ E).
  replace (length col - r)%nat with (S (length col - S r)) by lia. simpl. f_equal.
  destruct (decide (S r < length col)%nat).
  - apply IH; lia.
  - replace (length col - S r)%nat with 0%nat by lia. by destruct fuel.
Qed.

(** The walk that starts at a column's top cell visits the whole column. *)
Lemma walk_top cols c col :
  cols !! c = Some col -> walk cols (c, 0%nat) = column_cells c (length col).
Proof.
  intros E. unfold walk, lookup_cell, column_cells. simpl. rewrite E. simpl.
  destruct col as [|cl col]; [done|].
  change ((cl :: col) !! 0%nat) with (Some cl). cbv beta iota.
  rewrite (chain_column _ _ _ _ _ E); [|simpl; lia..].
  by rewrite Nat.sub_0_r.
Qed.

Lemma column_cells_lookup c n k cell :
  column_cells c n !! k = Some cell <-> cell = (c, k) /\ (k < n)%nat.
Proof.
  unfold column_cells. rewrite list_lookup_fmap_Some. split.
  - intros (r & -> & Hr). apply lookup_seq in Hr as [-> ?]. done.
  - intros [-> ?]. exists k. split; [done|]. by apply lookup_seq.
Qed.

Lemma column_cells_elem c n cell :
  cell ∈ column_cells c n <-> cell.1 = c /\ (cell.2 < n)%nat.
Proof.
  rewrite list_elem_of_lookup. split.
  - intros [k Hk]. apply column_cells_lookup in Hk as [-> ?]. done.
  - intros [<- ?]. exists cell.2. apply column_cells_lookup. by destruct cell.
Qed.

Lemma column_cells_NoDup c n : NoDup (column_cells c n).
Proof.
  unfold column_cells. apply NoDup_fmap_2; [|apply NoDup_seq].
  intros r1 r2. congruence.
Qed.

Lemma column_cells_in_grid cols c col cell :
  cols !! c = Some col -> cell ∈ column_cells c (length col) ->
  is_Some (lookup_cell cols cell).
Proof.
  intros E [Hc Hr]%column_cells_elem. unfold lookup_cell. rewrite Hc, E.
  by apply lookup_lt_is_Some_2.
Qed.

(** ** The host's timer table *)

Lemma lookup_cancel_eq i (p : gmap nat Task) : cancel (Some i) p !! i = None.
Proof. apply lookup_delete_eq. Qed.

Lemma lookup_cancel_ne h i (p : gmap nat Task) : h <> Some i -> cancel h p !! i = p !! i.
Proof.
  intros Hne. destruct h as [j|]; simpl; [|done].
  apply lookup_delete_ne. congruence.
Qed.

Lemma lookup_cancel_None h i (p : gmap nat Task) : p !! i = None -> cancel h p !! i = None.
Proof.
  intros Hp. destruct h as [j|]; simpl; [|done].
  rewrite lookup_delete. by case_decide.
Qed.

(** ** Droplet Cascade Generator *)

(** One turn of the loop of [createDroplet]. *)
Lemma droplet_loop_step cs cl p c rest i d prev w :
  exists ch w1,
    droplet_loop cs cl p (c :: rest) i d prev w
    = droplet_loop cs cl p rest (S i) (d + p) ch w1 /\
    glyph_rule (Options.alphabet (options w)) (entropy w) cs cl i prev ch /\
    now w1 = now w /\
    nextHandle w1 = S (nextHandle w) /\
    pending w1 = <[nextHandle w := timeout_task (now w) d (UpdateCell c ch)]>
                   (cancel (Update.timer (cell_update (columns w) c)) (pending w)) /\
    columns w1 = alter_cell
                   (fun cl => {| update := droplet_assign (Options.variant (options w)) c
                                             (nextHandle w) d p ch (update cl);
                                 innerText := innerText cl |})
                   c (columns w) /\
    timers w1 = timers w /\
    options w1 = options w /\
    exists n, entropy w1 = drop n (entropy w).
Proof.
  unfold glyph_rule. simpl. unfold bind at 1. unfold droplet_char.
  destruct cs.
  - eexists _, _. split; [reflexivity|]. repeat split. by exists 0%nat.
  - destruct (js_index cl i) as [| |s] eqn:E; simpl.
    + eexists _, _. split; [reflexivity|]. repeat split; [by exists 0%nat|].
      exists 1%nat. simpl. by destruct (entropy w).
    + eexists _, _. split; [reflexivity|]. repeat split; [by exists 0%nat|].
      exists 1%nat. simpl. by destruct (entropy w).
    + destruct (String.eqb_spec s "") as [->|Hs]; simpl.
      * eexists _, _. split; [reflexivity|]. repeat split. by exists 0%nat.
      * eexists _, _. split; [reflexivity|]. repeat split. by exists 0%nat.
Qed.

(** The whole loop of [createDroplet], over distinct cells of the grid whose
    recorded timer ids are old: cell number [k] gets timer id
    [nextHandle + k], delay [d + k * p] and a glyph that follows
    [glyph_rule]; its previous timer is gone from the table; nothing else
    changes. *)
Lemma droplet_loop_spec cs cl p cells :
  forall i d prev w,
    NoDup cells ->
    (forall c, c ∈ cells -> is_Some (lookup_cell (columns w) c)) ->
    handles_issued w cells ->
    exists w',
      droplet_loop cs cl p cells i d prev w = Ok tt w' /\
      now w' = now w /\ timers w' = timers w /\ options w' = options w /\
      nextHandle w' = (nextHandle w + length cells)%nat /\
      (exists n, entropy w' = drop n (entropy w)) /\
      (forall k c, cells !! k = Some c ->
         exists ch,
           cell_update (columns w') c
           = droplet_assign (Options.variant (options w)) c (nextHandle w + k)
               (d + Z.of_nat k * p) p ch (cell_update (columns w) c) /\
           pending w' !! (nextHandle w + k)%nat
           = Some (timeout_task (now w) (d + Z.of_nat k * p) (UpdateCell c ch)) /\
           glyph_rule (Options.alphabet (options w)) (entropy w) cs cl (i + k)
             (match k with
              | O => prev
              | S k' => match cells !! k' with
                        | Some c' => Update.nextChar (cell_update (columns w') c')
                        | None => JNull
                        end
              end) ch) /\
      (forall c, c ∉ cells -> lookup_cell (columns w') c = lookup_cell (columns w) c) /\
      (forall c, is_Some (lookup_cell (columns w') c) <-> is_Some (lookup_cell (columns w) c)) /\
      (forall c h, c ∈ cells -> Update.timer (cell_update (columns w) c) = Some h ->
                   pending w' !! h = None) /\
      (forall h, (forall c, c ∈ cells -> Update.timer (cell_update (columns w) c) <> Some h) ->
                 (h < nextHandle w \/ nextHandle w + length cells <= h)%nat ->
                 pending w' !! h = pending w !! h).
Proof.
  induction cells as [|c rest IH]; intros i d prev w Hnd Hgrid Hold.
  - exists w. simpl.
    split; [done|]. split; [done|]. split; [done|]. split; [done|].
    split; [lia|]. split; [by exists 0%nat|].
    split; [by intros k c Hk|]. split; [done|]. split; [done|].
    split; [by intros c h Hc%elem_of_nil|done].
  - apply NoDup_cons in Hnd as [Hc Hnd].
    destruct (droplet_loop_step cs cl p c rest i d prev w)
      as (ch & w1 & Hstep & Hglyph & Hnow & Hnext & Hpend & Hcols & Htim & Hopt & n1 & Hent).
    assert (forall c', c' ∈ rest ->
              cell_update (columns w1) c' = cell_update (columns w) c') as Hsame.
    { intros c' Hc'. rewrite Hcols. apply cell_update_alter_ne. by intros ->. }
    destruct (IH (S i) (d + p) ch w1 Hnd) as
      (w' & Hrun & Hnow' & Htim' & Hopt' & Hnext' & (n2 & Hent') & Hcells & Hframe
          & Hshape & Hgone & Hkeep).
    { intros c' Hc'. rewrite Hcols. apply lookup_cell_alter_is_Some, Hgrid. by right. }
    { intros c' h Hc' Ht. rewrite Hsame in Ht by done. rewrite Hnext.
      enough (h < nextHandle w)%nat by lia. eapply Hold; [|done]. by right. }
    assert (is_Some (lookup_cell (columns w) c)) as Hcin by (apply Hgrid; by left).
    assert (cell_update (columns w') c
            = droplet_assign (Options.variant (options w)) c (nextHandle w) d p ch
                (cell_update (columns w) c)) as Hc0.
    { unfold cell_update at 1. rewrite (Hframe c Hc), Hcols.
      apply cell_update_alter_eq, Hcin. }
    exists w'. rewrite Hstep, Hrun, Hnow', Htim', Hopt', Hnext', Hnow, Htim, Hopt, Hnext.
    split; [done|]. split; [done|]. split; [done|]. split; [done|].
    split; [simpl; lia|].
    split; [exists (n1 + n2)%nat; by rewrite Hent', Hent, drop_drop|].
    split; [|split; [|split; [|split]]].
    + intros [|k] c' Hk; simpl in Hk.
      * injection Hk as <-. exists ch.
        rewrite Nat.add_0_r, Z.mul_0_l, Z.add_0_r, Nat.add_0_r.
        split; [exact Hc0|]. split; [|exact Hglyph].
        rewrite Hkeep, Hpend; [apply lookup_insert_eq| |lia].
        intros c' Hc' Ht. rewrite Hsame in Ht by done.
        assert (nextHandle w < nextHandle w)%nat; [|lia].
        eapply Hold; [|done]. by right.
      * destruct (Hcells k c' Hk) as (ch' & Hu & Hp & Hg).
        assert (c' ∈ rest) as Hin by (eapply list_elem_of_lookup_2; done).
        exists ch'. rewrite Hsame in Hu by done. rewrite Hopt, Hnext in Hu.
        rewrite Hnext, Hnow in Hp. rewrite Hopt in Hg.
        replace (nextHandle w + S k)%nat with (S (nextHandle w) + k)%nat by lia.
        replace (d + Z.of_nat (S k) * p) with (d + p + Z.of_nat k * p) by lia.
        split; [exact Hu|]. split; [exact Hp|].
        replace (i + S k)%nat with (S i + k)%nat by lia.
        assert (glyph_rule (Options.alphabet (options w)) (entropy w) cs cl (S i + k)
                  match k with
                  | 0%nat => ch
                  | S k' => match rest !! k' with
                            | Some c'0 => Update.nextChar (cell_update (columns w') c'0)
                            | None => JNull
                            end
                  end ch') as Hg'.
        { revert Hg. unfold glyph_rule. destruct cs; [done|].
          destruct (js_index cl (S i + k)); [| |done].
          - intros [m ->]. exists (n1 + m)%nat. by rewrite Hent, drop_drop.
          - intros [m ->]. exists (n1 + m)%nat. by rewrite Hent, drop_drop. }
        destruct k as [|k']; simpl; [|exact Hg'].
        by rewrite Hc0.
    + intros c' Hc'. apply not_elem_of_cons in Hc' as [Hne Hc'].
      rewrite Hframe by done. rewrite Hcols.
      by apply lookup_cell_alter_ne.
    + intros c'. rewrite Hshape, Hcols. apply lookup_cell_alter_is_Some.
    + intros c' h [->|Hin]%elem_of_cons Ht.
      * assert (h < nextHandle w)%nat as Hlt by (eapply Hold; [|done]; by left).
        destruct (decide (Exists (fun c'' =>
                    Update.timer (cell_update (columns w) c'') = Some h) rest))
          as [(c''&?&?)%Exists_exists|Hno].
        -- eapply Hgone; [done|]. by rewrite Hsame.
        -- rewrite Hkeep; [|intros c'' ?; rewrite Hsame by done;
                            intros ?; apply Hno, Exists_exists; eauto|lia].
           rewrite Hpend, lookup_insert_ne by lia. rewrite Ht. apply lookup_cancel_eq.
      * eapply Hgone; [done|]. by rewrite Hsame.
    + intros h Hno Hrange. rewrite Hkeep.
      * rewrite Hpend, lookup_insert_ne by (simpl in Hrange; lia).
        apply lookup_cancel_ne. apply Hno. by left.
      * intros c' Hc'. rewrite Hsame by done. apply Hno. by right.
      * simpl in Hrange. lia.
Qed.

Lemma createDroplet_run topCell o w :
  createDroplet topCell o w
  = droplet_loop (d_clearScreen o) (d_charList o) (droplet_progression w)
      (walk (columns w) topCell) 0 0 JNull (set_entropy (tl (entropy w)) w).
Proof. reflexivity. Qed.

Lemma handles_issued_initial cfg ncols nrows rnd cells :
  handles_issued (initial_world cfg ncols nrows rnd) cells.
Proof.
  intros [c r] h _. unfold cell_update, lookup_cell. simpl.
  destruct (replicate ncols (replicate nrows new_cell) !! c) as [col|] eqn:E; [|done].
  apply lookup_replicate in E as [-> _].
  destruct (replicate nrows new_cell !! r) as [cl|] eqn:E'; [|done].
  apply lookup_replicate in E' as [-> _]. done.
Qed.

(** C1, as the code has it: for a column of [R >= 1] cells whose recorded
    timer ids are old, one non-clearing [createDroplet] call on the top cell
    draws one progression [p], between the two configured bounds, walks the
    whole column, and schedules exactly [R] tasks: the host hands out [R] new
    timer ids, id number [r] holds the update of the cell in row [r] with
    delay [r * p], and no other entry of the table is added.  The delays
    increase strictly down the column when [p > 0], which is so when both
    bounds are at least 1. *)
Theorem createDroplet_schedules_column (w : World) (c : nat) (col : list Cell)
    (charList : list jsval) :
  columns w !! c = Some col ->
  (1 <= length col)%nat ->
  handles_issued w (column_cells c (length col)) ->
  exists w',
    createDroplet (c, 0%nat) {| d_clearScreen := false; d_charList := charList |} w
    = Ok tt w' /\
    walk (columns w) (c, 0%nat) = column_cells c (length col) /\
    (unit_interval (hd 0%Q (entropy w)) ->
     Z.min (Options.minCharProgression (options w)) (Options.maxCharProgression (options w))
     <= droplet_progression w
     <= Z.max (Options.minCharProgression (options w))
              (Options.maxCharProgression (options w))) /\
    (unit_interval (hd 0%Q (entropy w)) ->
     1 <= Options.minCharProgression (options w) ->
     1 <= Options.maxCharProgression (options w) ->
     0 < droplet_progression w) /\
    nextHandle w' = (nextHandle w + length col)%nat /\
    (forall r, (r < length col)%nat ->
       exists ch,
         pending w' !! (nextHandle w + r)%nat
         = Some (timeout_task (now w) (Z.of_nat r * droplet_progression w)
                   (UpdateCell (c, r) ch))) /\
    (forall h, (h < nextHandle w)%nat ->
       pending w' !! h = pending w !! h \/ pending w' !! h = None) /\
    (forall h, (nextHandle w + length col <= h)%nat -> pending w' !! h = pending w !! h) /\
    (0 < droplet_progression w ->
     forall r1 r2 t1 t2,
       (r1 < r2 < length col)%nat ->
       pending w' !! (nextHandle w + r1)%nat = Some t1 ->
       pending w' !! (nextHandle w + r2)%nat = Some t2 ->
       t_delay t1 < t_delay t2).
Proof.
  intros Hcol HR Hold. rewrite createDroplet_run, (walk_top _ _ _ Hcol). simpl.
  destruct (droplet_loop_spec false charList (droplet_progression w)
              (column_cells c (length col)) 0 0 JNull
              (set_entropy (tl (entropy w)) w))
    as (w' & Hrun & Hnow & Htim & Hopt & Hnext & _ & Hcells & _ & _ & Hgone & Hkeep).
  { apply column_cells_NoDup. }
  { intros cell Hin. simpl. by eapply column_cells_in_grid. }
  { exact Hold. }
  simpl in *. unfold column_cells in Hnext. rewrite length_fmap, length_seq in Hnext.
  assert (forall r, (r < length col)%nat ->
            exists ch, pending w' !! (nextHandle w + r)%nat
                       = Some (timeout_task (now w) (Z.of_nat r * droplet_progression w)
                                 (UpdateCell (c, r) ch))) as Htasks.
  { intros r Hr. destruct (Hcells r (c, r)) as (ch & _ & Hp & _).
    - by apply column_cells_lookup.
    - exists ch. by rewrite Hp, Z.add_0_l. }
  exists w'. split; [done|]. split; [done|]. split; [apply random_of_between|].
  split.
  { intros Hu Hmin Hmax.
    pose proof (random_of_between (Options.minCharProgression (options w))
                  (Options.maxCharProgression (options w)) _ Hu) as [Hlo _].
    unfold droplet_progression. lia. }
  split; [done|]. split; [done|]. split; [|split].
  - intros h Hh.
    destruct (decide (Exists (fun cell =>
                Update.timer (cell_update (columns w) cell) = Some h)
                (column_cells c (length col)))) as [(cell&?&?)%Exists_exists|Hno].
    + right. by eapply Hgone.
    + left. apply Hkeep; [|by left].
      intros cell Hin Ht. apply Hno, Exists_exists. eauto.
  - intros h Hh. apply Hkeep.
    + intros cell Hin Ht. specialize (Hold cell h Hin Ht). lia.
    + right. unfold column_cells. rewrite length_fmap, length_seq. done.
  - intros Hp r1 r2 t1 t2 [H12 H2] E1 E2.
    destruct (Htasks r1) as [ch1 E1']; [lia|]. destruct (Htasks r2) as [ch2 E2']; [done|].
    rewrite E1' in E1. rewrite E2' in E2. injection E1 as <-. injection E2 as <-.
    simpl. nia.
Qed.

Lemma createDroplet_schedules_column_witness :
  columns world_2x3 !! 1%nat = Some (replicate 3 new_cell) /\
  (1 <= length (replicate 3 new_cell))%nat /\
  handles_issued world_2x3 (column_cells 1 (length (replicate 3 new_cell))) /\
  exists w',
    createDroplet (1%nat, 0%nat) {| d_clearScreen := false; d_charList := [] |} world_2x3
    = Ok tt w' /\
    nextHandle w' = 4%nat /\
    exists ch, pending w' !! 3%nat
               = Some (timeout_task 0 (2 * droplet_progression world_2x3)
                         (UpdateCell (1%nat, 2%nat) ch)).
Proof.
  split; [reflexivity|]. split; [simpl; lia|]. split; [apply handles_issued_initial|].
  destruct (createDroplet_schedules_column world_2x3 1 (replicate 3 new_cell) [])
    as (w' & Hrun & _ & _ & _ & Hnext & Htasks & _).
  - reflexivity.
  - simpl. lia.
  - apply handles_issued_initial.
  - exists w'. split; [exact Hrun|]. split; [exact Hnext|]. apply (Htasks 2%nat). simpl. lia.
Defined.

(** C1, as stated, fails: with both progression bounds configured to 0 the
    droplet's progression is 0, and the updates of rows 0 and 1 of a two-cell
    column are both scheduled with delay 0, which is not a strict increase. *)
Lemma createDroplet_delays_not_increasing :
  exists w' ch0 ch1,
    createDroplet (0%nat, 0%nat) {| d_clearScreen := false; d_charList := [] |}
      world_zero_progression = Ok tt w' /\
    pending w' !! 1%nat = Some (timeout_task 0 0 (UpdateCell (0%nat, 0%nat) ch0)) /\
    pending w' !! 2%nat = Some (timeout_task 0 0 (UpdateCell (0%nat, 1%nat) ch1)) /\
    ~ (t_delay (timeout_task 0 0 (UpdateCell (0%nat, 0%nat) ch0))
       < t_delay (timeout_task 0 0 (UpdateCell (0%nat, 1%nat) ch1))).
Proof.
  eexists _, _, _. split; [reflexivity|].
  split; [reflexivity|]. split; [reflexivity|]. simpl. lia.
Qed.

Lemma glyph_rule_avoids alphabet rnd cl i prev ch :
  glyph_rule alphabet rnd false cl i prev ch ->
  (forall s, js_index cl i <> JStr s) ->
  first_glyph_unique alphabet -> truthy prev = true ->
  ch <> prev.
Proof.
  unfold glyph_rule. intros Hg Hcl Huniq Htr.
  destruct (js_index cl i) as [| |s]; [| |by destruct (Hcl s)];
    destruct Hg as [n ->]; by apply getRandomChar_at_avoids.
Qed.

Lemma glyph_rule_tail alphabet u rnd cs cl i prev ch :
  glyph_rule alphabet rnd cs cl i prev ch ->
  glyph_rule alphabet (u :: rnd) cs cl i prev ch.
Proof.
  unfold glyph_rule. destruct cs; [done|].
  destruct (js_index cl i); [| |done]; intros [n ->]; by exists (S n).
Qed.

(** The states [createDroplet] leaves in the cells: in one pass over a
    column whose recorded timer ids are old, the cell in row [r] is scheduled
    with a glyph [ch] that follows [glyph_rule] relative to the glyph
    recorded for the cell above it ([null] for the top cell), so that a
    sampled glyph differs from a non-empty glyph above it when the first
    glyph of the alphabet is unique; the timer the cell recorded before is no
    longer pending; and the cell's update state holds the new timer id, the
    delay, the progression, [ch] as next glyph and [isUpdated = false]. *)
Theorem createDroplet_cell_states (w : World) (c : nat) (col : list Cell)
    (o : DropletOptions) :
  columns w !! c = Some col ->
  handles_issued w (column_cells c (length col)) ->
  exists w',
    createDroplet (c, 0%nat) o w = Ok tt w' /\
    forall r, (r < length col)%nat ->
      exists ch,
        glyph_rule (Options.alphabet (options w)) (entropy w)
          (d_clearScreen o) (d_charList o) r
          (match r with
           | O => JNull
           | S r' => Update.nextChar (cell_update (columns w') (c, r'))
           end) ch /\
        (d_clearScreen o = false ->
         (forall s, js_index (d_charList o) r <> JStr s) ->
         first_glyph_unique (Options.alphabet (options w)) ->
         forall r', r = S r' ->
           truthy (Update.nextChar (cell_update (columns w') (c, r'))) = true ->
           ch <> Update.nextChar (cell_update (columns w') (c, r'))) /\
        pending w' !! (nextHandle w + r)%nat
        = Some (timeout_task (now w) (Z.of_nat r * droplet_progression w)
                  (UpdateCell (c, r) ch)) /\
        (forall h, Update.timer (cell_update (columns w) (c, r)) = Some h ->
                   pending w' !! h = None) /\
        Update.timer (cell_update (columns w') (c, r)) = Some (nextHandle w + r)%nat /\
        Update.delay (cell_update (columns w') (c, r))
        = Some (Z.of_nat r * droplet_progression w) /\
        Update.progression (cell_update (columns w') (c, r))
        = Some (droplet_progression w) /\
        Update.nextChar (cell_update (columns w') (c, r)) = ch /\
        Update.isUpdated (cell_update (columns w') (c, r)) = false.
Proof.
  intros Hcol Hold. rewrite createDroplet_run, (walk_top _ _ _ Hcol).
  destruct (droplet_loop_spec (d_clearScreen o) (d_charList o) (droplet_progression w)
              (column_cells c (length col)) 0 0 JNull
              (set_entropy (tl (entropy w)) w))
    as (w' & Hrun & Hnow & Htim & Hopt & Hnext & _ & Hcells & _ & _ & Hgone & Hkeep).
  { apply column_cells_NoDup. }
  { intros cell Hin. simpl. by eapply column_cells_in_grid. }
  { exact Hold. }
  cbn [now options columns nextHandle entropy set_entropy pending timers] in *.
  exists w'. split; [done|]. intros r Hr.
  destruct (Hcells r (c, r)) as (ch & Hu & Hp & Hg); [by apply column_cells_lookup|].
  exists ch. rewrite Hu, Hp, Z.add_0_l. simpl.
  assert (glyph_rule (Options.alphabet (options w)) (entropy w) (d_clearScreen o)
            (d_charList o) r
            match r with
            | 0%nat => JNull
            | S r' => Update.nextChar (cell_update (columns w') (c, r'))
            end ch) as Hrule.
  { assert (glyph_rule (Options.alphabet (options w)) (entropy w) (d_clearScreen o)
              (d_charList o) r
              match r with
              | 0%nat => JNull
              | S k' => match column_cells c (length col) !! k' with
                        | Some c' => Update.nextChar (cell_update (columns w') c')
                        | None => JNull
                        end
              end ch) as Hg'.
    { destruct (entropy w) as [|u rnd]; [exact Hg|]. by apply glyph_rule_tail. }
    destruct r as [|r']; [exact Hg'|].
    assert (column_cells c (length col) !! r' = Some (c, r')) as E
        by (apply column_cells_lookup; split; [done|lia]).
    by rewrite E in Hg'. }
  split; [exact Hrule|]. split; [|split; [done|split; [|done]]].
  - intros Hcs Hcl Huniq r' -> Htr. rewrite Hcs in Hrule.
    by eapply glyph_rule_avoids.
  - intros h Ht. eapply Hgone; [|exact Ht]. apply column_cells_elem. done.
Qed.

Lemma createDroplet_cell_states_witness :
  columns world_2x3 !! 0%nat = Some (replicate 3 new_cell) /\
  handles_issued world_2x3 (column_cells 0 (length (replicate 3 new_cell))) /\
  exists w',
    createDroplet (0%nat, 0%nat)
      {| d_clearScreen := false; d_charList := [JStr "x"; JStr ""] |} world_2x3
    = Ok tt w' /\
    Update.nextChar (cell_update (columns w') (0%nat, 1%nat)) = JStr "" /\
    Update.isUpdated (cell_update (columns w') (0%nat, 1%nat)) = false.
Proof.
  split; [reflexivity|]. split; [apply handles_issued_initial|].
  destruct (createDroplet_cell_states world_2x3 0 (replicate 3 new_cell)
              {| d_clearScreen := false; d_charList := [JStr "x"; JStr ""] |})
    as (w' & Hrun & Hcells).
  - reflexivity.
  - apply handles_issued_initial.
  - exists w'. split; [exact Hrun|].
    destruct (Hcells 1%nat) as (ch & Hg & _ & _ & _ & _ & _ & _ & Hn & Hi); [simpl; lia|].
    split; [|exact Hi]. rewrite Hn. exact Hg.
Defined.

(** ** The engine never throws *)

Lemma safe_get_update c : safe (get_update c).
Proof. apply safe_gets. Qed.

Lemma safe_set_update c f : safe (set_update c f).
Proof. apply safe_modify. Qed.






Lemma safe_mainLoop o : safe (mainLoop o).
Proof.
  apply safe_bind; [apply safe_gets|]. intros cfg.
  apply safe_bind; [apply safe_gets|]. intros tops.
  apply safe_for_each. intros ic. destruct (bool_decide _); [apply safe_ret|].
  apply safe_bind; [apply safe_random|]. intros d.
  apply safe_bind; [apply safe_setTimeout|]. intros h. apply safe_set_update.
Qed.

Lemma safe_clear_cells cells :
  safe (for_each cells (fun cell => u <- get_update cell ;; clearTimeout (Update.timer u))).
Proof.
  apply safe_for_each. intros cell.
  apply safe_bind; [apply safe_get_update|]. intros. apply safe_clearTimeout.
Qed.

Lemma safe_stopFunction clearScreen : safe (stopFunction clearScreen).
Proof.
  apply safe_bind; [apply safe_gets|]. intros iv.
  apply safe_bind; [apply safe_clearTimeout|]. intros _.
  apply safe_bind; [apply safe_gets|]. intros cells.
  apply safe_bind; [apply safe_clear_cells|]. intros _.
  destruct clearScreen; [|apply safe_ret].
  apply safe_bind; [apply safe_gets|]. intros tops.
  apply safe_for_each. intros top.
  apply safe_bind; [apply safe_random|]. intros d.
  apply safe_bind; [apply safe_setTimeout|]. intros. apply safe_ret.
Qed.

Lemma safe_stop o : safe (_stop o).
Proof.
  apply safe_bind; [apply safe_gets|]. intros h.
  apply safe_bind; [apply safe_clearTimeout|]. intros _.
  destruct (0 <? _); [|apply safe_stopFunction].
  apply safe_bind; [apply safe_setTimeout|]. intros. apply safe_modify.
Qed.

Lemma safe_startFunction iv : safe (startFunction iv).
Proof.
  apply safe_bind; [apply safe_gets|]. intros h.
  apply safe_bind; [apply safe_clearTimeout|]. intros _.
  apply safe_bind; [apply safe_mainLoop|]. intros _.
  apply safe_bind; [apply safe_setInterval|]. intros. apply safe_modify.
Qed.

Lemma safe_start o : safe (_start o).
Proof.
  apply safe_bind; [apply safe_gets|]. intros cfg.
  apply safe_bind; [apply safe_gets|]. intros h.
  apply safe_bind; [apply safe_clearTimeout|]. intros _.
  apply safe_bind.
  - destruct (0 <? _); [|apply safe_startFunction].
    apply safe_bind; [apply safe_setTimeout|]. intros. apply safe_modify.
  - intros _. destruct (start_mainLoopDuration cfg o); [apply safe_stop | apply safe_ret].
Qed.



Lemma safe_pause o : safe (_pause o).
Proof.
  apply safe_bind; [apply safe_gets|]. intros h.
  apply safe_bind; [apply safe_clearTimeout|]. intros _.
  apply safe_bind; [apply safe_setTimeout|]. intros. apply safe_modify.
Qed.

Lemma safe_resume_loop cells : forall d, safe (resume_loop cells d).
Proof.
  induction cells as [|c rest IH]; intros d; simpl; [apply safe_ret|].
  apply safe_bind; [apply safe_get_update|]. intros u.
  apply safe_bind; [apply safe_gets|]. intros v.
  destruct (resume_skips v u); [apply IH|].
  apply safe_bind; [apply safe_setTimeout|]. intros h.
  apply safe_bind; [apply safe_set_update|]. intros _. apply IH.
Qed.

Lemma safe_resume_columns : safe resume_columns.
Proof.
  apply safe_bind; [apply safe_gets|]. intros cols.
  apply safe_for_each. intros top. apply safe_resume_loop.
Qed.

Lemma safe_resumeFunction onlyTop : safe (resumeFunction onlyTop).
Proof.
  apply safe_bind; [apply safe_start|]. intros _.
  destruct onlyTop; simpl; [apply safe_ret | apply safe_resume_columns].
Qed.

Lemma safe_resume o : safe (_resume o).
Proof.
  apply safe_bind; [apply safe_gets|]. intros h.
  apply safe_bind; [apply safe_clearTimeout|]. intros _.
  destruct (0 <? _); [|apply safe_resumeFunction].
  apply safe_bind; [apply safe_setTimeout|]. intros. apply safe_modify.
Qed.

(** ** Relations every step preserves *)

Section Preserves.
Variable R : World -> World -> Prop.
Hypothesis R_refl : forall w, R w w.
Hypothesis R_trans : forall w1 w2 w3, R w1 w2 -> R w2 w3 -> R w1 w3.

Lemma preserves_ret {A} (a : A) : preserves R (ret a).
Proof. intros w a' w' [= _ <-]. apply R_refl. Qed.

Lemma preserves_gets {A} (f : World -> A) : preserves R (gets f).
Proof. intros w a' w' [= _ <-]. apply R_refl. Qed.

Lemma preserves_bind {A B} (m : M A) (k : A -> M B) :
  preserves R m -> (forall a, preserves R (k a)) -> preserves R (bind m k).
Proof.
  intros Hm Hk w b w' E. unfold bind in E.
  destruct (m w) as [a w1|e] eqn:Em; [|done].
  eapply R_trans; [by eapply Hm | by eapply Hk].
Qed.

Lemma preserves_for_each {A} (xs : list A) (body : A -> M unit) :
  (forall x, preserves R (body x)) -> preserves R (for_each xs body).
Proof.
  intros Hb. induction xs as [|x xs IH]; simpl.
  - apply preserves_ret.
  - apply preserves_bind; [apply Hb | intros _; apply IH].
Qed.
End Preserves.

Lemma same_stored_refl w : same_stored w w.
Proof. by repeat split. Qed.

Lemma same_stored_trans w1 w2 w3 : same_stored w1 w2 -> same_stored w2 w3 -> same_stored w1 w3.
Proof.
  intros (Hn1 & Ho1 & Hc1) (Hn2 & Ho2 & Hc2). split; [congruence|]. split; [congruence|].
  intros cell. by rewrite Hc2, Hc1.
Qed.

Lemma stored_same_columns {A} (m : M A) :
  (forall w a w', m w = Ok a w' ->
                  now w' = now w /\ options w' = options w /\ columns w' = columns w) ->
  preserves same_stored m.
Proof.
  intros H w a w' E. destruct (H w a w' E) as (Hn & Ho & Hc).
  split; [done|]. split; [done|]. by rewrite Hc.
Qed.

Lemma stored_random from to : preserves same_stored (random from to).
Proof. apply stored_same_columns. by intros w a w' [= _ <-]. Qed.

Lemma stored_setTimeout a d : preserves same_stored (setTimeout a d).
Proof. apply stored_same_columns. by intros w a' w' [= _ <-]. Qed.

Lemma stored_setInterval a d : preserves same_stored (setInterval a d).
Proof. apply stored_same_columns. by intros w a' w' [= _ <-]. Qed.

Lemma stored_clearTimeout h : preserves same_stored (clearTimeout h).
Proof. apply stored_same_columns. by intros w a' w' [= _ <-]. Qed.

Lemma stored_modify_timers f : preserves same_stored (modify_timers f).
Proof. apply stored_same_columns. by intros w a' w' [= _ <-]. Qed.

Lemma stored_set_timer c h : preserves same_stored (set_update c (with_timer h)).
Proof.
  intros w a w' [= _ <-]. split; [done|]. split; [done|]. intros cell. simpl.
  destruct (decide (c = cell)) as [->|Hne].
  - rewrite lookup_cell_alter_eq. by destruct (lookup_cell (columns w) cell).
  - by rewrite lookup_cell_alter_ne.
Qed.

Ltac stored_step :=
  first [ apply stored_random | apply stored_setTimeout | apply stored_setInterval
        | apply stored_clearTimeout | apply stored_modify_timers
        | apply stored_set_timer
        | apply (preserves_ret same_stored same_stored_refl)
        | apply (preserves_gets same_stored same_stored_refl)
        | apply (preserves_for_each same_stored same_stored_refl same_stored_trans); intros ?
        | apply (preserves_bind same_stored same_stored_trans); [|intros ?] ].

Lemma stored_mainLoop o : preserves same_stored (mainLoop o).
Proof.
  unfold mainLoop. repeat stored_step.
  destruct (bool_decide _); repeat stored_step.
Qed.

Lemma stored_stopFunction clearScreen : preserves same_stored (stopFunction clearScreen).
Proof.
  unfold stopFunction, clearInterval, get_update. repeat stored_step.
  destruct clearScreen; repeat stored_step.
Qed.

Lemma stored_stop o : preserves same_stored (_stop o).
Proof.
  unfold _stop. repeat stored_step.
  destruct (0 <? _); [repeat stored_step | apply stored_stopFunction].
Qed.

Lemma stored_startFunction iv : preserves same_stored (startFunction iv).
Proof. unfold startFunction, clearInterval. repeat stored_step. Qed.

(** [_start] changes nothing that is stored in a cell except timer ids. *)
Lemma stored_start o : preserves same_stored (_start o).
Proof.
  unfold _start. repeat stored_step.
  - destruct (0 <? _); [repeat stored_step | apply stored_startFunction].
  - destruct (start_mainLoopDuration _ _); [apply stored_stop | repeat stored_step].
Qed.

(** ** Resume *)

Lemma resume_sum_ext v cols cols' cells :
  (forall c, c ∈ cells -> cell_update cols' c = cell_update cols c) ->
  resume_sum v cols' cells = resume_sum v cols cells.
Proof.
  induction cells as [|c rest IH]; intros Hext; simpl; [done|].
  rewrite Hext by (by left). rewrite IH; [done|]. intros c' Hc'. apply Hext. by right.
Qed.

Lemma resume_loop_skip c rest d w :
  resume_skips (Options.variant (options w)) (cell_update (columns w) c) = true ->
  resume_loop (c :: rest) d w = resume_loop rest d w.
Proof. intros E. simpl. unfold bind, get_update, gets. by rewrite E. Qed.

Lemma resume_loop_step c rest d w :
  resume_skips (Options.variant (options w)) (cell_update (columns w) c) = false ->
  exists w1,
    resume_loop (c :: rest) d w
    = resume_loop rest (d + default 0 (Update.progression (cell_update (columns w) c))) w1 /\
    now w1 = now w /\ timers w1 = timers w /\ options w1 = options w /\
    entropy w1 = entropy w /\
    nextHandle w1 = S (nextHandle w) /\
    pending w1 = <[nextHandle w :=
                     timeout_task (now w) d
                       (resume_action (Options.variant (options w)) c
                          (cell_update (columns w) c))]> (pending w) /\
    columns w1 = alter_cell
                   (fun cl => {| update := with_timer (Some (nextHandle w)) (update cl);
                                 innerText := innerText cl |})
                   c (columns w).
Proof.
  intros E. eexists. split.
  - simpl. unfold bind, get_update, gets. rewrite E. reflexivity.
  - done.
Qed.

(** The inner loop of [resumeFunction] over distinct cells of the grid: a
    cell that is skipped is left as it is; every other cell gets a new timer,
    recorded in the cell, whose delay is [d] plus the stored progressions of
    the rescheduled cells before it; nothing is cancelled, and every new
    timer belongs to a cell that was not skipped. *)
Lemma resume_loop_spec cells :
  forall d w,
    NoDup cells ->
    (forall c, c ∈ cells -> is_Some (lookup_cell (columns w) c)) ->
    exists w',
      resume_loop cells d w = Ok tt w' /\
      now w' = now w /\ timers w' = timers w /\ options w' = options w /\
      entropy w' = entropy w /\
      (nextHandle w <= nextHandle w')%nat /\
      (forall k c, cells !! k = Some c ->
         (resume_skips (Options.variant (options w)) (cell_update (columns w) c) = true ->
          lookup_cell (columns w') c = lookup_cell (columns w) c) /\
         (resume_skips (Options.variant (options w)) (cell_update (columns w) c) = false ->
          exists h,
            (nextHandle w <= h < nextHandle w')%nat /\
            cell_update (columns w') c = with_timer (Some h) (cell_update (columns w) c) /\
            pending w' !! h
            = Some (timeout_task (now w)
                      (d + resume_sum (Options.variant (options w)) (columns w)
                             (take k cells))
                      (resume_action (Options.variant (options w)) c
                         (cell_update (columns w) c))))) /\
      (forall c, c ∉ cells -> lookup_cell (columns w') c = lookup_cell (columns w) c) /\
      (forall c, is_Some (lookup_cell (columns w') c) <-> is_Some (lookup_cell (columns w) c)) /\
      (forall h, (h < nextHandle w \/ nextHandle w' <= h)%nat ->
                 pending w' !! h = pending w !! h) /\
      (forall h, (nextHandle w <= h < nextHandle w')%nat ->
         exists c, c ∈ cells /\
           resume_skips (Options.variant (options w)) (cell_update (columns w) c) = false /\
           Update.timer (cell_update (columns w') c) = Some h).
Proof.
  induction cells as [|c rest IH]; intros d w Hnd Hgrid.
  - exists w. simpl.
    split; [done|]. split; [done|]. split; [done|]. split; [done|]. split; [done|].
    split; [lia|]. split; [by intros k c Hk|]. split; [done|]. split; [done|].
    split; [done|]. intros h Hh. lia.
  - apply NoDup_cons in Hnd as [Hc Hnd].
    assert (is_Some (lookup_cell (columns w) c)) as Hcin by (apply Hgrid; by left).
    destruct (resume_skips (Options.variant (options w)) (cell_update (columns w) c)) eqn:Esk.
    + destruct (IH d w Hnd) as
        (w' & Hrun & Hnow & Htim & Hopt & Hent & Hnext & Hcells & Hframe & Hshape & Hkeep & Hnew).
      { intros c' Hc'. apply Hgrid. by right. }
      exists w'. rewrite (resume_loop_skip _ _ _ _ Esk).
      split; [done|]. split; [done|]. split; [done|]. split; [done|]. split; [done|].
      split; [done|]. split; [|split; [|split; [|split]]].
      * intros [|k] c' Hk; simpl in Hk.
        -- injection Hk as <-. split; [|congruence]. intros _. by apply Hframe.
        -- destruct (Hcells k c' Hk) as [Hs Hn]. split; [exact Hs|].
           intros E. destruct (Hn E) as (h & Hh & Hu & Hp). exists h.
           split; [done|]. split; [done|]. rewrite Hp. simpl. by rewrite Esk, Z.add_0_l.
      * intros c' [_ Hc']%not_elem_of_cons. by apply Hframe.
      * done.
      * done.
      * intros h Hh. destruct (Hnew h Hh) as (c' & Hc' & E & Ht).
        exists c'. split; [by right|done].
    + destruct (resume_loop_step c rest d w Esk)
        as (w1 & Hstep & Hnow1 & Htim1 & Hopt1 & Hent1 & Hnext1 & Hpend1 & Hcols1).
      assert (forall c', c' ∈ rest ->
                cell_update (columns w1) c' = cell_update (columns w) c') as Hsame.
      { intros c' Hc'. rewrite Hcols1. apply cell_update_alter_ne. by intros ->. }
      destruct (IH (d + default 0 (Update.progression (cell_update (columns w) c))) w1 Hnd)
        as (w' & Hrun & Hnow & Htim & Hopt & Hent & Hnext & Hcells & Hframe & Hshape
               & Hkeep & Hnew).
      { intros c' Hc'. rewrite Hcols1. apply lookup_cell_alter_is_Some, Hgrid. by right. }
      assert (cell_update (columns w') c
              = with_timer (Some (nextHandle w)) (cell_update (columns w) c)) as Hc0.
      { unfold cell_update at 1. rewrite (Hframe c Hc), Hcols1.
        apply cell_update_alter_eq, Hcin. }
      exists w'. rewrite Hstep, Hrun, Hnow, Htim, Hopt, Hent, Hnow1, Htim1, Hopt1, Hent1.
      split; [done|]. split; [done|]. split; [done|]. split; [done|]. split; [done|].
      split; [lia|]. split; [|split; [|split; [|split]]].
      * intros [|k] c' Hk; simpl in Hk.
        -- injection Hk as <-. split; [congruence|]. intros _. exists (nextHandle w).
           split; [lia|]. split; [exact Hc0|].
           rewrite Hkeep by lia. rewrite Hpend1, lookup_insert_eq. simpl.
           by rewrite Z.add_0_r.
        -- destruct (Hcells k c' Hk) as [Hs Hn].
           assert (c' ∈ rest) as Hin by (eapply list_elem_of_lookup_2; done).
           rewrite Hopt1, Hsame in Hs, Hn by done. split.
           ++ intros E. rewrite (Hs E), Hcols1. apply lookup_cell_alter_ne. by intros ->.
           ++ intros E. destruct (Hn E) as (h & Hh & Hu & Hp). exists h.
              split; [lia|]. split; [done|]. rewrite Hp, Hnow1. simpl. rewrite Esk.
              rewrite (resume_sum_ext _ (columns w) (columns w1)).
              ** do 2 f_equal. lia.
              ** intros c'' Hc''. apply Hsame. by eapply subseteq_take.
      * intros c' [Hne Hc']%not_elem_of_cons. rewrite Hframe by done. rewrite Hcols1.
        by apply lookup_cell_alter_ne.
      * intros c'. rewrite Hshape, Hcols1. apply lookup_cell_alter_is_Some.
      * intros h Hh. rewrite Hkeep by lia. rewrite Hpend1. apply lookup_insert_ne. lia.
      * intros h Hh. destruct (decide (h = nextHandle w)) as [->|Hne].
        -- exists c. split; [by left|]. split; [done|]. by rewrite Hc0.
        -- destruct (Hnew h) as (c' & Hc' & E & Ht); [lia|].
           exists c'. split; [by right|]. rewrite Hopt1, Hsame in E by done. done.
Qed.

(** ** The derived collections of the grid *)

Lemma walk_rows cols c : walk cols (c, 0%nat) = column_cells c (rows cols c).
Proof.
  unfold rows. destruct (cols !! c) as [col|] eqn:E.
  - by apply walk_top.
  - unfold walk, lookup_cell. simpl. by rewrite E.
Qed.

Lemma in_grid_rows cols c r :
  is_Some (lookup_cell cols (c, r)) <-> (r < rows cols c)%nat.
Proof.
  unfold lookup_cell, rows. simpl. destruct (cols !! c) as [col|]; simpl.
  - apply lookup_lt_is_Some.
  - split; [by intros [? ?]|lia].
Qed.

Lemma rows_shape cols cols' :
  (forall cell, is_Some (lookup_cell cols' cell) <-> is_Some (lookup_cell cols cell)) ->
  forall c, rows cols' c = rows cols c.
Proof.
  intros Hshape c.
  assert (forall r, (r < rows cols' c)%nat <-> (r < rows cols c)%nat) as H.
  { intros r. rewrite <- !in_grid_rows. apply Hshape. }
  destruct (Nat.lt_trichotomy (rows cols' c) (rows cols c)) as [Hlt|[Heq|Hgt]]; [|done|].
  - apply H in Hlt. lia.
  - apply H in Hgt. lia.
Qed.

Lemma take_column_cells c n k : (k <= n)%nat -> take k (column_cells c n) = column_cells c k.
Proof.
  intros Hk. unfold column_cells. rewrite <- fmap_take. f_equal.
  apply list_eq. intros i. destruct (decide (i < k)%nat).
  - rewrite lookup_take_lt by done. rewrite !lookup_seq_lt by lia. done.
  - rewrite lookup_take_ge by lia. by rewrite lookup_seq_ge by lia.
Qed.

Lemma cells_from_elem cols : forall k cell,
  cell ∈ cells_from k cols <->
  (k <= cell.1)%nat /\ is_Some (lookup_cell cols (cell.1 - k, cell.2)%nat).
Proof.
  induction cols as [|col rest IH]; intros k [c r]; simpl.
  - split; [by intros ?%elem_of_nil|]. intros [_ [x Hx]]. done.
  - rewrite elem_of_app, column_cells_elem, IH. simpl. unfold lookup_cell. simpl.
    destruct (decide (c = k)) as [->|Hne].
    + rewrite Nat.sub_diag. simpl. rewrite lookup_lt_is_Some. split; [|intros [_ ?]; by left].
      intros [[_ ?]|[? _]]; [done|lia].
    + split.
      * intros [[? _]|[Hle Hin]]; [done|]. split; [lia|].
        replace (c - k)%nat with (S (c - S k)) by lia. done.
      * intros [Hle Hin]. right. split; [lia|].
        replace (c - k)%nat with (S (c - S k)) in Hin by lia. done.
Qed.

(** [monitor.cells] holds exactly the cells of the grid. *)
Lemma monitor_cells_elem cols cell :
  cell ∈ monitor_cells cols <-> is_Some (lookup_cell cols cell).
Proof.
  unfold monitor_cells. rewrite cells_from_elem. rewrite Nat.sub_0_r.
  destruct cell. simpl. split; [by intros [_ ?]|]. intros ?. split; [lia|done].
Qed.

Lemma topCells_from_elem cols : forall k cell,
  cell ∈ topCells_from k cols <->
  (k <= cell.1)%nat /\ cell.2 = 0%nat /\ is_Some (lookup_cell cols (cell.1 - k, 0)%nat).
Proof.
  induction cols as [|col rest IH]; intros k [c r]; simpl.
  - split; [by intros ?%elem_of_nil|]. intros (_ & _ & [x Hx]). done.
  - assert ((c, r) ∈ topCells_from (S k) rest <->
            (k <= c)%nat /\ c <> k /\ r = 0%nat /\
            is_Some (lookup_cell (col :: rest) (c - k, 0)%nat)) as Hrest.
    { rewrite IH. simpl. unfold lookup_cell. simpl. split.
      - intros (Hle & -> & Hin). split; [lia|]. split; [lia|]. split; [done|].
        replace (c - k)%nat with (S (c - S k)) by lia. done.
      - intros (Hle & Hne & -> & Hin). split; [lia|]. split; [done|].
        replace (c - k)%nat with (S (c - S k)) in Hin by lia. done. }
    destruct col as [|cl col].
    + rewrite Hrest. split; [naive_solver|]. intros (Hle & -> & Hin).
      split; [done|]. split; [|done]. intros ->. rewrite Nat.sub_diag in Hin.
      unfold lookup_cell in Hin. simpl in Hin. by destruct Hin.
    + rewrite elem_of_cons, Hrest. split.
      * intros [[= -> ->]|?]; [|naive_solver]. split; [done|]. split; [done|].
        rewrite Nat.sub_diag. unfold lookup_cell. simpl. done.
      * intros (Hle & -> & Hin). destruct (decide (c = k)) as [->|Hne]; [by left|].
        right. done.
Qed.

(** [monitor.topCells] holds exactly the row-0 cells of the grid. *)
Lemma monitor_topCells_elem cols cell :
  cell ∈ monitor_topCells cols <-> cell.2 = 0%nat /\ is_Some (lookup_cell cols cell).
Proof.
  unfold monitor_topCells. rewrite topCells_from_elem. rewrite Nat.sub_0_r.
  destruct cell as [c r]. simpl. split.
  - intros (_ & -> & ?). done.
  - intros [-> ?]. split; [lia|done].
Qed.

Lemma topCells_from_NoDup cols : forall k, NoDup (topCells_from k cols).
Proof.
  induction cols as [|col rest IH]; intros k; simpl; [apply NoDup_nil_2|].
  destruct col; [apply IH|]. apply NoDup_cons_2; [|apply IH].
  rewrite topCells_from_elem. simpl. lia.
Qed.

Lemma monitor_topCells_NoDup cols : NoDup (monitor_topCells cols).
Proof. apply topCells_from_NoDup. Qed.

(** The outer loop of [resumeFunction], over top cells of distinct columns,
    with the walks taken on the grid [cols0] the loop started from. *)
Lemma resume_tops_spec cols0 tops :
  forall w,
    NoDup tops ->
    (forall top, top ∈ tops -> top.2 = 0%nat) ->
    (forall c, rows (columns w) c = rows cols0 c) ->
    exists w',
      for_each tops (fun topCell => resume_loop (walk cols0 topCell) 0) w = Ok tt w' /\
      now w' = now w /\ timers w' = timers w /\ options w' = options w /\
      entropy w' = entropy w /\
      (nextHandle w <= nextHandle w')%nat /\
      (forall c, rows (columns w') c = rows cols0 c) /\
      (forall c r, (c, 0%nat) ∈ tops -> (r < rows cols0 c)%nat ->
         (resume_skips (Options.variant (options w)) (cell_update (columns w) (c, r)) = true ->
          lookup_cell (columns w') (c, r) = lookup_cell (columns w) (c, r)) /\
         (resume_skips (Options.variant (options w)) (cell_update (columns w) (c, r)) = false ->
          exists h,
            (nextHandle w <= h < nextHandle w')%nat /\
            cell_update (columns w') (c, r)
            = with_timer (Some h) (cell_update (columns w) (c, r)) /\
            pending w' !! h
            = Some (timeout_task (now w)
                      (resume_delay (Options.variant (options w)) (columns w) c r)
                      (resume_action (Options.variant (options w)) (c, r)
                         (cell_update (columns w) (c, r)))))) /\
      (forall cell, (cell.1, 0%nat) ∉ tops ->
                    lookup_cell (columns w') cell = lookup_cell (columns w) cell) /\
      (forall h, (h < nextHandle w \/ nextHandle w' <= h)%nat ->
                 pending w' !! h = pending w !! h) /\
      (forall h, (nextHandle w <= h < nextHandle w')%nat ->
         exists cell,
           is_Some (lookup_cell (columns w) cell) /\
           resume_skips (Options.variant (options w)) (cell_update (columns w) cell) = false /\
           Update.timer (cell_update (columns w') cell) = Some h).
Proof.
  induction tops as [|top rest IH]; intros w Hnd Htop Hrows.
  - exists w. simpl.
    split; [done|]. split; [done|]. split; [done|]. split; [done|]. split; [done|].
    split; [lia|]. split; [done|]. split; [by intros c r ?%elem_of_nil|].
    split; [done|]. split; [done|]. intros h Hh. lia.
  - apply NoDup_cons in Hnd as [Hfresh Hnd]. destruct top as [c r0].
    assert (r0 = 0%nat) as -> by (apply (Htop (c, r0)); by left).
    destruct (resume_loop_spec (column_cells c (rows cols0 c)) 0 w)
      as (w1 & Hrun1 & Hnow1 & Htim1 & Hopt1 & Hent1 & Hnext1 & Hcells1 & Hframe1 & Hshape1
             & Hkeep1 & Hnew1).
    { apply column_cells_NoDup. }
    { intros [c' r'] [Hc Hr]%column_cells_elem. simpl in *. subst c'.
      apply in_grid_rows. by rewrite Hrows. }
    destruct (IH w1) as
      (w' & Hrun & Hnow & Htim & Hopt & Hent & Hnext & Hrows' & Hcells & Hframe & Hkeep & Hnew).
    { done. }
    { intros top Hin. apply Htop. by right. }
    { intros c'. rewrite (rows_shape _ _ Hshape1). apply Hrows. }
    assert (forall cell, cell.1 <> c ->
              lookup_cell (columns w1) cell = lookup_cell (columns w) cell) as Hother.
    { intros cell Hne. apply Hframe1. rewrite column_cells_elem. naive_solver. }
    exists w'. simpl. unfold bind. rewrite walk_rows, Hrun1, Hrun.
    rewrite Hnow, Htim, Hopt, Hent, Hnow1, Htim1, Hopt1, Hent1.
    split; [done|]. split; [done|]. split; [done|]. split; [done|]. split; [done|].
    split; [lia|]. split; [done|]. split; [|split; [|split]].
    + intros c' r [[= ->]|Hin]%elem_of_cons Hr.
      * assert (column_cells c (rows cols0 c) !! r = Some (c, r)) as Hk
            by (by apply column_cells_lookup).
        destruct (Hcells1 r (c, r) Hk) as [Hs Hn].
        assert (lookup_cell (columns w') (c, r) = lookup_cell (columns w1) (c, r)) as Hsame
            by (by apply Hframe).
        split.
        -- intros E. by rewrite Hsame, Hs.
        -- intros E. destruct (Hn E) as (h & Hh & Hu & Hp). exists h.
           split; [lia|]. split.
           ++ unfold cell_update at 1. rewrite Hsame. exact Hu.
           ++ rewrite Hkeep by lia. rewrite Hp. unfold resume_delay.
              rewrite take_column_cells by lia. by rewrite Z.add_0_l.
      * assert (c' <> c) as Hne by (intros ->; done).
        assert (forall r', cell_update (columns w1) (c', r') = cell_update (columns w) (c', r'))
          as Hcu by (intros r'; unfold cell_update; by rewrite Hother).
        destruct (Hcells c' r Hin Hr) as [Hs Hn]. rewrite Hopt1, Hcu in Hs, Hn.
        split.
        -- intros E. by rewrite (Hs E), Hother.
        -- intros E. destruct (Hn E) as (h & Hh & Hu & Hp). exists h.
           split; [lia|]. split; [done|]. rewrite Hp, Hnow1. unfold resume_delay.
           rewrite (resume_sum_ext _ (columns w) (columns w1)); [done|].
           intros [c'' r''] [Hc'' _]%column_cells_elem. simpl in Hc''. subst c''. apply Hcu.
    + intros cell [Hne Hnin]%not_elem_of_cons. rewrite Hframe by done.
      apply Hother. congruence.
    + intros h Hh. rewrite Hkeep by lia. apply Hkeep1. lia.
    + intros h Hh. destruct (decide (h < nextHandle w1)%nat) as [Hlt|Hge].
      * destruct (Hnew1 h) as (cell & Hin & E & Ht); [lia|].
        destruct cell as [c' r']. apply column_cells_elem in Hin as [Hc Hr]. simpl in *.
        subst c'. exists (c, r'). split; [apply in_grid_rows; by rewrite Hrows|].
        split; [done|]. unfold cell_update. rewrite Hframe by done. exact Ht.
      * destruct (Hnew h) as (cell & Hin & E & Ht); [lia|].
        exists cell. split; [by apply Hshape1|]. split; [|done].
        rewrite Hopt1 in E.
        destruct (decide (cell.1 = c)) as [Hc|Hne].
        -- destruct cell as [c' r']. simpl in Hc. subst c'.
           assert (column_cells c (rows cols0 c) !! r' = Some (c, r')) as Hk.
           { apply column_cells_lookup. split; [done|]. rewrite <- Hrows.
             apply in_grid_rows. by apply Hshape1. }
           destruct (Hcells1 r' (c, r') Hk) as [Hs Hn].
           destruct (resume_skips (Options.variant (options w))
                       (cell_update (columns w) (c, r'))) eqn:E0; [|done].
           unfold cell_update in E. rewrite (Hs eq_refl) in E.
           unfold cell_update in E0. congruence.
        -- unfold cell_update in *. by rewrite Hother in E.
Qed.

Lemma resume_skips_isUpdated v u : Update.isUpdated u = true -> resume_skips v u = true.
Proof. intros E. unfold resume_skips. by rewrite E. Qed.



(** ** Pause *)

Lemma cancel_cells_gone cols cells : forall p c h,
  c ∈ cells -> Update.timer (cell_update cols c) = Some h ->
  cancel_cells cols cells p !! h = None.
Proof.
  induction cells as [|c0 rest IH] using rev_ind; intros p c h Hin Ht.
  - by apply elem_of_nil in Hin.
  - unfold cancel_cells in *. rewrite foldl_app. simpl.
    apply elem_of_app in Hin as [Hin|Hin%list_elem_of_singleton].
    + apply lookup_cancel_None. by eapply IH.
    + subst c0. rewrite Ht. apply lookup_cancel_eq.
Qed.

Lemma cancel_cells_keep cols cells : forall p h,
  (forall c, c ∈ cells -> Update.timer (cell_update cols c) <> Some h) ->
  cancel_cells cols cells p !! h = p !! h.
Proof.
  induction cells as [|c0 rest IH]; intros p h Hno; simpl; [done|].
  unfold cancel_cells in *. simpl. rewrite IH.
  - apply lookup_cancel_ne, Hno. by left.
  - intros c Hc. apply Hno. by right.
Qed.

Lemma cancel_cells_None cols cells : forall p h,
  p !! h = None -> cancel_cells cols cells p !! h = None.
Proof.
  induction cells as [|c0 rest IH]; intros p h Hp; simpl; [done|].
  unfold cancel_cells in *. simpl. apply IH. by apply lookup_cancel_None.
Qed.

(** The loop [for (const cell of cells) clearTimeout(cell.update.timer)]. *)
Lemma clear_cells_run cells w :
  for_each cells (fun cell => u <- get_update cell ;; clearTimeout (Update.timer u)) w
  = Ok tt (set_pending (cancel_cells (columns w) cells (pending w)) (nextHandle w) w)
  \/ cells = [] /\
     for_each cells (fun cell => u <- get_update cell ;; clearTimeout (Update.timer u)) w
     = Ok tt w.
Proof.
  destruct cells as [|c0 rest]; [by right|]. left.
  revert w. generalize c0. clear c0.
  induction rest as [|c1 rest IH]; intros c0 w.
  - reflexivity.
  - change (for_each (c0 :: c1 :: rest) _ w)
      with (for_each (c1 :: rest)
              (fun cell => u <- get_update cell ;; clearTimeout (Update.timer u))
              (set_pending (cancel (Update.timer (cell_update (columns w) c0)) (pending w))
                           (nextHandle w) w)).
    rewrite IH. reflexivity.
Qed.

Lemma clear_cells_spec cells w :
  exists w',
    for_each cells (fun cell => u <- get_update cell ;; clearTimeout (Update.timer u)) w
    = Ok tt w' /\
    now w' = now w /\ nextHandle w' = nextHandle w /\ entropy w' = entropy w /\
    columns w' = columns w /\ timers w' = timers w /\ options w' = options w /\
    pending w' = cancel_cells (columns w) cells (pending w).
Proof.
  destruct (clear_cells_run cells w) as [E|[-> E]]; rewrite E; eexists; by repeat split.
Qed.

(** The staggered loop of [pauseFunction]: cell number [k] gets a timer with
    id [nextHandle + k] that clears the timer the cell records now, after a
    delay drawn from random number [k] of the stream. *)
Lemma stagger_spec mn mx cells : forall w,
  exists w',
    for_each cells
      (fun cell =>
         cellDelay <- random (inject_Z mn) (inject_Z mx) ;;
         u <- get_update cell ;;
         setTimeout (ClearTimer (Update.timer u)) cellDelay ;;
         ret tt) w = Ok tt w' /\
    now w' = now w /\ nextHandle w' = (nextHandle w + length cells)%nat /\
    entropy w' = drop (length cells) (entropy w) /\
    columns w' = columns w /\ timers w' = timers w /\ options w' = options w /\
    (forall k cell, cells !! k = Some cell ->
       pending w' !! (nextHandle w + k)%nat
       = Some (timeout_task (now w)
                 (random_of (inject_Z mn) (inject_Z mx) (hd 0%Q (drop k (entropy w))))
                 (ClearTimer (Update.timer (cell_update (columns w) cell))))) /\
    (forall h, (h < nextHandle w)%nat -> pending w' !! h = pending w !! h).
Proof.
  induction cells as [|c rest IH]; intros w.
  - exists w. simpl. repeat split; try done; lia.
  - pose (w1 := set_pending
                  (<[nextHandle w :=
                       timeout_task (now w)
                         (random_of (inject_Z mn) (inject_Z mx) (hd 0%Q (entropy w)))
                         (ClearTimer (Update.timer (cell_update (columns w) c)))]>
                     (pending w))
                  (S (nextHandle w)) (set_entropy (tl (entropy w)) w)).
    destruct (IH w1) as (w' & Hrun & Hnow & Hnext & Hent & Hcols & Htim & Hopt & Htasks & Hkeep).
    exists w'. split; [exact Hrun|]. rewrite Hnow, Hnext, Hent, Hcols, Htim, Hopt. simpl.
    split; [done|]. split; [lia|].
    split; [destruct (entropy w); simpl; [by rewrite drop_nil|done]|].
    split; [done|]. split; [done|]. split; [done|]. split.
    + intros [|k] cell Hk; simpl in Hk.
      * injection Hk as <-. rewrite Hkeep by (simpl; lia). simpl.
        rewrite Nat.add_0_r. apply lookup_insert_eq.
      * replace (nextHandle w + S k)%nat with (nextHandle w1 + k)%nat by (simpl; lia).
        rewrite (Htasks k cell Hk). simpl.
        destruct (entropy w); simpl; [by rewrite drop_nil|done].
    + intros h Hh. rewrite Hkeep by (simpl; lia). simpl. apply lookup_insert_ne. lia.
Qed.

Lemma pauseFunction_run onlyTop atOnce mn mx w :
  pauseFunction onlyTop atOnce mn mx w
  = (if atOnce then pauseAtOnce onlyTop
     else
       cells <- gets (fun w => cellsToPause onlyTop (columns w)) ;;
       for_each cells
         (fun cell =>
            cellDelay <- random (inject_Z mn) (inject_Z mx) ;;
            u <- get_update cell ;;
            setTimeout (ClearTimer (Update.timer u)) cellDelay ;;
            ret tt) ;;
       setTimeout (PauseAtOnce onlyTop) mx ;;
       ret tt)
      (set_pending (cancel (Timers.mainLoopInterval (timers w)) (pending w))
                   (nextHandle w) w).
Proof. reflexivity. Qed.

Lemma pauseAtOnce_spec onlyTop w :
  exists w',
    pauseAtOnce onlyTop w = Ok tt w' /\
    now w' = now w /\ nextHandle w' = nextHandle w /\ entropy w' = entropy w /\
    columns w' = columns w /\ timers w' = timers w /\ options w' = options w /\
    pending w' = cancel_cells (columns w) (cellsToPause onlyTop (columns w)) (pending w).
Proof. apply clear_cells_spec. Qed.

(** Pause and the timers the grid records.  [_pause] replaces its own
    pending timer by one that runs [pauseFunction] after [delay].  Whenever that function runs, in whatever
    world, the timer recorded as the recurring cycle is no longer pending
    afterwards, and, with [allAtOnce], neither is the timer recorded in any
    targeted cell, no timer is added, and, if every pending update is the one
    its cell records, no pending update names a targeted cell; without
    [allAtOnce], targeted cell number [k] gets a timer that clears the cell's
    recorded timer after a delay drawn from random number [k] (between the
    two bounds when they are in order), and one more timer runs the sweep
    [pauseAtOnce] after [maxPauseDelay]; when a clearing timer runs, the timer
    it names is no longer pending, and when the sweep runs no timer recorded
    in a targeted cell is.  The targeted cells are the row-0 cells of the
    grid with [onlyTopCells], every cell of the grid otherwise. *)
Theorem pause_cancels_targets (o : PauseOptions) (w : World) :
  let delay := default 0 (po_delay o) in
  let onlyTop := default false (po_onlyTopCells o) in
  let atOnce := default false (po_allAtOnce o) in
  let mn := default 0 (po_minPauseDelay o) in
  let mx := default 1000 (po_maxPauseDelay o) in
  (exists w1,
     _pause o w = Ok tt w1 /\
     Timers.pause (timers w1) = Some (nextHandle w) /\
     pending w1 !! nextHandle w
     = Some (timeout_task (now w) delay (PauseFunction onlyTop atOnce mn mx)) /\
     (forall h, Timers.pause (timers w) = Some h -> h <> nextHandle w ->
                pending w1 !! h = None)) /\
  (forall wb, exists w2,
     exec (PauseFunction onlyTop atOnce mn mx) wb = Ok tt w2 /\
     columns w2 = columns wb /\
     if atOnce then
       nextHandle w2 = nextHandle wb /\
       (forall h, Timers.mainLoopInterval (timers wb) = Some h -> pending w2 !! h = None) /\
       (forall cell h, cell ∈ cellsToPause onlyTop (columns wb) ->
                       Update.timer (cell_update (columns wb) cell) = Some h ->
                       pending w2 !! h = None) /\
       (forall h, pending wb !! h = None -> pending w2 !! h = None) /\
       (updates_tracked wb ->
        forall h t cell ch, cell ∈ cellsToPause onlyTop (columns wb) ->
                            pending w2 !! h = Some t -> t_action t <> UpdateCell cell ch)
     else
       (forall h, Timers.mainLoopInterval (timers wb) = Some h -> (h < nextHandle wb)%nat ->
                  pending w2 !! h = None) /\
       (forall k cell, cellsToPause onlyTop (columns wb) !! k = Some cell ->
          pending w2 !! (nextHandle wb + k)%nat
          = Some (timeout_task (now wb)
                    (random_of (inject_Z mn) (inject_Z mx) (hd 0%Q (drop k (entropy wb))))
                    (ClearTimer (Update.timer (cell_update (columns wb) cell)))) /\
          (unit_interval (hd 0%Q (drop k (entropy wb))) -> mn <= mx ->
           mn <= random_of (inject_Z mn) (inject_Z mx) (hd 0%Q (drop k (entropy wb)))
           <= mx)) /\
       pending w2 !! (nextHandle wb + length (cellsToPause onlyTop (columns wb)))%nat
       = Some (timeout_task (now wb) mx (PauseAtOnce onlyTop))) /\
  (forall ws h, exists w3,
     exec (ClearTimer h) ws = Ok tt w3 /\
     forall i, h = Some i -> pending w3 !! i = None) /\
  (forall ws, exists w3,
     exec (PauseAtOnce onlyTop) ws = Ok tt w3 /\
     forall cell h, cell ∈ cellsToPause onlyTop (columns ws) ->
                    Update.timer (cell_update (columns ws) cell) = Some h ->
                    pending w3 !! h = None) /\
  (forall cols cell,
     (cell ∈ cellsToPause true cols <-> cell.2 = 0%nat /\ is_Some (lookup_cell cols cell)) /\
     (cell ∈ cellsToPause false cols <-> is_Some (lookup_cell cols cell))).
Proof.
  intros delay onlyTop atOnce mn mx.
  split; [|split; [|split; [|split]]].
  - eexists. split; [reflexivity|]. simpl. split; [done|].
    split; [apply lookup_insert_eq|].
    intros h Hh Hne. rewrite lookup_insert_ne by done. rewrite Hh. apply lookup_cancel_eq.
  - intros wb. simpl. rewrite pauseFunction_run.
    set (wc := set_pending _ _ wb).
    assert (forall h, Timers.mainLoopInterval (timers wb) = Some h -> pending wc !! h = None)
      as Hiv by (intros h Hh; unfold wc; simpl; rewrite Hh; apply lookup_cancel_eq).
    destruct atOnce.
    + destruct (pauseAtOnce_spec onlyTop wc)
        as (w2 & Hrun & Hnow & Hnext & Hent & Hcols & Htim & Hopt & Hpend).
      exists w2. split; [done|]. split; [done|]. split; [done|]. rewrite Hpend.
      split; [|split; [|split]].
      * intros h Hh. by apply cancel_cells_None, Hiv.
      * intros cell h Hin Ht. by eapply cancel_cells_gone.
      * intros h Hh. apply cancel_cells_None. simpl. by apply lookup_cancel_None.
      * intros Htr h t cell ch Hin Hp Hact.
        assert (pending wb !! h = Some t) as Hb.
        { destruct (pending wb !! h) as [t'|] eqn:E.
          - destruct (decide (Exists (fun c =>
                        Update.timer (cell_update (columns wb) c) = Some h)
                        (cellsToPause onlyTop (columns wb)))) as [(c&?&?)%Exists_exists|Hno].
            + rewrite (cancel_cells_gone _ _ _ c h) in Hp; done.
            + rewrite cancel_cells_keep in Hp.
              * simpl in Hp. destruct (Timers.mainLoopInterval (timers wb)) as [i|]; simpl in Hp.
                -- rewrite lookup_delete in Hp. case_decide; [done|congruence].
                -- congruence.
              * intros c Hc Ht. apply Hno, Exists_exists. eauto.
          - rewrite cancel_cells_None in Hp; [done|]. simpl. by apply lookup_cancel_None. }
        specialize (Htr h t cell ch Hb Hact).
        rewrite (cancel_cells_gone _ _ _ cell h) in Hp; done.
    + destruct (stagger_spec mn mx (cellsToPause onlyTop (columns wc)) wc)
        as (w' & Hrun & Hnow & Hnext & Hent & Hcols & Htim & Hopt & Htasks & Hkeep).
      erewrite (bind_Ok (gets _)); [|reflexivity].
      erewrite (bind_Ok (for_each _ _)); [|exact Hrun].
      change (nextHandle wc) with (nextHandle wb) in *.
      change (columns wc) with (columns wb) in *.
      change (now wc) with (now wb) in *.
      change (entropy wc) with (entropy wb) in *.
      eexists. split; [reflexivity|]. simpl.
      split; [done|]. split; [|split].
      * intros h Hh Hlt. rewrite lookup_insert_ne by lia. rewrite Hkeep by done. by apply Hiv.
      * intros k cell Hk. split; [|apply random_of_bounds].
        assert (k < length (cellsToPause onlyTop (columns wb)))%nat
          by (by eapply lookup_lt_Some).
        rewrite lookup_insert_ne by lia. by apply Htasks.
      * rewrite Hnow, Hnext. apply lookup_insert_eq.
  - intros ws h. eexists. split; [reflexivity|]. intros i ->. apply lookup_cancel_eq.
  - intros ws. destruct (pauseAtOnce_spec onlyTop ws)
      as (w3 & Hrun & _ & _ & _ & _ & _ & _ & Hpend).
    exists w3. split; [done|]. intros cell h Hin Ht. rewrite Hpend.
    by eapply cancel_cells_gone.
  - intros cols cell. split; [apply monitor_topCells_elem | apply monitor_cells_elem].
Qed.

(** The pause run by the host: in the middle of a cascade two cell updates
    and the recurring cycle are pending; after [pause({allAtOnce: true})] and
    its timer, no cell update and no cycle is. *)
Example pause_at_once_in_mid_cascade :
  (_start start_now ;; run 30 5300) world_2x3 = Ok tt world_mid_cascade /\
  is_update <$> (t_action <$> pending world_mid_cascade !! 11%nat) = Some true /\
  is_update <$> (t_action <$> pending world_mid_cascade !! 12%nat) = Some true /\
  Timers.mainLoopInterval (timers world_mid_cascade) = Some 3%nat /\
  t_period <$> pending world_mid_cascade !! 3%nat = Some (Some 10000) /\
  (_pause pause_at_once ;; run 30 5300) world_mid_cascade
  = Ok tt world_mid_cascade_paused /\
  pending world_mid_cascade_paused !! 3%nat = None /\
  map_Forall (fun _ t => is_update (t_action t) = false)
             (pending world_mid_cascade_paused).
Proof.
  split; [by vm_compute|]. split; [by vm_compute|]. split; [by vm_compute|].
  split; [by vm_compute|]. split; [by vm_compute|]. split; [by vm_compute|].
  split; [by vm_compute|].
  apply map_Forall_to_list. vm_compute. by repeat constructor.
Qed.

(** ** Start *)

(** [startFunction] calls the main loop once and installs the recurring
    cycle, recorded in [timers.mainLoopInterval]. *)
Lemma startFunction_installs iv w :
  exists w' hi,
    startFunction iv w = Ok tt w' /\
    now w' = now w /\
    Timers.mainLoopInterval (timers w') = Some hi /\
    pending w' !! hi = Some (interval_task (now w) iv (MainLoop mainLoop_defaults)).
Proof.
  unfold startFunction.
  erewrite (bind_Ok (gets _)); [|reflexivity].
  erewrite (bind_Ok (clearInterval _)); [|reflexivity].
  set (wc := set_pending _ _ w).
  destruct (safe_mainLoop mainLoop_defaults wc) as ([] & wm & Hm).
  destruct (stored_mainLoop _ _ _ _ Hm) as (Hnow & _ & _).
  erewrite (bind_Ok (mainLoop _)); [|exact Hm].
  eexists _, _. split; [reflexivity|]. simpl. split; [done|]. split; [done|].
  rewrite Hnow. apply lookup_insert_eq.
Qed.

(** C10.  (1) [_pause] changes no cell and, of the recorded timer ids, only
    [timers.pause]; it adds its own timer and leaves every old timer pending
    but the one recorded as [timers.pause].  (2) Whenever [pauseFunction]
    runs, no cell and no recorded timer id changes, and every old timer that
    is neither the recorded cycle nor recorded in a targeted cell stays as it
    is.  (3) The same holds when a staggered clearing timer runs, for every
    timer but the one it names, and when the sweep runs.  So a pending start
    timer [hs], recorded as [timers.start] and under no other role, is left
    pending by all of them; and (4) whenever it fires it leaves the table,
    the main loop runs and the recurring cycle is installed at the interval
    the start captured. *)
Theorem pause_keeps_pending_start (o : PauseOptions) (w : World) (hs : nat) (t : Task)
    (iv : Z) :
  pending w !! hs = Some t ->
  t_action t = StartFunction iv ->
  t_period t = None ->
  Timers.start (timers w) = Some hs ->
  Timers.pause (timers w) <> Some hs ->
  (hs < nextHandle w)%nat ->
  let onlyTop := default false (po_onlyTopCells o) in
  let atOnce := default false (po_allAtOnce o) in
  let mn := default 0 (po_minPauseDelay o) in
  let mx := default 1000 (po_maxPauseDelay o) in
  (exists w1,
     _pause o w = Ok tt w1 /\
     pending w1 !! hs = Some t /\
     columns w1 = columns w /\
     timers w1 = set_pause (Some (nextHandle w)) (timers w) /\
     pending w1 !! nextHandle w
     = Some (timeout_task (now w) (default 0 (po_delay o))
               (PauseFunction onlyTop atOnce mn mx)) /\
     (forall h, (h < nextHandle w)%nat -> Timers.pause (timers w) <> Some h ->
                pending w1 !! h = pending w !! h)) /\
  (forall wb, exists w2,
     exec (PauseFunction onlyTop atOnce mn mx) wb = Ok tt w2 /\
     columns w2 = columns wb /\ timers w2 = timers wb /\
     (forall h,
        (h < nextHandle wb)%nat ->
        Timers.mainLoopInterval (timers wb) <> Some h ->
        (forall cell, cell ∈ cellsToPause onlyTop (columns wb) ->
                      Update.timer (cell_update (columns wb) cell) <> Some h) ->
        pending w2 !! h = pending wb !! h)) /\
  (forall ws h', exists w3,
     exec (ClearTimer h') ws = Ok tt w3 /\
     columns w3 = columns ws /\ timers w3 = timers ws /\
     (forall h, h' <> Some h -> pending w3 !! h = pending ws !! h)) /\
  (forall ws, exists w3,
     exec (PauseAtOnce onlyTop) ws = Ok tt w3 /\
     columns w3 = columns ws /\ timers w3 = timers ws /\
     (forall h,
        (forall cell, cell ∈ cellsToPause onlyTop (columns ws) ->
                      Update.timer (cell_update (columns ws) cell) <> Some h) ->
        pending w3 !! h = pending ws !! h)) /\
  (forall wf,
     pending wf !! hs = Some t ->
     exists w4 hi,
       fire hs wf = Ok tt w4 /\
       Timers.mainLoopInterval (timers w4) = Some hi /\
       pending w4 !! hi
       = Some (interval_task (Z.max (now wf) (t_due t)) iv (MainLoop mainLoop_defaults))).
Proof.
  intros Hp Hact Hper Hstart Hpause Hold onlyTop atOnce mn mx.
  split; [|split; [|split; [|split]]].
  - eexists. split; [reflexivity|]. simpl.
    assert (forall h, (h < nextHandle w)%nat -> Timers.pause (timers w) <> Some h ->
              <[nextHandle w := timeout_task (now w) (default 0 (po_delay o))
                                  (PauseFunction onlyTop atOnce mn mx)]>
                (cancel (Timers.pause (timers w)) (pending w)) !! h = pending w !! h)
      as Hframe.
    { intros h Hh Hne. rewrite lookup_insert_ne by lia. by rewrite lookup_cancel_ne. }
    split; [by rewrite Hframe|].
    split; [done|]. split; [done|]. split; [apply lookup_insert_eq|exact Hframe].
  - intros wb. simpl. rewrite pauseFunction_run.
    set (wc := set_pending _ _ wb).
    destruct atOnce.
    + destruct (pauseAtOnce_spec onlyTop wc)
        as (w2 & Hrun & Hnow & Hnext & Hent & Hcols & Htim & Hopt & Hpend).
      exists w2. split; [done|]. split; [done|]. split; [done|].
      intros h Hh Hiv Hcells. rewrite Hpend, cancel_cells_keep by done.
      unfold wc. simpl. by rewrite lookup_cancel_ne.
    + destruct (stagger_spec mn mx (cellsToPause onlyTop (columns wc)) wc)
        as (w' & Hrun & Hnow & Hnext & Hent & Hcols & Htim & Hopt & Htasks & Hkeep).
      erewrite (bind_Ok (gets _)); [|reflexivity].
      erewrite (bind_Ok (for_each _ _)); [|exact Hrun].
      change (nextHandle wc) with (nextHandle wb) in *.
      eexists. split; [reflexivity|]. simpl. split; [done|]. split; [done|].
      intros h Hh Hiv Hcells. rewrite lookup_insert_ne by lia. rewrite Hkeep by done.
      unfold wc. simpl. by rewrite lookup_cancel_ne.
  - intros ws h'. eexists. split; [reflexivity|]. simpl.
    split; [done|]. split; [done|]. intros h Hne. by rewrite lookup_cancel_ne.
  - intros ws.
    destruct (pauseAtOnce_spec onlyTop ws)
      as (w3 & Hrun & Hnow & Hnext & Hent & Hcols & Htim & Hopt & Hpend).
    exists w3. split; [done|]. split; [done|]. split; [done|].
    intros h Hcells. rewrite Hpend. by rewrite cancel_cells_keep.
  - intros wf Hpf. unfold fire. rewrite Hpf, Hper, Hact. simpl.
    destruct (startFunction_installs iv
                {| now := Z.max (now wf) (t_due t); nextHandle := nextHandle wf;
                   pending := delete hs (pending wf); entropy := entropy wf;
                   columns := columns wf; timers := timers wf; options := options wf |})
      as (w4 & hi & Hrun & Hnow & Htim & Hpi).
    by exists w4, hi.
Qed.

Lemma pause_keeps_pending_start_witness :
  pending world_start_pending !! 1%nat = Some (timeout_task 0 3000 (StartFunction 10000)) /\
  t_action (timeout_task 0 3000 (StartFunction 10000)) = StartFunction 10000 /\
  t_period (timeout_task 0 3000 (StartFunction 10000)) = None /\
  Timers.start (timers world_start_pending) = Some 1%nat /\
  Timers.pause (timers world_start_pending) <> Some 1%nat /\
  (1 < nextHandle world_start_pending)%nat /\
  exists w1,
    _pause pause_at_once world_start_pending = Ok tt w1 /\
    pending w1 !! 1%nat = Some (timeout_task 0 3000 (StartFunction 10000)).
Proof.
  assert (pending world_start_pending !! 1%nat
          = Some (timeout_task 0 3000 (StartFunction 10000))) as H1 by reflexivity.
  assert (Timers.pause (timers world_start_pending) <> Some 1%nat) as H5
      by (vm_compute; discriminate).
  assert (1 < nextHandle world_start_pending)%nat as H6 by (vm_compute; lia).
  split; [exact H1|]. split; [reflexivity|]. split; [reflexivity|].
  split; [reflexivity|]. split; [exact H5|]. split; [exact H6|].
  destruct (pause_keeps_pending_start pause_at_once world_start_pending 1
              (timeout_task 0 3000 (StartFunction 10000)) 10000
              H1 eq_refl eq_refl eq_refl H5 H6) as [(w1 & Hrun & Hkeep & _) _].
  exists w1. split; [exact Hrun | exact Hkeep].
Defined.

(** The scenario of C10 run by the host: a start is pending with delay 3000;
    [pause({allAtOnce: true})] is called and completes at time 0; at time 3000
    the start fires all the same and the recurring cycle is installed. *)
Example pause_then_start_fires :
  (_pause pause_at_once ;; run 10 3000) world_start_pending
  = Ok tt world_after_pause_and_start /\
  now world_after_pause_and_start = 3000 /\
  pending world_after_pause_and_start !! 1%nat = None /\
  Timers.mainLoopInterval (timers world_after_pause_and_start) = Some 5%nat /\
  pending world_after_pause_and_start !! 5%nat
  = Some (interval_task 3000 10000 (MainLoop mainLoop_defaults)).
Proof. vm_compute. by repeat split. Qed.

(** What [_start] does with a delay and a duration that are set and not 0:
    a positive delay queues [startFunction], a negative one runs it at once;
    the stop is asked for [duration + delay] after the call. *)
Lemma start_run (o : StartOptions) (w : World) :
  _start o w
  = ((if 0 <? start_initialDelay (options w) o
      then h <- setTimeout (StartFunction (Options.mainLoopInterval (options w)))
                           (start_initialDelay (options w) o) ;;
           modify_timers (set_start (Some h))
      else startFunction (Options.mainLoopInterval (options w))) ;;
     match start_mainLoopDuration (options w) o with
     | Some d => _stop {| st_delay := Some (d + start_initialDelay (options w) o);
                          st_clearScreen := None |}
     | None => ret tt
     end)
      (set_pending (cancel (Timers.start (timers w)) (pending w)) (nextHandle w) w).
Proof. reflexivity. Qed.

Lemma start_delay_given (cfg : Options.t) (d : Z) (dur : option Z) :
  d <> 0 -> start_initialDelay cfg {| so_delay := Some d; so_duration := dur |} = d.
Proof. intros Hd. unfold start_initialDelay. simpl. by destruct (Z.eqb_spec d 0). Qed.

Lemma start_duration_given (cfg : Options.t) (d : option Z) (dur : Z) :
  dur <> 0 ->
  start_mainLoopDuration cfg {| so_delay := d; so_duration := Some dur |} = Some dur.
Proof. intros Hd. unfold start_mainLoopDuration. simpl. by destruct (Z.eqb_spec dur 0). Qed.

(** C4 at the failing input.  A delay of 0 and a duration of 0 are dropped by
    the truthiness tests [if (options.delay)] and [if (options.duration)]:
    [_start] then uses the configured delay and the configured duration.
    With the default configuration, [start({delay: 0})] runs nothing at once:
    it queues [startFunction] with delay 1000, hands out one timer id and
    installs no cycle; and [start({delay: -1, duration: 0})] asks for no stop
    although the duration is a number. *)
Theorem start_zero_delay_is_not_immediate (cfg : Options.t) (d dur : option Z) :
  start_initialDelay cfg {| so_delay := Some 0; so_duration := dur |}
  = Options.initialDelay cfg /\
  start_mainLoopDuration cfg {| so_delay := d; so_duration := Some 0 |}
  = Options.mainLoopDuration cfg /\
  _start {| so_delay := Some 0; so_duration := None |} world_2x3
  = Ok tt world_start_zero_delay /\
  nextHandle world_start_zero_delay = 2%nat /\
  Timers.start (timers world_start_zero_delay) = Some 1%nat /\
  pending world_start_zero_delay !! 1%nat
  = Some (timeout_task 0 1000 (StartFunction 10000)) /\
  Timers.mainLoopInterval (timers world_start_zero_delay) = None /\
  _start {| so_delay := Some (-1); so_duration := Some 0 |} world_2x3
  = Ok tt world_start_zero_duration /\
  Timers.stop (timers world_start_zero_duration) = None /\
  map_Forall (fun _ t => t_action t <> StopFunction false)
             (pending world_start_zero_duration).
Proof.
  split; [reflexivity|]. split; [reflexivity|].
  split; [by vm_compute|]. split; [by vm_compute|]. split; [by vm_compute|].
  split; [by vm_compute|]. split; [by vm_compute|]. split; [by vm_compute|].
  split; [by vm_compute|].
  apply map_Forall_to_list. vm_compute. repeat constructor; discriminate.
Qed.

(** ** The main loop cancels nothing *)

Lemma cancels_nothing_refl w : cancels_nothing w w.
Proof. by split. Qed.

Lemma cancels_nothing_trans w1 w2 w3 :
  cancels_nothing w1 w2 -> cancels_nothing w2 w3 -> cancels_nothing w1 w3.
Proof.
  intros [Hn1 Hp1] [Hn2 Hp2]. split; [lia|].
  intros h Hh. rewrite Hp2 by lia. by apply Hp1.
Qed.

Lemma mainLoop_cancels_nothing o : preserves cancels_nothing (mainLoop o).
Proof.
  unfold mainLoop.
  apply (preserves_bind _ cancels_nothing_trans);
    [apply (preserves_gets _ cancels_nothing_refl)|intros cfg].
  apply (preserves_bind _ cancels_nothing_trans);
    [apply (preserves_gets _ cancels_nothing_refl)|intros tops].
  apply (preserves_for_each _ cancels_nothing_refl cancels_nothing_trans). intros ic.
  destruct (bool_decide _); [apply (preserves_ret _ cancels_nothing_refl)|].
  intros w a w' [= _ <-]. split; simpl; [lia|].
  intros h Hh. apply lookup_insert_ne. lia.
Qed.

(** ** Image Compositor *)

Lemma new_Array_fill_ok n v w :
  0 <= n <= 4294967295 -> new_Array_fill n v w = Ok (replicate (Z.to_nat n) v) w.
Proof.
  intros [H0 H1]. unfold new_Array_fill.
  destruct (Z.ltb_spec n 0); [lia|]. destruct (Z.ltb_spec 4294967295 n); [lia|]. done.
Qed.

Lemma push_rows_ok n (row : M (list jsval)) r w :
  row w = Ok r w -> push_rows n row w = Ok (replicate n r) w.
Proof.
  intros Hr. induction n as [|n IH]; simpl; [done|].
  unfold bind. by rewrite Hr, IH.
Qed.

Lemma push_rows_zero (row : M (list jsval)) w : push_rows 0 row w = Ok [] w.
Proof. reflexivity. Qed.

Lemma map_M_ok {A B} (f : A -> M B) (g : A -> B) xs w :
  (forall x, x ∈ xs -> f x w = Ok (g x) w) -> map_M f xs w = Ok (g <$> xs) w.
Proof.
  induction xs as [|x xs IH]; intros Hf; simpl; [done|].
  unfold bind. rewrite Hf by (by left). rewrite IH; [done|].
  intros y Hy. apply Hf. by right.
Qed.

Lemma elem_length_ok e w : e <> ENull -> elem_length e w = Ok (elem_len e) w.
Proof. by destruct e. Qed.

Lemma elem_index_ok e j w : e <> ENull -> elem_index e j w = Ok (elem_glyph e j) w.
Proof. by destruct e. Qed.

Lemma padding_row_ok mL pL iw pR mR pc w :
  0 <= mL <= 4294967295 -> 0 <= pL + iw + pR <= 4294967295 -> 0 <= mR <= 4294967295 ->
  padding_row mL pL iw pR mR pc w
  = Ok (spec_pad_row (Z.to_nat mL) (Z.to_nat (pL + iw + pR)) (Z.to_nat mR) pc) w.
Proof.
  intros H1 H2 H3. unfold padding_row, bind.
  by rewrite !new_Array_fill_ok by done.
Qed.

Lemma image_row_ok mL pL iw pR mR pc e w :
  e <> ENull ->
  0 <= mL <= 4294967295 -> 0 <= pL <= 4294967295 ->
  0 <= pR <= 4294967295 -> 0 <= mR <= 4294967295 ->
  image_row mL pL iw pR mR pc e w
  = Ok (spec_image_row (Z.to_nat mL) (Z.to_nat pL) (Z.to_nat iw) (Z.to_nat pR)
          (Z.to_nat mR) pc e) w.
Proof.
  intros He H1 H2 H3 H4. unfold image_row, bind.
  rewrite !new_Array_fill_ok by done.
  rewrite (map_M_ok _ (fun j => js_or (elem_glyph e j) pc)).
  - by rewrite !new_Array_fill_ok by done.
  - intros j _. unfold bind. by rewrite elem_index_ok.
Qed.

Lemma foldl_max_ge_acc ns : forall m, m <= foldl Z.max m ns.
Proof.
  induction ns as [|k ns IH]; intros m; simpl; [lia|].
  etrans; [|apply IH]. lia.
Qed.

Lemma foldl_max_ge_elem ns : forall m n, n ∈ ns -> n <= foldl Z.max m ns.
Proof.
  induction ns as [|k ns IH]; intros m n Hin; simpl; [by apply elem_of_nil in Hin|].
  apply elem_of_cons in Hin as [->|Hin]; [|by apply IH].
  etrans; [|apply foldl_max_ge_acc]. lia.
Qed.

Lemma Math_max_ge ns n : n ∈ ns -> n <= Math_max ns.
Proof.
  destruct ns as [|m ns]; [by intros ?%elem_of_nil|]. simpl.
  intros [->|Hin]%elem_of_cons; [apply foldl_max_ge_acc | by apply foldl_max_ge_elem].
Qed.

Lemma Math_max_nonneg ns : Forall (fun n => 0 <= n) ns -> 0 <= Math_max ns.
Proof.
  destruct ns as [|m ns]; [done|]. simpl. intros [Hm _]%Forall_cons.
  etrans; [exact Hm | apply foldl_max_ge_acc].
Qed.

Lemma elem_len_nonneg e : 0 <= elem_len e.
Proof. destruct e; simpl; lia. Qed.

(** The construction of [imageData] yields the table the specification
    describes, for rows that have a length and margins and paddings that are
    array lengths. *)
Lemma compose_ok rows mT pT mB pB mR pR mL pL pc w :
  Forall (fun e => e <> ENull) rows ->
  0 <= mT -> 0 <= pT -> 0 <= mB -> 0 <= pB ->
  0 <= mR -> 0 <= pR -> 0 <= mL -> 0 <= pL ->
  mL + pL + Math_max (elem_len <$> rows) + pR + mR <= 4294967295 ->
  compose rows mT pT mB pB mR pR mL pL pc w
  = Ok (Math_max (elem_len <$> rows),
        spec_table rows (Z.to_nat mT) (Z.to_nat pT) (Z.to_nat pB) (Z.to_nat mB)
          (Z.to_nat mL) (Z.to_nat pL) (Z.to_nat (Math_max (elem_len <$> rows)))
          (Z.to_nat pR) (Z.to_nat mR) pc) w.
Proof.
  intros Hrows HmT HpT HmB HpB HmR HpR HmL HpL Htw.
  assert (0 <= Math_max (elem_len <$> rows)) as Hiw.
  { apply Math_max_nonneg, Forall_fmap, Forall_forall. intros e _. apply elem_len_nonneg. }
  rewrite Forall_forall in Hrows.
  unfold compose.
  erewrite (bind_Ok (map_M _ _)); [|apply map_M_ok; intros e He; by apply elem_length_ok, Hrows].
  set (iw := Math_max (elem_len <$> rows)) in *.
  erewrite (bind_Ok (push_rows _ _));
    [|apply push_rows_ok, new_Array_fill_ok; lia].
  erewrite (bind_Ok (push_rows _ _));
    [|apply push_rows_ok, padding_row_ok; lia].
  erewrite (bind_Ok (map_M _ _));
    [|apply map_M_ok; intros e He; apply image_row_ok; [by apply Hrows|lia..]].
  erewrite (bind_Ok (push_rows _ _));
    [|apply push_rows_ok, padding_row_ok; lia].
  erewrite (bind_Ok (push_rows _ _));
    [|apply push_rows_ok, new_Array_fill_ok; lia].
  unfold ret, spec_table. do 4 f_equal.
  all: rewrite ?Z2Nat.inj_add by lia; try done.
Qed.

Lemma image_rows_ok asciiImage w :
  passes_shape_test asciiImage -> image_rows asciiImage w = Ok (rows_of asciiImage) w.
Proof. destruct asciiImage as [s|[|[l|s|] rows]|]; simpl; done. Qed.

Lemma lookup_replicate_row {A} (n : nat) (x y : A) i :
  replicate n x !! i = Some y -> y = x /\ (i < n)%nat.
Proof. apply lookup_replicate. Qed.

Lemma spec_pad_row_lookup l m r pc x v :
  spec_pad_row l m r pc !! x = Some v ->
  (x < l + m + r)%nat /\
  ((x < l \/ l + m <= x)%nat -> v = JNull) /\
  ((l <= x < l + m)%nat -> v = pc).
Proof.
  unfold spec_pad_row. intros H.
  apply lookup_app_Some in H as [H|[Hl H]].
  { apply lookup_replicate in H as [-> ?]. split; [lia|]. split; [done|lia]. }
  rewrite length_replicate in *.
  apply lookup_app_Some in H as [H|[Hm H]].
  { apply lookup_replicate in H as [-> ?]. split; [lia|]. split; [lia|done]. }
  rewrite length_replicate in *.
  apply lookup_replicate in H as [-> ?]. split; [lia|]. split; [done|lia].
Qed.

Lemma spec_image_row_lookup l pl iw pr r pc e x v :
  spec_image_row l pl iw pr r pc e !! x = Some v ->
  (x < l + pl + iw + pr + r)%nat /\
  ((x < l \/ l + pl + iw + pr <= x)%nat -> v = JNull) /\
  ((l <= x < l + pl \/ l + pl + iw <= x < l + pl + iw + pr)%nat -> v = pc) /\
  ((l + pl <= x < l + pl + iw)%nat -> v = js_or (elem_glyph e (x - l - pl)) pc).
Proof.
  unfold spec_image_row. intros H.
  apply lookup_app_Some in H as [H|[Hl H]].
  { apply lookup_app_Some in H as [H|[Hl H]].
    - apply lookup_replicate in H as [-> ?]. repeat split; try done; lia.
    - rewrite length_replicate in *. apply lookup_replicate in H as [-> ?].
      repeat split; try done; lia. }
  rewrite length_app, !length_replicate in *.
  apply lookup_app_Some in H as [H|[Hm H]].
  { apply list_lookup_fmap_Some in H as (j & -> & Hj). apply lookup_seq in Hj as [-> ?].
    simpl. repeat split; try lia. intros _; do 2 f_equal; lia. }
  rewrite length_fmap, length_seq in *.
  apply lookup_app_Some in H as [H|[Hp H]].
  { apply lookup_replicate in H as [-> ?]. repeat split; try done; lia. }
  rewrite length_replicate in *.
  apply lookup_replicate in H as [-> ?]. repeat split; try done; lia.
Qed.

Lemma spec_table_lookup rows a b d e l pl iw pr r pc y row :
  spec_table rows a b d e l pl iw pr r pc !! y = Some row ->
  (y < a + b + length rows + d + e)%nat /\
  ((y < a \/ a + b + length rows + d <= y)%nat ->
   row = replicate (l + pl + iw + pr + r) JNull) /\
  ((a <= y < a + b \/ a + b + length rows <= y < a + b + length rows + d)%nat ->
   row = spec_pad_row l (pl + iw + pr) r pc) /\
  ((a + b <= y < a + b + length rows)%nat ->
   exists el, rows !! (y - a - b)%nat = Some el /\ row = spec_image_row l pl iw pr r pc el).
Proof.
  unfold spec_table. intros H.
  apply lookup_app_Some in H as [H|[Ha H]].
  { apply lookup_replicate in H as [-> ?]. repeat split; try done; lia. }
  rewrite length_replicate in *.
  apply lookup_app_Some in H as [H|[Hb H]].
  { apply lookup_replicate in H as [-> ?]. repeat split; try done; lia. }
  rewrite length_replicate in *.
  apply lookup_app_Some in H as [H|[Hh H]].
  { apply list_lookup_fmap_Some in H as (el & -> & Hel).
    assert (y - a - b < length rows)%nat by (by eapply lookup_lt_Some).
    repeat split; try lia. intros _. exists el. split; [|done].
    rewrite <- Hel; f_equal; lia. }
  rewrite length_fmap in *.
  apply lookup_app_Some in H as [H|[Hd H]].
  { apply lookup_replicate in H as [-> ?]. repeat split; try done; lia. }
  rewrite length_replicate in *.
  apply lookup_replicate in H as [-> ?]. repeat split; try done; lia.
Qed.

Lemma spec_table_length rows a b d e l pl iw pr r pc :
  length (spec_table rows a b d e l pl iw pr r pc) = (a + b + length rows + d + e)%nat.
Proof.
  unfold spec_table. rewrite !length_app, !length_replicate, length_fmap. lia.
Qed.

Lemma spec_table_row_length rows a b d e l pl iw pr r pc row :
  row ∈ spec_table rows a b d e l pl iw pr r pc ->
  length row = (l + pl + iw + pr + r)%nat.
Proof.
  unfold spec_table, spec_pad_row, spec_image_row. rewrite !elem_of_app.
  intros [H|[H|[H|[H|H]]]].
  - apply elem_of_replicate in H as [-> _]. by rewrite length_replicate.
  - apply elem_of_replicate in H as [-> _]. rewrite !length_app, !length_replicate. lia.
  - apply list_elem_of_fmap in H as (el & -> & _).
    rewrite !length_app, !length_replicate, length_fmap, length_seq. lia.
  - apply elem_of_replicate in H as [-> _]. rewrite !length_app, !length_replicate. lia.
  - apply elem_of_replicate in H as [-> _]. by rewrite length_replicate.
Qed.

(** C6: for an image that passes the shape test, whose rows all have a
    length, and margins and paddings that are array lengths, [draw] composes
    a table of [marginTop + paddingTop + imageHeight + paddingBottom +
    marginBottom] rows, each of [marginLeft + paddingLeft + imageWidth +
    paddingRight + marginRight] entries, where [imageWidth] is the largest
    row length and [imageHeight] the number of rows; entries in the margins
    are [null]; entries in the paddings are [paddingChar]; an entry inside
    the image's box is the image glyph there, or [paddingChar] when the glyph
    is missing. *)
Theorem draw_composition (asciiImage : js_image) (o : DrawOptions) (w : World) :
  let mT := default 2 (dr_marginTop o) in
  let pT := default 1 (dr_paddingTop o) in
  let mB := default 2 (dr_marginBottom o) in
  let pB := default 1 (dr_paddingBottom o) in
  let mR := default 2 (dr_marginRight o) in
  let pR := default 1 (dr_paddingRight o) in
  let mL := default 2 (dr_marginLeft o) in
  let pL := default 1 (dr_paddingLeft o) in
  let pc := default (JStr "") (dr_paddingChar o) in
  let rows := rows_of asciiImage in
  let imageWidth := Math_max (elem_len <$> rows) in
  let imageHeight := Z.of_nat (length rows) in
  passes_shape_test asciiImage ->
  Forall (fun e => e <> ENull) rows ->
  0 <= mT -> 0 <= pT -> 0 <= mB -> 0 <= pB ->
  0 <= mR -> 0 <= pR -> 0 <= mL -> 0 <= pL ->
  mL + pL + imageWidth + pR + mR <= 4294967295 ->
  exists data,
    draw_imageData asciiImage o w = Ok (imageWidth, data) w /\
    Z.of_nat (length data) = mT + pT + imageHeight + pB + mB /\
    (forall row, row ∈ data ->
       Z.of_nat (length row) = mL + pL + imageWidth + pR + mR) /\
    (forall y x row v,
       data !! y = Some row -> row !! x = Some v ->
       (Z.of_nat y < mT \/ mT + pT + imageHeight + pB <= Z.of_nat y \/
        Z.of_nat x < mL \/ mL + pL + imageWidth + pR <= Z.of_nat x ->
        v = JNull) /\
       (mT <= Z.of_nat y < mT + pT + imageHeight + pB ->
        mL <= Z.of_nat x < mL + pL + imageWidth + pR ->
        Z.of_nat y < mT + pT \/ mT + pT + imageHeight <= Z.of_nat y \/
        Z.of_nat x < mL + pL \/ mL + pL + imageWidth <= Z.of_nat x ->
        v = pc) /\
       (mT + pT <= Z.of_nat y < mT + pT + imageHeight ->
        mL + pL <= Z.of_nat x < mL + pL + imageWidth ->
        exists el,
          rows !! (y - Z.to_nat mT - Z.to_nat pT)%nat = Some el /\
          v = js_or (elem_glyph el (x - Z.to_nat mL - Z.to_nat pL)) pc)) /\
    (forall el j, elem_glyph el j = JUndefined -> js_or (elem_glyph el j) pc = pc).
Proof.
  intros mT pT mB pB mR pR mL pL pc rows imageWidth imageHeight
         Hshape Hrows HmT HpT HmB HpB HmR HpR HmL HpL Htw.
  assert (0 <= imageWidth) as Hiw.
  { apply Math_max_nonneg, Forall_fmap, Forall_forall. intros e _. apply elem_len_nonneg. }
  unfold draw_imageData.
  erewrite (bind_Ok (image_rows _)); [|by apply image_rows_ok].
  rewrite compose_ok by done. eexists. split; [reflexivity|].
  fold rows imageWidth mT pT mB pB mR pR mL pL pc.
  split; [|split; [|split]].
  - rewrite spec_table_length. unfold imageHeight. lia.
  - intros row Hrow. rewrite (spec_table_row_length _ _ _ _ _ _ _ _ _ _ _ _ Hrow). lia.
  - intros y x row v Hy Hx.
    apply spec_table_lookup in Hy as (Hylt & Hnull & Hpad & Himg).
    unfold imageHeight.
    destruct (decide (y < Z.to_nat mT \/
                      Z.to_nat mT + Z.to_nat pT + length rows + Z.to_nat pB <= y)%nat)
      as [Hy|Hy].
    { rewrite (Hnull Hy) in Hx. apply lookup_replicate in Hx as [-> Hxlt].
      split; [done|]. split; [lia|lia]. }
    destruct (decide (Z.to_nat mT + Z.to_nat pT <= y
                      < Z.to_nat mT + Z.to_nat pT + length rows)%nat) as [Hyi|Hyp].
    + destruct (Himg Hyi) as (el & Hel & ->).
      apply spec_image_row_lookup in Hx as (Hxlt & Hxn & Hxp & Hxi).
      split; [|split].
      * intros Hm. apply Hxn. lia.
      * intros _ Hxr Hp. apply Hxp. lia.
      * intros _ Hxr. exists el. split; [done|]. apply Hxi. lia.
    + rewrite Hpad in Hx by lia.
      apply spec_pad_row_lookup in Hx as (Hxlt & Hxn & Hxp).
      split; [|split].
      * intros Hm. apply Hxn. lia.
      * intros _ Hxr _. apply Hxp. lia.
      * lia.
  - intros el j ->. reflexivity.
Qed.

Lemma draw_composition_witness :
  passes_shape_test image_2x3 /\
  Forall (fun e => e <> ENull) (rows_of image_2x3) /\
  0 <= 1 /\
  1 + 1 + 3 + 1 + 1 <= 4294967295 /\
  exists data,
    draw_imageData image_2x3 ones world_2x3 = Ok (3, data) world_2x3 /\
    length data = 6%nat /\
    (forall row, row ∈ data -> length row = 7%nat).
Proof.
  assert (passes_shape_test image_2x3) as Hs by exact I.
  assert (Forall (fun e => e <> ENull) (rows_of image_2x3)) as Hr
      by (repeat constructor; discriminate).
  split; [exact Hs|]. split; [exact Hr|]. split; [lia|]. split; [lia|].
  destruct (draw_composition image_2x3 ones world_2x3 Hs Hr)
    as (data & Hrun & Hlen & Hrow & _); [simpl; lia..|].
  exists data. split; [exact Hrun|]. split.
  - simpl in Hlen. lia.
  - intros row Hin. specialize (Hrow row Hin). simpl in Hrow. lia.
Defined.

(** The table [draw] composes for the text ["abc\ndef"] with all margins and
    paddings 1 and the default [paddingChar]: 6 rows of 7 entries. *)
Example draw_text_2x3 :
  draw_imageData text_2x3 ones world_2x3
  = Ok (3,
        [ [JNull; JNull; JNull; JNull; JNull; JNull; JNull];
          [JNull; JStr ""; JStr ""; JStr ""; JStr ""; JStr ""; JNull];
          [JNull; JStr ""; JStr "a"; JStr "b"; JStr "c"; JStr ""; JNull];
          [JNull; JStr ""; JStr "d"; JStr "e"; JStr "f"; JStr ""; JNull];
          [JNull; JStr ""; JStr ""; JStr ""; JStr ""; JStr ""; JNull];
          [JNull; JNull; JNull; JNull; JNull; JNull; JNull] ])
       world_2x3.
Proof. reflexivity. Qed.

(** ** Errors *)

Lemma nie_ok {A} (m : M A) : safe m -> no_image_error m.
Proof. intros Hs w. destruct (Hs w) as (a & w' & ->). done. Qed.











Lemma draw_run asciiImage o w :
  _draw asciiImage o w
  = match draw_imageData asciiImage o w with
    | Ok wd w1 =>
        Ok tt (set_pending
                 (<[nextHandle w1 :=
                      timeout_task (now w1) (default 1000 (dr_delay o))
                        (DrawFunction (default 1000 (dr_delay o))
                           (default 30000 (dr_duration o)) wd.2
                           (default true (dr_keepOnNotAffectedColumns o))
                           (default 2 (dr_marginLeft o))
                           (default 1 (dr_paddingLeft o) + wd.1
                            + default 1 (dr_paddingRight o)))]> (pending w1))
                 (S (nextHandle w1)) w1)
    | Throw e => Throw e
    end.
Proof. unfold _draw, bind. by destruct (draw_imageData asciiImage o w). Qed.



(** ** Errors of the public methods *)









(** C8 at the failing input.  [mainLoop] never cancels a timer, although it
    overwrites the timer id recorded in every top cell it spawns a droplet
    for.  After [start({delay: -1})] twice on the two-by-three grid, the top
    cell of column 0 records timer 4 while the droplet spawn queued by the
    first main loop, timer 1, is still pending; [stop()] then clears timer 4
    and leaves timer 1 pending; and 20 seconds later that droplet has run:
    the stopped monitor shows a glyph in the cell. *)
Theorem mainLoop_overwrites_without_cancelling :
  (forall o w w', mainLoop o w = Ok tt w' -> cancels_nothing w w') /\
  (_start start_now ;; _start start_now) world_2x3 = Ok tt world_started_twice /\
  Update.timer (cell_update (columns world_started_twice) (0%nat, 0%nat)) = Some 4%nat /\
  pending world_started_twice !! 1%nat
  = Some (timeout_task 0 5250
            (CreateDroplet (0%nat, 0%nat) {| d_clearScreen := false; d_charList := [] |})) /\
  _stop no_stop_options world_started_twice = Ok tt world_started_twice_stopped /\
  pending world_started_twice_stopped !! 4%nat = None /\
  pending world_started_twice_stopped !! 1%nat
  = Some (timeout_task 0 5250
            (CreateDroplet (0%nat, 0%nat) {| d_clearScreen := false; d_charList := [] |})) /\
  run 30 20000 world_started_twice_stopped = Ok tt world_started_twice_stopped_later /\
  innerText <$> lookup_cell (columns world_started_twice_stopped) (0%nat, 0%nat)
  = Some (JStr "") /\
  innerText <$> lookup_cell (columns world_started_twice_stopped_later) (0%nat, 0%nat)
  = Some (JStr "A").
Proof.
  split; [intros o w w'; apply mainLoop_cancels_nothing|].
  vm_compute. by repeat split.
Qed.

(** ** Timers that [resume] overwrites *)

(** The loops of [resumeFunction] cancel nothing: every timer that was
    pending, the ones they overwrite in the cells included, stays pending. *)
Lemma resume_loop_cancels_nothing cells :
  forall d, preserves cancels_nothing (resume_loop cells d).
Proof.
  induction cells as [|cell rest IH]; intros d; simpl.
  - apply (preserves_ret _ cancels_nothing_refl).
  - apply (preserves_bind _ cancels_nothing_trans);
      [apply (preserves_gets _ cancels_nothing_refl)|intros u].
    apply (preserves_bind _ cancels_nothing_trans);
      [apply (preserves_gets _ cancels_nothing_refl)|intros v].
    destruct (resume_skips v u); [apply IH|].
    apply (preserves_bind _ cancels_nothing_trans).
    { intros w a w' [= _ <-]. split; simpl; [lia|].
      intros h Hh. apply lookup_insert_ne. lia. }
    intros h. apply (preserves_bind _ cancels_nothing_trans); [|intros _; apply IH].
    intros w a w' [= _ <-]. by split.
Qed.

Lemma resume_columns_cancels_nothing : preserves cancels_nothing resume_columns.
Proof.
  unfold resume_columns.
  apply (preserves_bind _ cancels_nothing_trans);
    [apply (preserves_gets _ cancels_nothing_refl)|intros cols].
  apply (preserves_for_each _ cancels_nothing_refl cancels_nothing_trans). intros topCell.
  apply resume_loop_cancels_nothing.
Qed.

(** C5 at the failing input.  [resume] queues every cell that has not shown
    its glyph once more and overwrites the timer id the cell records without
    clearing it: its loops never cancel a timer.  After
    [start({delay: -1})], 5.3 seconds and [resume()] on the two-by-three
    grid, cell (0, 2) records timer 16 while its earlier update, timer 12, is
    still pending.  [pause({allAtOnce: true})] then clears the cycle and
    timer 16, and leaves timers 11 and 12, updates of the targeted cells
    (0, 1) and (0, 2), pending; 700 ms later the paused monitor has shown the
    glyph in cell (0, 2). *)
Theorem pause_leaves_overwritten_updates :
  (forall w w', resume_columns w = Ok tt w' -> cancels_nothing w w') /\
  (_start start_now ;; run 30 5300 ;; _resume no_resume_options) world_2x3
  = Ok tt world_resumed /\
  Update.timer (cell_update (columns world_resumed) (0%nat, 2%nat)) = Some 16%nat /\
  pending world_resumed !! 16%nat
  = Some (timeout_task 5250 200 (UpdateCell (0%nat, 2%nat) (JStr "A"))) /\
  pending world_resumed !! 12%nat
  = Some (timeout_task 5250 400 (UpdateCell (0%nat, 2%nat) (JStr "A"))) /\
  (_pause pause_at_once ;; run 30 5300) world_resumed = Ok tt world_resumed_paused /\
  (0%nat, 1%nat) ∈ cellsToPause false (columns world_resumed_paused) /\
  (0%nat, 2%nat) ∈ cellsToPause false (columns world_resumed_paused) /\
  pending world_resumed_paused !! 3%nat = None /\
  pending world_resumed_paused !! 16%nat = None /\
  pending world_resumed_paused !! 11%nat
  = Some (timeout_task 5250 200 (UpdateCell (0%nat, 1%nat) (JStr "B"))) /\
  pending world_resumed_paused !! 12%nat
  = Some (timeout_task 5250 400 (UpdateCell (0%nat, 2%nat) (JStr "A"))) /\
  innerText <$> lookup_cell (columns world_resumed_paused) (0%nat, 2%nat) = Some (JStr "") /\
  run 30 6000 world_resumed_paused = Ok tt world_resumed_paused_later /\
  innerText <$> lookup_cell (columns world_resumed_paused_later) (0%nat, 2%nat)
  = Some (JStr "A").
Proof.
  split; [intros w w'; apply resume_columns_cancels_nothing|].
  repeat apply conj; try (by vm_compute).
  - apply monitor_cells_elem. eexists. by vm_compute.
  - apply monitor_cells_elem. eexists. by vm_compute.
Qed.

(** C9 at the failing input.  The loop of [resume] never cancels a timer,
    although it overwrites the timer id of every cell it queues.  One column
    of two cells whose droplets spawn at once: after [start({delay: -1})],
    the timers due within 100 ms, [resume()] and [start({delay: -1})] again,
    cell (0, 1) records the timer [resume] queued, timer 7, which has fired,
    while the update the first droplet queued for it, timer 4, is still
    pending.  The next timer the host fires is the second droplet of the
    column.  [createDroplet] gives the cell a new update, timer 12, with
    [isUpdated = false], and leaves timer 4 pending; 300 ms later both
    updates have run, each has queued its fade. *)
Theorem createDroplet_leaves_overwritten_update :
  (forall cells d w w', resume_loop cells d w = Ok tt w' -> cancels_nothing w w') /\
  (_start start_now ;; run 30 100 ;; _resume no_resume_options ;;
   _start start_now ;; run 1 100) world_quick_1x2 = Ok tt world_droplet_due /\
  Update.timer (cell_update (columns world_droplet_due) (0%nat, 1%nat)) = Some 7%nat /\
  pending world_droplet_due !! 7%nat = None /\
  pending world_droplet_due !! 4%nat
  = Some (timeout_task 0 200 (UpdateCell (0%nat, 1%nat) (JStr "B"))) /\
  earliest (pending world_droplet_due)
  = Some (8%nat, timeout_task 0 0
                   (CreateDroplet (0%nat, 0%nat)
                      {| d_clearScreen := false; d_charList := [] |})) /\
  run 1 100 world_droplet_due = Ok tt world_droplet_done /\
  cell_update (columns world_droplet_done) (0%nat, 1%nat)
  = {| Update.timer := Some 12%nat; Update.function := None; Update.delay := Some 200;
       Update.progression := Some 200; Update.nextChar := JStr "B";
       Update.isUpdated := false |} /\
  pending world_droplet_done !! 12%nat
  = Some (timeout_task 0 200 (UpdateCell (0%nat, 1%nat) (JStr "B"))) /\
  pending world_droplet_done !! 4%nat
  = Some (timeout_task 0 200 (UpdateCell (0%nat, 1%nat) (JStr "B"))) /\
  run 30 300 world_droplet_done = Ok tt world_droplet_later /\
  pending world_droplet_later !! 14%nat
  = Some (timeout_task 200 200 (FadeCell (0%nat, 1%nat) (JStr "B"))) /\
  pending world_droplet_later !! 15%nat
  = Some (timeout_task 200 200 (FadeCell (0%nat, 1%nat) (JStr "B"))).
Proof.
  split; [intros cells d w w'; apply resume_loop_cancels_nothing|].
  repeat apply conj; by vm_compute.
Qed.

(** ** The invariant of the engine *)

Lemma hoare_ret {A} (P : World -> Prop) (a : A) : hoare P (ret a) (fun _ => P).
Proof. intros w a' w' HP [= _ Hw]. by subst. Qed.

Lemma hoare_gets {A} (P : World -> Prop) (f : World -> A) :
  hoare P (gets f) (fun a w => P w /\ a = f w).
Proof. intros w a' w' HP [= Ha Hw]. by subst. Qed.

Lemma hoare_gets_keep {A} (P : World -> Prop) (f : World -> A) :
  hoare P (gets f) (fun _ => P).
Proof. intros w a' w' HP [= Ha Hw]. by subst. Qed.

Lemma hoare_bind {A B} (P : World -> Prop) (R : A -> World -> Prop)
    (Q : B -> World -> Prop) (m : M A) (k : A -> M B) :
  hoare P m R -> (forall a, hoare (R a) (k a) Q) -> hoare P (bind m k) Q.
Proof.
  intros Hm Hk w b w' HP E. unfold bind in E.
  destruct (m w) as [a w1|e] eqn:Em; [|done].
  eapply Hk; [|exact E]. by eapply Hm.
Qed.

Lemma hoare_conseq {A} (P P' : World -> Prop) (Q Q' : A -> World -> Prop) (m : M A) :
  hoare P' m Q' -> (forall w, P w -> P' w) -> (forall a w, Q' a w -> Q a w) ->
  hoare P m Q.
Proof. intros Hm HP HQ w a w' Hw E. apply HQ. eapply Hm; [by apply HP|done]. Qed.

Lemma hoare_for_each {A} (I : World -> Prop) (xs : list A) (body : A -> M unit) :
  (forall x, hoare I (body x) (fun _ => I)) -> hoare I (for_each xs body) (fun _ => I).
Proof.
  intros Hb. induction xs as [|x xs IH]; simpl.
  - apply hoare_ret.
  - eapply hoare_bind; [apply Hb|]. intros u. apply IH.
Qed.

(** One step of the engine keeps the invariant when it hands out ids in order,
    leaves the callbacks of the old pending timers as they are, and records
    only ids that are [role_ok]. *)
Lemma engine_inv_step (w w' : World) :
  engine_inv w ->
  (nextHandle w <= nextHandle w')%nat ->
  (forall i, is_Some (pending w' !! i) -> (i < nextHandle w')%nat) ->
  (forall i t', (i < nextHandle w)%nat -> pending w' !! i = Some t' ->
     exists t, pending w !! i = Some t /\ t_action t' = t_action t) ->
  (forall r h, recorded w' r h -> recorded w r h \/ role_ok w' r h) ->
  (forall cell f, Update.function (cell_update (columns w') cell) = Some f ->
                  role_of f = Some CellRole) ->
  engine_inv w'.
Proof.
  intros (Hdom & Hrec & Hfun) Hnext Hdom' Hold Hrec' Hfun'.
  split; [done|]. split; [|done].
  intros r h [Hr|Hr]%Hrec'; [|done].
  intros i ->. destruct (Hrec r (Some i) Hr i eq_refl) as [Hi Hrole].
  split; [lia|]. intros t' Ht'.
  destruct (Hold i t' Hi Ht') as (t & Ht & ->). by apply Hrole.
Qed.

Lemma inv_set_entropy w e : engine_inv w -> engine_inv (set_entropy e w).
Proof.
  intros Hinv. apply (engine_inv_step w); try done.
  - apply Hinv.
  - intros i t' _ Ht'. by exists t'.
  - intros r h Hr. left. by destruct r.
  - apply Hinv.
Qed.

Lemma inv_cancel w h :
  engine_inv w -> engine_inv (set_pending (cancel h (pending w)) (nextHandle w) w).
Proof.
  intros Hinv. apply (engine_inv_step w); simpl; try done.
  - intros i [t Ht]. apply Hinv. exists t.
    destruct h as [j|]; simpl in Ht; [|done].
    rewrite lookup_delete in Ht. by case_decide.
  - intros i t' _ Ht'. exists t'. split; [|done].
    destruct h as [j|]; simpl in Ht'; [|done].
    rewrite lookup_delete in Ht'. by case_decide.
  - intros r h' Hr. left. by destruct r.
  - apply Hinv.
Qed.

Lemma inv_insert w t :
  engine_inv w ->
  engine_inv (set_pending (<[nextHandle w := t]> (pending w)) (S (nextHandle w)) w).
Proof.
  intros Hinv. apply (engine_inv_step w); simpl; try done.
  - lia.
  - intros i [t' Ht']. destruct (decide (i = nextHandle w)) as [->|Hne]; [lia|].
    rewrite lookup_insert_ne in Ht' by done.
    assert (i < nextHandle w)%nat; [|lia]. apply Hinv. by exists t'.
  - intros i t' Hi Ht'. rewrite lookup_insert_ne in Ht' by lia. by exists t'.
  - intros r h' Hr. left. by destruct r.
  - apply Hinv.
Qed.

Lemma role_ok_insert w t r :
  role_of (t_action t) = Some r ->
  role_ok (set_pending (<[nextHandle w := t]> (pending w)) (S (nextHandle w)) w) r
          (Some (nextHandle w)).
Proof.
  intros Hr i [= <-]. simpl. split; [lia|].
  intros t'. rewrite lookup_insert_eq. by intros [= <-].
Qed.

Lemma hoare_random from to : hoare engine_inv (random from to) (fun _ => engine_inv).
Proof. intros w a w' Hinv [= _ <-]. by apply inv_set_entropy. Qed.

Lemma hoare_clearTimeout h : hoare engine_inv (clearTimeout h) (fun _ => engine_inv).
Proof. intros w a w' Hinv [= _ <-]. by apply inv_cancel. Qed.

(** A timer queued for a callback of role [r] may be recorded under [r]. *)
Lemma hoare_setTimeout_role r a d :
  role_of a = Some r ->
  hoare engine_inv (setTimeout a d) (fun h w => engine_inv w /\ role_ok w r (Some h)).
Proof.
  intros Hr w h w' Hinv [= <- <-]. split; [by apply inv_insert|].
  by apply role_ok_insert.
Qed.

Lemma hoare_setInterval_role r a d :
  role_of a = Some r ->
  hoare engine_inv (setInterval a d) (fun h w => engine_inv w /\ role_ok w r (Some h)).
Proof.
  intros Hr w h w' Hinv [= <- <-]. split; [by apply inv_insert|].
  by apply role_ok_insert.
Qed.

Lemma hoare_setTimeout a d : hoare engine_inv (setTimeout a d) (fun _ => engine_inv).
Proof. intros w h w' Hinv [= _ <-]. by apply inv_insert. Qed.

Lemma hoare_setInterval a d : hoare engine_inv (setInterval a d) (fun _ => engine_inv).
Proof. intros w h w' Hinv [= _ <-]. by apply inv_insert. Qed.

Lemma cell_update_alter_cases g c c' cols :
  cell_update (alter_cell (fun cl => {| update := g (update cl); innerText := innerText cl |})
                          c cols) c' = cell_update cols c' \/
  cell_update (alter_cell (fun cl => {| update := g (update cl); innerText := innerText cl |})
                          c cols) c' = g (cell_update cols c').
Proof.
  destruct (decide (c = c')) as [->|Hne].
  - destruct (lookup_cell cols c') as [cl|] eqn:E.
    + right. apply cell_update_alter_eq. by rewrite E.
    + left. unfold cell_update. by rewrite lookup_cell_alter_eq, E.
  - left. by apply cell_update_alter_ne.
Qed.

(** Changing what a cell stores keeps the invariant when the new timer id is
    the old one or [role_ok], and the new function the old one or a cell
    update. *)
Lemma hoare_set_update c g (P : World -> Prop) :
  (forall w, P w -> engine_inv w) ->
  (forall w u, P w ->
     Update.timer (g u) = Update.timer u \/ role_ok w CellRole (Update.timer (g u))) ->
  (forall u f, Update.function (g u) = Some f ->
     Update.function u = Some f \/ role_of f = Some CellRole) ->
  hoare P (set_update c g) (fun _ => engine_inv).
Proof.
  intros HP Htimer Hfun w a w' Hw [= _ <-]. pose proof (HP w Hw) as Hinv.
  apply (engine_inv_step w); simpl; try done.
  - apply Hinv.
  - intros i t' _ Ht'. by exists t'.
  - intros r h Hr. destruct r; simpl in Hr; try (by left).
    destruct Hr as [cell ->].
    destruct (cell_update_alter_cases g c cell (columns w)) as [->| ->].
    + left. by exists cell.
    + destruct (Htimer w (cell_update (columns w) cell) Hw) as [-> |Hok].
      * left. by exists cell.
      * by right.
  - intros cell f.
    destruct (cell_update_alter_cases g c cell (columns w)) as [->| ->].
    + apply Hinv.
    + intros [Hf|Hf]%Hfun; [|done]. by eapply Hinv.
Qed.

Lemma hoare_set_innerText c v : hoare engine_inv (set_innerText c v) (fun _ => engine_inv).
Proof.
  intros w a w' Hinv [= _ <-].
  assert (forall cell, cell_update (alter_cell
              (fun cl => {| update := update cl; innerText := v |}) c (columns w)) cell
            = cell_update (columns w) cell) as Hsame.
  { intros cell. unfold cell_update. destruct (decide (c = cell)) as [->|Hne].
    - rewrite lookup_cell_alter_eq. by destruct (lookup_cell (columns w) cell).
    - by rewrite lookup_cell_alter_ne. }
  apply (engine_inv_step w); simpl; try done.
  - apply Hinv.
  - intros i t' _ Ht'. by exists t'.
  - intros r h Hr. left. destruct r; simpl in *; try done.
    destruct Hr as [cell ->]. exists cell. by rewrite Hsame.
  - intros cell f. rewrite Hsame. apply Hinv.
Qed.

(** Recording a [role_ok] id under its role in [monitor.timers]. *)
Lemma hoare_modify_timers (f : Timers.t -> Timers.t) (P : World -> Prop) :
  (forall w, P w -> engine_inv w) ->
  (forall w r h, P w -> recorded (set_timers (f (timers w)) w) r h ->
                 recorded w r h \/ role_ok w r h) ->
  hoare P (modify_timers f) (fun _ => engine_inv).
Proof.
  intros HP Hrec w a w' Hw [= _ <-]. pose proof (HP w Hw) as Hinv.
  apply (engine_inv_step w); simpl; try done.
  - apply Hinv.
  - intros i t' _ Ht'. by exists t'.
  - intros r h Hr. destruct (Hrec w r h Hw Hr) as [?|Hok]; [by left|right; exact Hok].
  - apply Hinv.
Qed.

Ltac hoare_inv_step :=
  first [ apply hoare_random | apply hoare_clearTimeout | apply hoare_setTimeout
        | apply hoare_setInterval | apply hoare_set_innerText
        | apply hoare_ret
        | apply hoare_gets_keep
        | apply hoare_for_each; intros ?
        | eapply (hoare_bind engine_inv (fun _ => engine_inv)); [|intros ?] ].

Lemma inv_updateCell cell char : hoare engine_inv (updateCell cell char) (fun _ => engine_inv).
Proof.
  unfold updateCell.
  eapply (hoare_bind _ (fun _ => engine_inv)); [apply hoare_set_innerText|intros ?].
  eapply (hoare_bind _ (fun _ => engine_inv)); [|intros ?].
  { apply hoare_set_update; [done|by left|by left]. }
  repeat hoare_inv_step.
Qed.

Lemma inv_getRandomChar except : hoare engine_inv (getRandomChar except) (fun _ => engine_inv).
Proof. unfold getRandomChar. repeat hoare_inv_step. Qed.

Lemma inv_droplet_char cs cl i prev :
  hoare engine_inv (droplet_char cs cl i prev) (fun _ => engine_inv).
Proof.
  unfold droplet_char. destruct cs; [apply hoare_ret|].
  destruct (_ && _); [apply inv_getRandomChar | apply hoare_ret].
Qed.

Lemma inv_droplet_loop cs cl p cells : forall i d prev,
  hoare engine_inv (droplet_loop cs cl p cells i d prev) (fun _ => engine_inv).
Proof.
  induction cells as [|c rest IH]; intros i d prev; simpl; [apply hoare_ret|].
  eapply (hoare_bind _ (fun _ => engine_inv)); [apply inv_droplet_char|intros ch].
  eapply (hoare_bind _ (fun _ => engine_inv)); [repeat hoare_inv_step|intros old].
  eapply (hoare_bind _ (fun _ => engine_inv)); [apply hoare_clearTimeout|intros ?].
  eapply (hoare_bind _ (fun h w => engine_inv w /\ role_ok w CellRole (Some h)));
    [by apply hoare_setTimeout_role|intros h].
  eapply (hoare_bind _ (fun _ w => engine_inv w /\ role_ok w CellRole (Some h)));
    [|intros v].
  { apply (hoare_gets_keep (fun w => engine_inv w /\ role_ok w CellRole (Some h))). }
  eapply (hoare_bind _ (fun _ => engine_inv)); [|intros ?; apply IH].
  apply hoare_set_update.
  - by intros w [? _].
  - intros w u [_ Hok]. by right.
  - intros u f. destruct v; simpl; [by left|]. intros [= <-]. by right.
Qed.

Ltac hbind tac := eapply (hoare_bind _ (fun _ => engine_inv)); [tac|intros ?].

Lemma inv_createDroplet topCell o :
  hoare engine_inv (createDroplet topCell o) (fun _ => engine_inv).
Proof.
  unfold createDroplet.
  hbind ltac:(apply hoare_gets_keep). hbind ltac:(apply hoare_random).
  hbind ltac:(apply hoare_gets_keep). apply inv_droplet_loop.
Qed.

(** Queue a callback of the cell role and record its id in the cell. *)
Lemma inv_schedule_cell a d c :
  role_of a = Some CellRole ->
  hoare engine_inv (h <- setTimeout a d ;; set_update c (with_timer (Some h)))
        (fun _ => engine_inv).
Proof.
  intros Hr.
  eapply (hoare_bind _ (fun h w => engine_inv w /\ role_ok w CellRole (Some h)));
    [by apply hoare_setTimeout_role|intros h].
  apply hoare_set_update; [by intros w [? _] | intros w u [_ ?]; by right | by left].
Qed.

(** Queue a callback and record its id under its role in [monitor.timers]. *)
Lemma inv_schedule_timer r a d (set : option nat -> Timers.t -> Timers.t) :
  role_of a = Some r ->
  (forall w h r' h',
     recorded (set_timers (set (Some h) (timers w)) w) r' h' ->
     recorded w r' h' \/ (r' = r /\ h' = Some h)) ->
  hoare engine_inv (h <- setTimeout a d ;; modify_timers (set (Some h)))
        (fun _ => engine_inv).
Proof.
  intros Hr Hset.
  eapply (hoare_bind _ (fun h w => engine_inv w /\ role_ok w r (Some h)));
    [by apply hoare_setTimeout_role|intros h].
  apply hoare_modify_timers; [by intros w [? _]|].
  intros w r' h' [_ Hok] Hrec.
  destruct (Hset w h r' h' Hrec) as [?|[-> ->]]; [by left|by right].
Qed.

Lemma inv_mainLoop o : hoare engine_inv (mainLoop o) (fun _ => engine_inv).
Proof.
  unfold mainLoop.
  hbind ltac:(apply hoare_gets_keep). hbind ltac:(apply hoare_gets_keep).
  apply hoare_for_each. intros ic.
  destruct (bool_decide _); [apply hoare_ret|].
  hbind ltac:(apply hoare_random). by apply inv_schedule_cell.
Qed.

Lemma inv_clear_cells cells :
  hoare engine_inv
    (for_each cells (fun cell => u <- get_update cell ;; clearTimeout (Update.timer u)))
    (fun _ => engine_inv).
Proof.
  apply hoare_for_each. intros cell.
  hbind ltac:(apply hoare_gets_keep). apply hoare_clearTimeout.
Qed.

Lemma inv_stopFunction clearScreen :
  hoare engine_inv (stopFunction clearScreen) (fun _ => engine_inv).
Proof.
  unfold stopFunction.
  hbind ltac:(apply hoare_gets_keep). hbind ltac:(apply hoare_clearTimeout).
  hbind ltac:(apply hoare_gets_keep). hbind ltac:(apply inv_clear_cells).
  destruct clearScreen; [|apply hoare_ret].
  hbind ltac:(apply hoare_gets_keep). apply hoare_for_each. intros top.
  hbind ltac:(apply hoare_random). hbind ltac:(apply hoare_setTimeout). apply hoare_ret.
Qed.

Lemma inv_stop o : hoare engine_inv (_stop o) (fun _ => engine_inv).
Proof.
  unfold _stop.
  hbind ltac:(apply hoare_gets_keep). hbind ltac:(apply hoare_clearTimeout).
  destruct (0 <? _); [|apply inv_stopFunction].
  apply (inv_schedule_timer StopRole); [done|].
  intros w h [] h' Hrec; simpl in *; auto.
Qed.

Lemma inv_startFunction iv : hoare engine_inv (startFunction iv) (fun _ => engine_inv).
Proof.
  unfold startFunction.
  hbind ltac:(apply hoare_gets_keep). hbind ltac:(apply hoare_clearTimeout).
  hbind ltac:(apply inv_mainLoop).
  eapply (hoare_bind _ (fun h w => engine_inv w /\ role_ok w CycleRole (Some h)));
    [by apply hoare_setInterval_role|intros h].
  apply hoare_modify_timers; [by intros w [? _]|].
  intros w [] h' [_ Hok] Hrec; simpl in *; subst; auto.
Qed.

Lemma inv_start o : hoare engine_inv (_start o) (fun _ => engine_inv).
Proof.
  unfold _start.
  hbind ltac:(apply hoare_gets_keep). hbind ltac:(apply hoare_gets_keep).
  hbind ltac:(apply hoare_clearTimeout).
  eapply (hoare_bind _ (fun _ => engine_inv)); [|intros ?].
  - destruct (0 <? _); [|apply inv_startFunction].
    apply (inv_schedule_timer StartRole); [done|].
    intros w h [] h' Hrec; simpl in *; auto.
  - destruct (start_mainLoopDuration _ _); [apply inv_stop | apply hoare_ret].
Qed.

Lemma inv_pauseAtOnce onlyTop : hoare engine_inv (pauseAtOnce onlyTop) (fun _ => engine_inv).
Proof. unfold pauseAtOnce. hbind ltac:(apply hoare_gets_keep). apply inv_clear_cells. Qed.

Lemma inv_pauseFunction onlyTop atOnce mn mx :
  hoare engine_inv (pauseFunction onlyTop atOnce mn mx) (fun _ => engine_inv).
Proof.
  unfold pauseFunction.
  hbind ltac:(apply hoare_gets_keep). hbind ltac:(apply hoare_clearTimeout).
  destruct atOnce; [apply inv_pauseAtOnce|].
  hbind ltac:(apply hoare_gets_keep).
  eapply (hoare_bind _ (fun _ => engine_inv)); [|intros ?].
  - apply hoare_for_each. intros cell.
    hbind ltac:(apply hoare_random). hbind ltac:(apply hoare_gets_keep).
    hbind ltac:(apply hoare_setTimeout). apply hoare_ret.
  - hbind ltac:(apply hoare_setTimeout). apply hoare_ret.
Qed.

Lemma inv_pause o : hoare engine_inv (_pause o) (fun _ => engine_inv).
Proof.
  unfold _pause.
  hbind ltac:(apply hoare_gets_keep). hbind ltac:(apply hoare_clearTimeout).
  apply (inv_schedule_timer PauseRole); [done|].
  intros w h [] h' Hrec; simpl in *; auto.
Qed.

Lemma inv_resume_loop cells : forall d,
  hoare engine_inv (resume_loop cells d) (fun _ => engine_inv).
Proof.
  induction cells as [|c rest IH]; intros d; [apply hoare_ret|].
  intros w a w' Hinv E.
  destruct (resume_skips (Options.variant (options w)) (cell_update (columns w) c)) eqn:Esk.
  - rewrite resume_loop_skip in E by done. by eapply IH.
  - destruct (resume_loop_step c rest d w Esk)
      as (w1 & Hstep & Hnow1 & Htim1 & Hopt1 & Hent1 & Hnext1 & Hpend1 & Hcols1).
    rewrite Hstep in E. eapply IH; [|exact E].
    assert (role_of (resume_action (Options.variant (options w)) c
                       (cell_update (columns w) c)) = Some CellRole) as Hrole.
    { unfold resume_action. destruct (Options.variant (options w)); [done|].
      destruct (Update.function (cell_update (columns w) c)) as [f|] eqn:Ef; [|done].
      by eapply Hinv. }
    apply (engine_inv_step w); try done.
    + lia.
    + intros i [t' Ht']. rewrite Hpend1 in Ht'. rewrite Hnext1.
      destruct (decide (i = nextHandle w)) as [->|Hne]; [lia|].
      rewrite lookup_insert_ne in Ht' by done.
      assert (i < nextHandle w)%nat; [|lia]. apply Hinv. by exists t'.
    + intros i t' Hi Ht'. rewrite Hpend1, lookup_insert_ne in Ht' by lia. by exists t'.
    + intros r h Hr. destruct r; simpl in Hr; rewrite ?Htim1 in Hr; try (by left).
      destruct Hr as [cell ->]. rewrite Hcols1.
      destruct (cell_update_alter_cases (with_timer (Some (nextHandle w))) c cell (columns w))
        as [->| ->].
      * left. by exists cell.
      * right. intros i [= <-]. rewrite Hnext1, Hpend1. split; [lia|].
        intros t. rewrite lookup_insert_eq. by intros [= <-].
    + intros cell f. rewrite Hcols1.
      destruct (cell_update_alter_cases (with_timer (Some (nextHandle w))) c cell (columns w))
        as [->| ->]; apply Hinv.
Qed.

Lemma inv_resume_columns : hoare engine_inv resume_columns (fun _ => engine_inv).
Proof.
  unfold resume_columns. hbind ltac:(apply hoare_gets_keep).
  apply hoare_for_each. intros top. apply inv_resume_loop.
Qed.

Lemma inv_resumeFunction onlyTop :
  hoare engine_inv (resumeFunction onlyTop) (fun _ => engine_inv).
Proof.
  unfold resumeFunction. hbind ltac:(apply inv_start).
  destruct onlyTop; simpl; [apply hoare_ret | apply inv_resume_columns].
Qed.

Lemma inv_resume o : hoare engine_inv (_resume o) (fun _ => engine_inv).
Proof.
  unfold _resume.
  hbind ltac:(apply hoare_gets_keep). hbind ltac:(apply hoare_clearTimeout).
  destruct (0 <? _); [|apply inv_resumeFunction].
  apply (inv_schedule_timer ResumeRole); [done|].
  intros w h [] h' Hrec; simpl in *; auto.
Qed.

Lemma inv_drawFunction delay duration imageData keep marginLeft width :
  hoare engine_inv (drawFunction delay duration imageData keep marginLeft width)
        (fun _ => engine_inv).
Proof.
  unfold drawFunction.
  hbind ltac:(apply hoare_gets_keep). hbind ltac:(apply inv_pause).
  match goal with |- hoare _ (match ?v with _ => _ end) _ => destruct v end.
  - hbind ltac:(apply hoare_setTimeout). hbind ltac:(apply inv_resume).
    destruct keep; [|apply hoare_ret].
    hbind ltac:(apply hoare_setTimeout). apply hoare_ret.
  - hbind ltac:(apply inv_resume). hbind ltac:(apply hoare_setTimeout). apply hoare_ret.
Qed.

Lemma inv_drawRefresh duration marginLeft width :
  hoare engine_inv (drawRefresh duration marginLeft width) (fun _ => engine_inv).
Proof.
  unfold drawRefresh.
  eapply (hoare_bind _ (fun _ => engine_inv)); [|intros ?].
  { intros w a w' Hinv E. unfold new_Array_fill in E.
    destruct (_ || _); [done|]. injection E as _ <-. done. }
  hbind ltac:(apply hoare_gets_keep). hbind ltac:(apply hoare_setInterval).
  hbind ltac:(apply hoare_setTimeout). apply hoare_ret.
Qed.

(** Every callback keeps the invariant. *)
Lemma inv_exec a : hoare engine_inv (exec a) (fun _ => engine_inv).
Proof.
  destruct a; simpl.
  - apply inv_updateCell.
  - apply hoare_ret.
  - apply inv_createDroplet.
  - apply inv_mainLoop.
  - apply inv_startFunction.
  - apply inv_pauseFunction.
  - apply hoare_clearTimeout.
  - apply inv_pauseAtOnce.
  - apply inv_resumeFunction.
  - apply inv_stopFunction.
  - apply inv_drawFunction.
  - apply inv_drawRefresh.
Qed.

(** The host firing a timer keeps the invariant: a timeout leaves the table,
    an interval is re-armed under its own id with its own callback. *)
Lemma inv_fire h : hoare engine_inv (fire h) (fun _ => engine_inv).
Proof.
  intros w a w' Hinv E. unfold fire in E.
  destruct (pending w !! h) as [t|] eqn:Et; [|by injection E as _ <-].
  eapply inv_exec; [|exact E].
  apply (engine_inv_step w); simpl; try done.
  - intros i [t' Ht']. apply Hinv.
    destruct (t_period t); [|rewrite lookup_delete in Ht'; case_decide; [done|by exists t']].
    destruct (decide (i = h)) as [->|Hne]; [by exists t|].
    rewrite lookup_insert_ne in Ht' by done. by exists t'.
  - intros i t' _ Ht'.
    destruct (t_period t); [|rewrite lookup_delete in Ht'; case_decide; [done|by exists t']].
    destruct (decide (i = h)) as [->|Hne].
    + rewrite lookup_insert_eq in Ht'. injection Ht' as <-. by exists t.
    + rewrite lookup_insert_ne in Ht' by done. by exists t'.
  - intros r h' Hr. left. by destruct r.
  - apply Hinv.
Qed.

Lemma inv_run fuel limit : hoare engine_inv (run fuel limit) (fun _ => engine_inv).
Proof.
  induction fuel as [|fuel IH]; [apply hoare_ret|]. simpl.
  hbind ltac:(apply hoare_gets_keep).
  match goal with |- hoare _ (match ?v with _ => _ end) _ => destruct v as [[h t]|] end;
    [|apply hoare_ret].
  destruct (_ <=? _); [|apply hoare_ret].
  hbind ltac:(apply inv_fire). apply IH.
Qed.

Lemma inv_sleep_until limit : hoare engine_inv (sleep_until limit) (fun _ => engine_inv).
Proof.
  intros w a w' Hinv [= _ <-]. apply (engine_inv_step w); simpl; try done.
  - apply Hinv.
  - intros i t' _ Ht'. by exists t'.
  - intros r h Hr. left. by destruct r.
  - apply Hinv.
Qed.

(** The composition of [imageData] reads and writes nothing of the monitor. *)
Lemma frame_throw {A} (P : World -> Prop) e : hoare P (@throw A e) (fun _ => P).
Proof. by intros w a w' _ E. Qed.

Lemma frame_new_Array_fill (P : World -> Prop) n v :
  hoare P (new_Array_fill n v) (fun _ => P).
Proof. unfold new_Array_fill. destruct (_ || _); [apply frame_throw|apply hoare_ret]. Qed.

Lemma frame_map_M {A B} (P : World -> Prop) (f : A -> M B) xs :
  (forall x, hoare P (f x) (fun _ => P)) -> hoare P (map_M f xs) (fun _ => P).
Proof.
  intros Hf. induction xs as [|x xs IH]; simpl; [apply hoare_ret|].
  eapply (hoare_bind _ (fun _ => P)); [apply Hf|intros y].
  eapply (hoare_bind _ (fun _ => P)); [apply IH|intros ys]. apply hoare_ret.
Qed.

Lemma frame_push_rows (P : World -> Prop) n (row : M (list jsval)) :
  hoare P row (fun _ => P) -> hoare P (push_rows n row) (fun _ => P).
Proof.
  intros Hr. induction n as [|n IH]; simpl; [apply hoare_ret|].
  eapply (hoare_bind _ (fun _ => P)); [apply Hr|intros r].
  eapply (hoare_bind _ (fun _ => P)); [apply IH|intros rs]. apply hoare_ret.
Qed.

Lemma frame_padding_row (P : World -> Prop) mL pL iw pR mR pc :
  hoare P (padding_row mL pL iw pR mR pc) (fun _ => P).
Proof.
  unfold padding_row.
  repeat (eapply (hoare_bind _ (fun _ => P)); [apply frame_new_Array_fill|intros ?]).
  apply hoare_ret.
Qed.

Lemma frame_image_row (P : World -> Prop) mL pL iw pR mR pc e :
  hoare P (image_row mL pL iw pR mR pc e) (fun _ => P).
Proof.
  unfold image_row.
  do 2 (eapply (hoare_bind _ (fun _ => P)); [apply frame_new_Array_fill|intros ?]).
  eapply (hoare_bind _ (fun _ => P)).
  { apply frame_map_M. intros j.
    eapply (hoare_bind _ (fun _ => P)); [|intros ?; apply hoare_ret].
    destruct e; simpl; [apply hoare_ret | apply hoare_ret | apply frame_throw]. }
  intros ?.
  repeat (eapply (hoare_bind _ (fun _ => P)); [apply frame_new_Array_fill|intros ?]).
  apply hoare_ret.
Qed.

Lemma frame_draw_imageData (P : World -> Prop) img o :
  hoare P (draw_imageData img o) (fun _ => P).
Proof.
  unfold draw_imageData.
  eapply (hoare_bind _ (fun _ => P)); [|intros rows].
  { destruct img as [s|rows|]; simpl; [apply hoare_ret| |apply frame_throw].
    destruct rows as [|[]]; first [apply hoare_ret | apply frame_throw]. }
  unfold compose.
  eapply (hoare_bind _ (fun _ => P)); [|intros lengths].
  { apply frame_map_M. intros []; simpl; first [apply hoare_ret | apply frame_throw]. }
  eapply (hoare_bind _ (fun _ => P));
    [apply frame_push_rows, frame_new_Array_fill|intros top].
  eapply (hoare_bind _ (fun _ => P)); [apply frame_push_rows, frame_padding_row|intros ptop].
  eapply (hoare_bind _ (fun _ => P)); [apply frame_map_M, frame_image_row|intros body].
  eapply (hoare_bind _ (fun _ => P)); [apply frame_push_rows, frame_padding_row|intros pbot].
  eapply (hoare_bind _ (fun _ => P));
    [apply frame_push_rows, frame_new_Array_fill|intros bot].
  apply hoare_ret.
Qed.

Lemma inv_draw img o : hoare engine_inv (_draw img o) (fun _ => engine_inv).
Proof.
  unfold _draw.
  eapply (hoare_bind _ (fun _ => engine_inv)); [apply frame_draw_imageData|intros ?].
  hbind ltac:(apply hoare_setTimeout). apply hoare_ret.
Qed.

Lemma cell_update_initial ncols nrows cell :
  cell_update (replicate ncols (replicate nrows new_cell)) cell = Update.initial.
Proof.
  unfold cell_update, lookup_cell. destruct cell as [x y]. simpl.
  destruct (replicate ncols (replicate nrows new_cell) !! x) as [col|] eqn:Ex; [|done].
  apply lookup_replicate in Ex as [-> _]. simpl.
  destruct (replicate nrows new_cell !! y) as [c|] eqn:Ey; [|done].
  by apply lookup_replicate in Ey as [-> _].
Qed.

(** A fresh monitor satisfies the invariant. *)
Lemma inv_initial_world cfg ncols nrows rnd :
  engine_inv (initial_world cfg ncols nrows rnd).
Proof.
  split; [|split].
  - intros i [t Ht]. simpl in Ht. by rewrite lookup_empty in Ht.
  - intros r h Hr i ->. exfalso. destruct r; simpl in Hr; try done.
    destruct Hr as [cell Hr]. by rewrite cell_update_initial in Hr.
  - intros cell f. simpl. by rewrite cell_update_initial.
Qed.

(** Under the invariant every id recorded in a cell was handed out by the
    host, which is what the droplet and pause statements ask of their
    starting state. *)
Lemma engine_inv_handles_issued w cells : engine_inv w -> handles_issued w cells.
Proof.
  intros (_ & Hrec & _) c h _ Hh.
  apply (Hrec CellRole (Some h)); [|done]. by exists c.
Qed.

(** Under the invariant a pending start timer is recorded in no cell and is
    none of the pause, resume, stop or cycle timers. *)
Lemma engine_inv_start_apart w i t :
  engine_inv w ->
  pending w !! i = Some t -> role_of (t_action t) = Some StartRole ->
  (forall cell, Update.timer (cell_update (columns w) cell) <> Some i) /\
  Timers.mainLoopInterval (timers w) <> Some i /\
  Timers.pause (timers w) <> Some i /\
  Timers.resume (timers w) <> Some i /\
  Timers.stop (timers w) <> Some i.
Proof.
  intros (_ & Hrec & _) Ht Hrole.
  assert (forall r, r <> StartRole -> ~ recorded w r (Some i)) as Hno.
  { intros r Hr Hi. destruct (Hrec r (Some i) Hi i eq_refl) as [_ Hok].
    specialize (Hok t Ht). congruence. }
  split; [|repeat split].
  - intros cell Hc. apply (Hno CellRole); [done|]. by exists cell.
  - intros Hc. by apply (Hno CycleRole).
  - intros Hc. by apply (Hno PauseRole).
  - intros Hc. by apply (Hno ResumeRole).
  - intros Hc. by apply (Hno StopRole).
Qed.

Lemma inv_event e : hoare engine_inv (event e) (fun _ => engine_inv).
Proof.
  destruct e; simpl;
    [apply inv_start | apply inv_stop | apply inv_pause | apply inv_resume
    | apply inv_draw | apply inv_run | apply inv_sleep_until].
Qed.

(** Every world a fresh monitor reaches satisfies the invariant. *)
Lemma reachable_inv cfg ncols nrows rnd w :
  reachable (initial_world cfg ncols nrows rnd) w -> engine_inv w.
Proof.
  induction 1 as [|e w w' _ IH E]; [apply inv_initial_world|].
  by eapply inv_event.
Qed.

(** So in every such world the ids recorded in the cells were handed out by
    the host. *)
Lemma reachable_handles_issued cfg ncols nrows rnd w cells :
  reachable (initial_world cfg ncols nrows rnd) w -> handles_issued w cells.
Proof. intros Hr. eapply engine_inv_handles_issued, reachable_inv, Hr. Qed.

(** * Further properties of the code *)

(** ** Random numbers, whatever the order of the bounds *)

(** X1: [random(from, to)] on integer bounds uses up one random number and
    returns an integer between the bounds, both included, whichever way
    round the bounds are given. *)
Theorem random_between_bounds (from to : Z) (w : World) :
  unit_interval (hd 0%Q (entropy w)) ->
  exists r,
    random (inject_Z from) (inject_Z to) w = Ok r (set_entropy (tl (entropy w)) w) /\
    (from <= to -> from <= r <= to) /\
    (to <= from -> to <= r <= from).
Proof.
  intros [H0 H1]. eexists. split; [reflexivity|].
  set (u := hd 0%Q (entropy w)) in *. unfold random_of.
  split.
  - intros Hle. rewrite Zle_Qle in Hle. split.
    + apply Qfloor_ge_Z. nra.
    + apply Qfloor_le_Z. nra.
  - intros Hle. rewrite Zle_Qle in Hle. split.
    + apply Qfloor_ge_Z. nra.
    + apply Qfloor_le_Z. nra.
Qed.

Lemma random_between_bounds_witness :
  exists r,
    random (inject_Z 200) (inject_Z 800)
           (initial_world (default_options Full "AB") 1 1 [1 # 2]%Q)
    = Ok r (set_entropy (tl (entropy (initial_world (default_options Full "AB") 1 1 [1 # 2]%Q)))
              (initial_world (default_options Full "AB") 1 1 [1 # 2]%Q)) /\
    (200 <= 800 -> 200 <= r <= 800) /\
    (800 <= 200 -> 800 <= r <= 200).
Proof.
  apply (random_between_bounds 200 800
           (initial_world (default_options Full "AB") 1 1 [1 # 2]%Q)).
  split; [unfold Qle | unfold Qlt]; simpl; lia.
Defined.

(** ** The glyph source on long and short alphabets *)

Lemma length_list_ascii_of_string (s : string) :
  length (list_ascii_of_string s) = String.length s.
Proof. induction s as [|a s IH]; simpl; congruence. Qed.

(** The index [getRandomChar] draws lies inside a non-empty alphabet. *)
Lemma random_index_bounds (alphabet : string) (u : Q) :
  unit_interval u -> (1 <= String.length alphabet)%nat ->
  0 <= random_of 0 (lastIndexOnRandom alphabet) u < Z.of_nat (String.length alphabet).
Proof.
  intros [H0 H1] Hlen. unfold random_of, lastIndexOnRandom.
  assert (1 <= inject_Z (Z.of_nat (String.length alphabet)))%Q as Hn.
  { change 1%Q with (inject_Z 1). rewrite <- Zle_Qle. lia. }
  set (n := inject_Z (Z.of_nat (String.length alphabet))) in *.
  assert (0 <= u * (n - (1 # 1000000) - 0))%Q as Hlo.
  { apply Qmult_le_0_compat; [done|]. lra. }
  assert (u * (n - (1 # 1000000) - 0) <= 1 * (n - (1 # 1000000) - 0))%Q as Hhi.
  { apply Qmult_le_compat_r; [by apply Qlt_le_weak|]. lra. }
  split.
  - apply Qfloor_ge_Z. change (inject_Z 0) with 0%Q. lra.
  - apply Qfloor_lt_Z. fold n. lra.
Qed.

Lemma js_charAt_glyph (alphabet : string) (i : Z) :
  0 <= i < Z.of_nat (String.length alphabet) ->
  exists a, js_charAt alphabet i = JStr (String a EmptyString) /\
            a ∈ list_ascii_of_string alphabet.
Proof.
  intros Hi. unfold js_charAt.
  destruct (Z.ltb_spec i 0) as [|_]; [lia|]. rewrite string_get_nth.
  destruct (list_ascii_of_string alphabet !! Z.to_nat i) as [a|] eqn:Ea.
  - exists a. split; [done|]. by eapply list_elem_of_lookup_2.
  - apply lookup_ge_None in Ea. rewrite length_list_ascii_of_string in Ea. lia.
Qed.

Lemma js_charAt_past_end (alphabet : string) (i : Z) :
  Z.of_nat (String.length alphabet) <= i -> js_charAt alphabet i = JUndefined.
Proof.
  intros Hi. unfold js_charAt. destruct (i <? 0); [done|]. rewrite string_get_nth.
  destruct (list_ascii_of_string alphabet !! Z.to_nat i) as [a|] eqn:Ea; [|done].
  apply lookup_lt_Some in Ea. rewrite length_list_ascii_of_string in Ea. lia.
Qed.

(** X2: on an alphabet of at least two glyphs [getRandomChar] always returns
    a glyph of the alphabet (never [undefined]), whatever glyph it is asked
    to avoid, and uses up exactly one random number. *)
Theorem getRandomChar_returns_glyph (w : World) (except : jsval) :
  (2 <= String.length (Options.alphabet (options w)))%nat ->
  unit_interval (hd 0%Q (entropy w)) ->
  exists a,
    getRandomChar except w
    = Ok (JStr (String a EmptyString)) (set_entropy (tl (entropy w)) w) /\
    a ∈ list_ascii_of_string (Options.alphabet (options w)).
Proof.
  intros Hlen Hu. rewrite getRandomChar_run.
  set (alphabet := Options.alphabet (options w)) in *.
  pose proof (random_index_bounds alphabet _ Hu ltac:(lia)) as Hidx.
  set (index := random_of 0 (lastIndexOnRandom alphabet) (hd 0%Q (entropy w))) in *.
  unfold getRandomChar_at.
  destruct (truthy except && strict_eq except (js_charAt alphabet index)).
  - destruct (index =? 0); simpl.
    + destruct (js_charAt_glyph alphabet 1 ltac:(lia)) as (a & -> & Ha). by exists a.
    + destruct (js_charAt_glyph alphabet 0 ltac:(lia)) as (a & -> & Ha). by exists a.
  - destruct (js_charAt_glyph alphabet index Hidx) as (a & -> & Ha). by exists a.
Qed.

Lemma getRandomChar_returns_glyph_witness :
  exists a,
    getRandomChar (JStr "A") (initial_world (default_options Full "AB") 1 1 [1 # 4]%Q)
    = Ok (JStr (String a EmptyString))
         (set_entropy (tl (entropy (initial_world (default_options Full "AB") 1 1 [1 # 4]%Q)))
            (initial_world (default_options Full "AB") 1 1 [1 # 4]%Q)) /\
    a ∈ list_ascii_of_string "AB".
Proof.
  apply (getRandomChar_returns_glyph
           (initial_world (default_options Full "AB") 1 1 [1 # 4]%Q) (JStr "A")).
  - simpl. lia.
  - split; [unfold Qle | unfold Qlt]; simpl; lia.
Defined.

(** X3: on an alphabet of fewer than two glyphs the substitution has nothing
    to fall back on: asked to avoid the only glyph, [getRandomChar] returns
    [undefined]; otherwise it returns the only glyph ([undefined] when the
    alphabet is empty). *)
Theorem getRandomChar_short_alphabet (w : World) (except : jsval) :
  (String.length (Options.alphabet (options w)) <= 1)%nat ->
  unit_interval (hd 0%Q (entropy w)) ->
  getRandomChar except w
  = Ok (if truthy except && strict_eq except (js_charAt (Options.alphabet (options w)) 0)
        then JUndefined else js_charAt (Options.alphabet (options w)) 0)
       (set_entropy (tl (entropy w)) w).
Proof.
  intros Hlen Hu. rewrite getRandomChar_run. f_equal.
  set (alphabet := Options.alphabet (options w)) in *.
  unfold getRandomChar_at.
  destruct (decide (String.length alphabet = 0%nat)) as [H0|H0].
  - assert (forall i, js_charAt alphabet i = JUndefined) as Hnone.
    { intros i. unfold js_charAt. destruct (i <? 0); [done|].
      destruct alphabet; [by destruct (Z.to_nat i)|done]. }
    rewrite !Hnone. by repeat case_match.
  - pose proof (random_index_bounds alphabet _ Hu ltac:(lia)) as Hidx.
    assert (random_of 0 (lastIndexOnRandom alphabet) (hd 0%Q (entropy w)) = 0) as -> by lia.
    simpl. rewrite (js_charAt_past_end alphabet 1) by lia. done.
Qed.

Lemma getRandomChar_short_alphabet_witness :
  getRandomChar (JStr "A") (initial_world (default_options Full "A") 1 1 [1 # 4]%Q)
  = Ok (if truthy (JStr "A") && strict_eq (JStr "A") (js_charAt "A" 0)
        then JUndefined else js_charAt "A" 0)
       (set_entropy (tl (entropy (initial_world (default_options Full "A") 1 1 [1 # 4]%Q)))
          (initial_world (default_options Full "A") 1 1 [1 # 4]%Q)).
Proof.
  apply (getRandomChar_short_alphabet
           (initial_world (default_options Full "A") 1 1 [1 # 4]%Q) (JStr "A")).
  - simpl. lia.
  - split; [unfold Qle | unfold Qlt]; simpl; lia.
Defined.

(** ** The table the main loop hands to the droplets *)

Lemma js_set_lookup {A} (hole : A) (a : list A) (i : nat) (x : A) (k : nat) :
  default hole (js_set hole a i x !! k)
  = if decide (k = i) then x else default hole (a !! k).
Proof.
  unfold js_set. destruct (decide (i < length a)%nat) as [Hi|Hi].
  - destruct (decide (k = i)) as [->|Hne].
    + by rewrite list_lookup_insert_eq.
    + by rewrite list_lookup_insert_ne.
  - destruct (decide (k < length a)%nat) as [Hk|Hk].
    + rewrite lookup_app_l by done. destruct (decide (k = i)); [lia|done].
    + rewrite lookup_app_r by lia.
      rewrite (lookup_ge_None_2 a k) by lia. simpl.
      destruct (decide (k = i)) as [->|Hne].
      * rewrite lookup_app_r by (rewrite length_replicate; lia).
        rewrite length_replicate. by replace (i - length a - (i - length a))%nat with 0%nat by lia.
      * destruct (decide (k < i)%nat) as [Hlt|Hge].
        -- rewrite lookup_app_l by (rewrite length_replicate; lia).
           by rewrite lookup_replicate_2 by lia.
        -- rewrite lookup_ge_None_2; [done|].
           rewrite length_app, length_replicate. simpl. lia.
Qed.

Lemma transpose_row_entry (i : nat) (row : list jsval) (tbl : list (list jsval)) (j k : nat) :
  js_index (default [] (transpose_row i row tbl !! j)) k
  = if decide (k = i /\ (j < length row)%nat) then js_index row j
    else js_index (default [] (tbl !! j)) k.
Proof.
  unfold transpose_row. generalize (length row) as n.
  induction n as [|n IH].
  - simpl. destruct (decide _) as [[_ ?]|]; [lia|done].
  - rewrite seq_S, foldl_app. simpl.
    set (tbl' := foldl _ tbl (seq 0 n)) in *.
    rewrite js_set_lookup. unfold js_index at 1.
    destruct (decide (j = n)) as [->|Hjn].
    + rewrite js_set_lookup. destruct (decide (k = i)) as [->|Hki].
      * clear IH. destruct (decide (i = i /\ (n < S n)%nat)) as [|Hn]; [done|].
        exfalso. apply Hn. split; [done|lia].
      * fold (js_index (default [] (tbl' !! n)) k). rewrite IH.
        destruct (decide (k = i /\ (n < n)%nat)) as [[? _]|]; [done|].
        destruct (decide (k = i /\ (n < S n)%nat)) as [[? _]|]; done.
    + fold (js_index (default [] (tbl' !! j)) k). rewrite IH.
      destruct (decide (k = i /\ (j < n)%nat)) as [[-> ?]|Hn1];
        destruct (decide (_ /\ (j < S n)%nat)) as [[? ?]|Hn2]; try done; try lia;
        exfalso; first [apply Hn2 | apply Hn1]; split; first [done | lia].
Qed.

(** [charTableByColumn[j][i]] is [charTable[i][j]]. *)
Lemma transpose_get (charTable : list (option (list jsval))) (i j : nat) :
  js_index (default [] (transpose charTable !! j)) i
  = match charTable !! i with
    | Some (Some row) => js_index row j
    | _ => JUndefined
    end.
Proof.
  unfold transpose. revert i.
  induction charTable as [|r l IH] using rev_ind; intros i.
  - by destruct i, j.
  - rewrite imap_app, foldl_app. simpl. rewrite Nat.add_0_r.
    set (tbl := foldl _ [] (imap _ l)) in *.
    destruct r as [row|].
    + rewrite transpose_row_entry.
      destruct (decide (i = length l /\ (j < length row)%nat)) as [[-> Hj]|Hn].
      * by rewrite list_lookup_middle.
      * rewrite IH. destruct (decide (i < length l)%nat) as [Hi|Hi].
        -- by rewrite lookup_app_l.
        -- rewrite (lookup_ge_None_2 l i) by lia.
           destruct (decide (i = length l)) as [->|Hne].
           ++ rewrite list_lookup_middle by done. unfold js_index.
              rewrite lookup_ge_None_2; [done|]. lia.
           ++ rewrite lookup_ge_None_2; [done|]. rewrite length_app. simpl. lia.
    + rewrite IH. destruct (decide (i < length l)%nat) as [Hi|Hi].
      * by rewrite lookup_app_l.
      * rewrite (lookup_ge_None_2 l i) by lia.
        destruct (decide (i = length l)) as [->|Hne].
        -- by rewrite list_lookup_middle.
        -- rewrite lookup_ge_None_2; [done|]. rewrite length_app. simpl. lia.
Qed.

(** X4: the per-column table [mainLoop] hands to its droplets is the
    transposition of [charTable], entry by entry: unless [clearScreen] is
    set, [charTableByColumn[j][i]] is [charTable[i][j]] when row [i] is an
    array, and [undefined] when row [i] is not an array or is missing (a
    ragged table and skipped rows leave [undefined] entries); with
    [clearScreen] the table is not read and every entry is [undefined]. *)
Theorem transpose_entry (o : MainLoopOptions) (i j : nat) :
  js_index (default [] (charTableByColumn o !! j)) i
  = if m_clearScreen o then JUndefined
    else match m_charTable o !! i with
         | Some (Some row) => js_index row j
         | _ => JUndefined
         end.
Proof.
  unfold charTableByColumn. destruct (m_clearScreen o); simpl.
  - by destruct i, j.
  - destruct (m_charTable o) as [|r rows] eqn:E.
    + by destruct i, j.
    + change (0 <? Z.of_nat (length (r :: rows))) with true. cbv iota.
      apply transpose_get.
Qed.

(** ** What one run of the main loop queues *)

Lemma spawned_cons_ignored ign i l :
  Z.of_nat i ∈ ign -> spawned ign (i :: l) = spawned ign l.
Proof. intros Hi. unfold spawned. by rewrite filter_cons_False by naive_solver. Qed.

Lemma spawned_cons_kept ign i l :
  Z.of_nat i ∉ ign -> spawned ign (i :: l) = S (spawned ign l).
Proof. intros Hi. unfold spawned. by rewrite filter_cons_True. Qed.

Lemma drop_S_tl {A} (n : nat) (l : list A) : drop (S n) l = drop n (tl l).
Proof. destruct l; simpl; [by rewrite drop_nil|done]. Qed.

(** The loop of [mainLoop] over the index/top-cell pairs [ics]: the [k]-th
    pair that is not ignored gets the next timer id and the next random
    number. *)
Lemma mainLoop_loop_spec (cfg : Options.t) (o : MainLoopOptions) (tbl : list (list jsval)) :
  forall (ics : list (nat * cellref)) (w : World),
    NoDup ics.*2 ->
    exists w',
      for_each ics
        (fun ic =>
           if bool_decide (Z.of_nat ic.1 ∈ m_ignoreColumns o) then ret tt
           else
             delay <- random (inject_Z (Options.minCharStartDelay cfg))
                             (inject_Z (Options.maxCharStartDelay cfg)) ;;
             h <- setTimeout (CreateDroplet ic.2
                                {| d_clearScreen := m_clearScreen o;
                                   d_charList := default [] (tbl !! ic.1) |})
                             delay ;;
             set_update ic.2 (with_timer (Some h))) w = Ok tt w' /\
      now w' = now w /\ timers w' = timers w /\ options w' = options w /\
      nextHandle w' = (nextHandle w + spawned (m_ignoreColumns o) ics.*1)%nat /\
      entropy w' = drop (spawned (m_ignoreColumns o) ics.*1) (entropy w) /\
      (forall h, (h < nextHandle w)%nat -> pending w' !! h = pending w !! h) /\
      (forall c, c ∉ ics.*2 -> lookup_cell (columns w') c = lookup_cell (columns w) c) /\
      (forall k i c, ics !! k = Some (i, c) ->
         if bool_decide (Z.of_nat i ∈ m_ignoreColumns o)
         then lookup_cell (columns w') c = lookup_cell (columns w) c
         else
           let n := spawned (m_ignoreColumns o) (take k ics).*1 in
           lookup_cell (columns w') c
           = ((fun cl => {| update := with_timer (Some (nextHandle w + n)%nat) (update cl);
                            innerText := innerText cl |}) <$> lookup_cell (columns w) c) /\
           pending w' !! (nextHandle w + n)%nat
           = Some (timeout_task (now w)
                     (random_of (inject_Z (Options.minCharStartDelay cfg))
                                (inject_Z (Options.maxCharStartDelay cfg))
                                (hd 0%Q (drop n (entropy w))))
                     (CreateDroplet c {| d_clearScreen := m_clearScreen o;
                                         d_charList := default [] (tbl !! i) |}))) /\
      (forall h, (nextHandle w <= h)%nat -> is_Some (pending w' !! h) ->
         is_Some (pending w !! h) \/
         exists k i c, ics !! k = Some (i, c) /\ (Z.of_nat i ∉ m_ignoreColumns o) /\
                       h = (nextHandle w + spawned (m_ignoreColumns o) (take k ics).*1)%nat).
Proof.
  induction ics as [|[i c] rest IH]; intros w Hnd.
  - exists w. simpl. rewrite Nat.add_0_r.
    repeat split; try done. intros h _ Hh. by left.
  - apply NoDup_cons in Hnd as [Hc Hnd]. simpl.
    change (list_fmap (nat * cellref)%type nat fst rest) with (rest.*1) in *.
    change (list_fmap (nat * cellref)%type cellref snd rest) with (rest.*2) in *.
    destruct (decide (Z.of_nat i ∈ m_ignoreColumns o)) as [Hi|Hi].
    + rewrite (bool_decide_eq_true_2 _ Hi).
      destruct (IH w Hnd) as (w' & Hrun & Hnow & Htim & Hopt & Hnext & Hent & Hold & Hcols & Hcell & Hnew).
      exists w'.
      rewrite spawned_cons_ignored by done.
      split; [exact Hrun|]. repeat (split; [done|]).
      split; [intros c' Hc'; apply Hcols; by apply not_elem_of_cons in Hc' as [_ ?]|].
      split.
      * intros [|k] i' c' Hk; simpl in Hk.
        -- injection Hk as <- <-. rewrite (bool_decide_eq_true_2 _ Hi). by apply Hcols.
        -- simpl. rewrite spawned_cons_ignored by done. by apply Hcell.
      * intros h Hge Hh. destruct (Hnew h Hge Hh) as [?|(k & i' & c' & Hk & Hi' & ->)]; [by left|].
        right. exists (S k), i', c'. simpl. by rewrite spawned_cons_ignored.
    + rewrite (bool_decide_eq_false_2 _ Hi).
      set (task := timeout_task (now w)
                     (random_of (inject_Z (Options.minCharStartDelay cfg))
                                (inject_Z (Options.maxCharStartDelay cfg))
                                (hd 0%Q (entropy w)))
                     (CreateDroplet c {| d_clearScreen := m_clearScreen o;
                                         d_charList := default [] (tbl !! i) |})).
      set (w1 := set_columns
                   (alter_cell (fun cl => {| update := with_timer (Some (nextHandle w)) (update cl);
                                             innerText := innerText cl |}) c (columns w))
                   (set_pending (<[(nextHandle w) := task]> (pending w)) (S (nextHandle w))
                      (set_entropy (tl (entropy w)) w))).
      destruct (IH w1 Hnd) as (w' & Hrun & Hnow & Htim & Hopt & Hnext & Hent & Hold & Hcols & Hcell & Hnew).
      change (nextHandle w1) with (S (nextHandle w)) in *.
      change (now w1) with (now w) in *.
      change (entropy w1) with (tl (entropy w)) in *.
      change (pending w1) with (<[(nextHandle w) := task]> (pending w)) in *.
      change (columns w1)
        with (alter_cell (fun cl => {| update := with_timer (Some (nextHandle w)) (update cl);
                                       innerText := innerText cl |}) c (columns w)) in *.
      assert (forall k i' c', rest !! k = Some (i', c') -> c <> c') as Hfresh.
      { intros k i' c' Hk ->. apply Hc. apply list_elem_of_fmap. exists (i', c').
        split; [done|]. by eapply list_elem_of_lookup_2. }
      exists w'.
      rewrite spawned_cons_kept by done.
      split; [exact Hrun|]. repeat (split; [done|]).
      split; [lia|].
      split; [by rewrite Hent, drop_S_tl|].
      split.
      { intros h Hh. rewrite Hold by lia. apply lookup_insert_ne. lia. }
      split.
      { intros c' Hc'. apply not_elem_of_cons in Hc' as [Hne ?]. rewrite Hcols by done.
        by apply lookup_cell_alter_ne. }
      split.
      * intros [|k] i' c' Hk.
        -- injection Hk as <- <-. rewrite (bool_decide_eq_false_2 _ Hi).
           change (spawned (m_ignoreColumns o) (take 0 ((i, c) :: rest)).*1) with 0%nat.
           cbv zeta. rewrite Nat.add_0_r. split.
           ++ rewrite Hcols by done. apply lookup_cell_alter_eq.
           ++ rewrite Hold by lia. apply lookup_insert_eq.
        -- change (((i, c) :: rest) !! S k) with (rest !! k) in Hk.
           specialize (Hcell k i' c' Hk). destruct (bool_decide _).
           ++ rewrite Hcell. apply lookup_cell_alter_ne. by eapply Hfresh.
           ++ cbv zeta in *.
              change (take (S k) ((i, c) :: rest)).*1 with (i :: (take k rest).*1).
              rewrite spawned_cons_kept by done.
              destruct Hcell as [Hcl Hp].
              replace (nextHandle w + S (spawned (m_ignoreColumns o) (take k rest).*1))%nat
                with (S (nextHandle w) + spawned (m_ignoreColumns o) (take k rest).*1)%nat
                by lia.
              split.
              ** rewrite Hcl. f_equal. apply lookup_cell_alter_ne. by eapply Hfresh.
              ** rewrite Hp. by rewrite drop_S_tl.
      * intros h Hge Hh. destruct (decide (h = nextHandle w)) as [->|Hne].
        { right. exists 0%nat, i, c.
          change (spawned (m_ignoreColumns o) (take 0 ((i, c) :: rest)).*1) with 0%nat.
          split; [done|]. split; [done|]. lia. }
        destruct (Hnew h) as [Hp|(k & i' & c' & Hk & Hi' & ->)];
          [lia|done| |].
        -- left. by rewrite lookup_insert_ne in Hp.
        -- right. exists (S k), i', c'.
           change (take (S k) ((i, c) :: rest)).*1 with (i :: (take k rest).*1).
           rewrite spawned_cons_kept by done.
           split; [done|]. split; [done|]. lia.
Qed.

Lemma imap_pair_fst {A} (l : list A) : forall k, (imap (fun i c => ((k + i)%nat, c)) l).*1 = seq k (length l).
Proof.
  induction l as [|x l IH]; intros k; [done|]. simpl. rewrite Nat.add_0_r. f_equal.
  rewrite <- (IH (S k)). f_equal. apply imap_ext. intros i y _. simpl. f_equal. lia.
Qed.

Lemma imap_pair_snd {A} (l : list A) : forall k, (imap (fun i c => ((k + i)%nat, c)) l).*2 = l.
Proof.
  induction l as [|x l IH]; intros k; [done|]. simpl. f_equal.
  rewrite <- (IH (S k)) at 2. f_equal. apply imap_ext. intros i y _. simpl. f_equal. lia.
Qed.

Lemma imap_index_fst {A} (l : list A) : (imap (fun i c => (i, c)) l).*1 = seq 0 (length l).
Proof. exact (imap_pair_fst l 0). Qed.

Lemma imap_index_snd {A} (l : list A) : (imap (fun i c => (i, c)) l).*2 = l.
Proof. exact (imap_pair_snd l 0). Qed.

Lemma take_imap_pair_fst {A} (l : list A) (k : nat) :
  (k <= length l)%nat -> (take k (imap (fun i c => (i, c)) l)).*1 = seq 0 k.
Proof.
  intros Hk. rewrite fmap_take.
  rewrite imap_index_fst. by rewrite take_seq, Nat.min_l.
Qed.

Lemma unit_interval_drop (l : list Q) (n : nat) :
  Forall unit_interval l -> unit_interval (hd 0%Q (drop n l)).
Proof.
  intros Hl. destruct (drop n l) as [|u rest] eqn:E.
  - split; [unfold Qle | unfold Qlt]; simpl; lia.
  - simpl. eapply Forall_forall; [exact Hl|].
    eapply (subseteq_drop n). rewrite E. by left.
Qed.

(** X5: one run of [mainLoop] queues exactly one [createDroplet] per top cell
    whose index is not in [ignoreColumns], in index order, each with its own
    random start delay (within the configured bounds when these are in
    order) and with column [i] of the transposed [charTable] as its glyph
    list; it records the new timer id in the top cell, cancels no timer,
    and leaves ignored columns and all other cells as they were. *)
Theorem mainLoop_schedules_droplets (o : MainLoopOptions) (w : World) :
  exists w',
    mainLoop o w = Ok tt w' /\
    now w' = now w /\ timers w' = timers w /\ options w' = options w /\
    nextHandle w'
    = (nextHandle w
       + spawned (m_ignoreColumns o) (seq 0 (length (monitor_topCells (columns w)))))%nat /\
    (forall h, (h < nextHandle w)%nat -> pending w' !! h = pending w !! h) /\
    (forall c, c ∉ monitor_topCells (columns w) ->
               lookup_cell (columns w') c = lookup_cell (columns w) c) /\
    (forall i c, monitor_topCells (columns w) !! i = Some c ->
       if bool_decide (Z.of_nat i ∈ m_ignoreColumns o)
       then lookup_cell (columns w') c = lookup_cell (columns w) c
       else exists d,
         let h := (nextHandle w + spawned (m_ignoreColumns o) (seq 0 i))%nat in
         cell_update (columns w') c = with_timer (Some h) (cell_update (columns w) c) /\
         innerText <$> lookup_cell (columns w') c = innerText <$> lookup_cell (columns w) c /\
         pending w' !! h
         = Some (timeout_task (now w) d
                   (CreateDroplet c {| d_clearScreen := m_clearScreen o;
                                       d_charList := default [] (charTableByColumn o !! i) |})) /\
         (Forall unit_interval (entropy w) ->
          Options.minCharStartDelay (options w) <= Options.maxCharStartDelay (options w) ->
          Options.minCharStartDelay (options w) <= d
          <= Options.maxCharStartDelay (options w))) /\
    (forall h, (nextHandle w <= h)%nat -> is_Some (pending w' !! h) ->
       is_Some (pending w !! h) \/
       exists i c, monitor_topCells (columns w) !! i = Some c /\
                   (Z.of_nat i ∉ m_ignoreColumns o) /\
                   h = (nextHandle w + spawned (m_ignoreColumns o) (seq 0 i))%nat).
Proof.
  set (tops := monitor_topCells (columns w)).
  destruct (mainLoop_loop_spec (options w) o (charTableByColumn o)
              (imap (fun i c => (i, c)) tops) w)
    as (w' & Hrun & Hnow & Htim & Hopt & Hnext & _ & Hold & Hcols & Hcell & Hnew).
  { rewrite imap_index_snd. apply monitor_topCells_NoDup. }
  rewrite imap_index_fst in Hnext. rewrite imap_index_snd in Hcols.
  exists w'. split; [exact Hrun|]. do 4 (split; [done|]).
  split; [exact Hold|]. split; [exact Hcols|]. split.
  - intros i c Hi.
    assert (imap (fun i c => (i, c)) tops !! i = Some (i, c)) as Hic
        by (by rewrite list_lookup_imap, Hi).
    specialize (Hcell i i c Hic). destruct (bool_decide _); [done|].
    cbv zeta in Hcell.
    rewrite take_imap_pair_fst in Hcell by (apply lookup_lt_Some in Hi; lia).
    destruct Hcell as [Hcl Hp]. eexists. cbv zeta.
    assert (is_Some (lookup_cell (columns w) c)) as [cl Ecl].
    { apply (monitor_topCells_elem (columns w) c). by eapply list_elem_of_lookup_2. }
    split; [|split; [|split]].
    + unfold cell_update. by rewrite Hcl, Ecl.
    + by rewrite Hcl, Ecl.
    + exact Hp.
    + intros Hent Hle. apply random_of_bounds; [|done]. by apply unit_interval_drop.
  - intros h Hge Hh. destruct (Hnew h Hge Hh) as [?|(k & i & c & Hk & Hi & ->)]; [by left|].
    right. rewrite list_lookup_imap in Hk.
    destruct (tops !! k) as [c'|] eqn:Ek; [|done]. injection Hk as <- <-.
    exists k, c'. rewrite take_imap_pair_fst by (apply lookup_lt_Some in Ek; lia). done.
Qed.

(** ** Stop *)

Lemma random_of_lt (from to : Z) (u : Q) :
  unit_interval u -> from < to ->
  from <= random_of (inject_Z from) (inject_Z to) u < to.
Proof.
  intros [H0 H1] Hlt. rewrite Zlt_Qlt in Hlt. unfold random_of. split.
  - apply Qfloor_ge_Z. nra.
  - apply Qfloor_lt_Z. nra.
Qed.

(** The loop of [stopFunction] that queues the clearing droplets: top cell
    number [k] gets timer id [nextHandle + k] and random number [k]. *)
Lemma clear_droplets_spec tops : forall w,
  exists w',
    for_each tops
      (fun topCell =>
         dropletDelay <- random 200 2000 ;;
         setTimeout (CreateDroplet topCell {| d_clearScreen := true; d_charList := [] |})
                    dropletDelay ;;
         ret tt) w = Ok tt w' /\
    now w' = now w /\ nextHandle w' = (nextHandle w + length tops)%nat /\
    entropy w' = drop (length tops) (entropy w) /\
    columns w' = columns w /\ timers w' = timers w /\ options w' = options w /\
    (forall k top, tops !! k = Some top ->
       pending w' !! (nextHandle w + k)%nat
       = Some (timeout_task (now w)
                 (random_of (inject_Z 200) (inject_Z 2000) (hd 0%Q (drop k (entropy w))))
                 (CreateDroplet top {| d_clearScreen := true; d_charList := [] |}))) /\
    (forall h, (h < nextHandle w)%nat -> pending w' !! h = pending w !! h).
Proof.
  induction tops as [|c rest IH]; intros w.
  - exists w. simpl. repeat split; try done; lia.
  - pose (w1 := set_pending
                  (<[nextHandle w :=
                       timeout_task (now w)
                         (random_of (inject_Z 200) (inject_Z 2000) (hd 0%Q (entropy w)))
                         (CreateDroplet c {| d_clearScreen := true; d_charList := [] |})]>
                     (pending w))
                  (S (nextHandle w)) (set_entropy (tl (entropy w)) w)).
    destruct (IH w1) as (w' & Hrun & Hnow & Hnext & Hent & Hcols & Htim & Hopt & Htasks & Hkeep).
    exists w'. split; [exact Hrun|]. rewrite Hnow, Hnext, Hent, Hcols, Htim, Hopt. simpl.
    split; [done|]. split; [lia|].
    split; [destruct (entropy w); simpl; [by rewrite drop_nil|done]|].
    split; [done|]. split; [done|]. split; [done|]. split.
    + intros [|k] cell Hk; simpl in Hk.
      * injection Hk as <-. rewrite Hkeep by (simpl; lia). simpl.
        rewrite Nat.add_0_r. apply lookup_insert_eq.
      * replace (nextHandle w + S k)%nat with (nextHandle w1 + k)%nat by (simpl; lia).
        rewrite (Htasks k cell Hk). simpl.
        destruct (entropy w); simpl; [by rewrite drop_nil|done].
    + intros h Hh. rewrite Hkeep by (simpl; lia). simpl. apply lookup_insert_ne. lia.
Qed.

Lemma lookup_cancel_Some h i (p : gmap nat Task) t :
  cancel h p !! i = Some t -> p !! i = Some t.
Proof.
  destruct h as [j|]; simpl; [|done]. rewrite lookup_delete. by case_decide.
Qed.

Lemma cancel_cells_Some cols cells : forall p h t,
  cancel_cells cols cells p !! h = Some t -> p !! h = Some t.
Proof.
  induction cells as [|c0 rest IH]; intros p h t Hp; [done|].
  unfold cancel_cells in *. simpl in Hp. apply IH in Hp. by eapply lookup_cancel_Some.
Qed.

(** What [stopFunction] leaves of the timer table. *)
Lemma stopFunction_spec clearScreen w :
  exists w',
    stopFunction clearScreen w = Ok tt w' /\
    now w' = now w /\ columns w' = columns w /\ timers w' = timers w /\
    options w' = options w /\
    nextHandle w'
    = (nextHandle w
       + if clearScreen then length (monitor_topCells (columns w)) else 0)%nat /\
    entropy w'
    = drop (if clearScreen then length (monitor_topCells (columns w)) else 0) (entropy w) /\
    (forall h, (h < nextHandle w)%nat ->
       pending w' !! h
       = cancel_cells (columns w) (monitor_cells (columns w))
           (cancel (Timers.mainLoopInterval (timers w)) (pending w)) !! h) /\
    (clearScreen = false ->
     pending w' = cancel_cells (columns w) (monitor_cells (columns w))
                    (cancel (Timers.mainLoopInterval (timers w)) (pending w))) /\
    (clearScreen = true ->
     forall k top, monitor_topCells (columns w) !! k = Some top ->
       pending w' !! (nextHandle w + k)%nat
       = Some (timeout_task (now w)
                 (random_of (inject_Z 200) (inject_Z 2000) (hd 0%Q (drop k (entropy w))))
                 (CreateDroplet top {| d_clearScreen := true; d_charList := [] |}))).
Proof.
  unfold stopFunction.
  erewrite (bind_Ok (gets _)); [|reflexivity].
  erewrite (bind_Ok (clearInterval _)); [|reflexivity].
  set (wc := set_pending _ _ w).
  erewrite (bind_Ok (gets _)); [|reflexivity].
  destruct (clear_cells_spec (monitor_cells (columns wc)) wc)
    as (w1 & Hrun & Hnow1 & Hnext1 & Hent1 & Hcols1 & Htim1 & Hopt1 & Hpend1).
  erewrite (bind_Ok (for_each _ _)); [|exact Hrun].
  change (columns wc) with (columns w) in *. change (now wc) with (now w) in *.
  change (nextHandle wc) with (nextHandle w) in *.
  change (entropy wc) with (entropy w) in *.
  change (timers wc) with (timers w) in *. change (options wc) with (options w) in *.
  change (pending wc) with (cancel (Timers.mainLoopInterval (timers w)) (pending w)) in *.
  destruct clearScreen.
  - erewrite (bind_Ok (gets _)); [|reflexivity].
    destruct (clear_droplets_spec (monitor_topCells (columns w1)) w1)
      as (w' & Hrun' & Hnow' & Hnext' & Hent' & Hcols' & Htim' & Hopt' & Htasks & Hkeep).
    rewrite Hcols1 in *. exists w'. split; [exact Hrun'|].
    split; [congruence|]. split; [congruence|]. split; [congruence|].
    split; [congruence|]. split; [congruence|]. split; [congruence|].
    split; [|split; [done|]].
    + intros h Hh. rewrite Hkeep by lia. by rewrite Hpend1.
    + intros _ k top Hk. rewrite <- Hnext1, <- Hnow1, <- Hent1. by apply Htasks.
  - exists w1. split; [reflexivity|]. rewrite Nat.add_0_r.
    split; [done|]. split; [done|]. split; [done|]. split; [done|]. split; [done|].
    split; [done|]. split; [|split; [done|done]].
    intros h _. by rewrite Hpend1.
Qed.

Lemma stop_run (o : StopOptions) (w : World) :
  _stop o w
  = (if 0 <? default 0 (st_delay o) then
       h <- setTimeout (StopFunction (default false (st_clearScreen o)))
                       (default 0 (st_delay o)) ;;
       modify_timers (set_stop (Some h))
     else stopFunction (default false (st_clearScreen o)))
      (set_pending (cancel (Timers.stop (timers w)) (pending w)) (nextHandle w) w).
Proof. reflexivity. Qed.

(** X6: [stop], with any options, cancels neither a start, a pause nor a
    resume that is waiting for its delay (nor a fade, a clearing timer or a
    draw): in a world that satisfies the invariant, a pending timer whose
    callback is not a cell update, a main-loop cycle or a stop closure is
    still pending, unchanged, after [_stop] returns. *)
Theorem stop_keeps_other_timers (o : StopOptions) (w : World) (h : nat) (t : Task) :
  engine_inv w ->
  pending w !! h = Some t ->
  role_of (t_action t) <> Some CellRole ->
  role_of (t_action t) <> Some CycleRole ->
  role_of (t_action t) <> Some StopRole ->
  exists w', _stop o w = Ok tt w' /\ pending w' !! h = Some t.
Proof.
  intros (Hdom & Hrec & _) Ht Hcell Hcyc Hstop.
  assert (h < nextHandle w)%nat as Hh by (apply Hdom; by exists t).
  assert (forall r, role_of (t_action t) <> Some r -> ~ recorded w r (Some h)) as Hno.
  { intros r Hr Hi. destruct (Hrec r (Some h) Hi h eq_refl) as [_ Hok].
    by specialize (Hok t Ht). }
  assert (Timers.stop (timers w) <> Some h) as Hs
      by (intros E; by apply (Hno StopRole)).
  assert (Timers.mainLoopInterval (timers w) <> Some h) as Hi
      by (intros E; by apply (Hno CycleRole)).
  assert (forall c, Update.timer (cell_update (columns w) c) <> Some h) as Hc
      by (intros c E; apply (Hno CellRole); [done|by exists c]).
  rewrite stop_run. set (wc := set_pending _ _ w).
  destruct (0 <? default 0 (st_delay o)).
  - eexists. split; [reflexivity|]. simpl.
    rewrite lookup_insert_ne by lia. by rewrite lookup_cancel_ne.
  - destruct (stopFunction_spec (default false (st_clearScreen o)) wc)
      as (w' & Hrun & _ & _ & _ & _ & _ & _ & Hold & _).
    exists w'. split; [exact Hrun|]. rewrite Hold by done.
    rewrite cancel_cells_keep by (intros c _; apply Hc).
    rewrite lookup_cancel_ne by done. unfold wc. simpl. by rewrite lookup_cancel_ne.
Qed.

Lemma stop_keeps_other_timers_witness :
  exists w', _stop stop_defaults world_start_pending = Ok tt w' /\
             pending w' !! 1%nat
             = Some (timeout_task 0 3000 (StartFunction 10000)).
Proof.
  apply (stop_keeps_other_timers stop_defaults world_start_pending 1
           (timeout_task 0 3000 (StartFunction 10000))).
  - apply (inv_start {| so_delay := Some 3000; so_duration := None |} world_2x3 tt).
    + apply inv_initial_world.
    + vm_compute. reflexivity.
  - vm_compute. reflexivity.
  - discriminate.
  - discriminate.
  - discriminate.
Defined.

(** X7: [stop] without a positive delay clears, among the timers handed out
    so far, exactly the pending stop, the recurring cycle and the timer
    every cell records, and changes neither the cells nor [monitor.timers].
    Without [clearScreen] it queues nothing; with it, it queues one clearing
    droplet per top cell, each after its own random delay in
    [[200, 2000)]. *)
Theorem stop_now_clears_recorded (o : StopOptions) (w : World) :
  default 0 (st_delay o) <= 0 ->
  exists w',
    _stop o w = Ok tt w' /\
    now w' = now w /\ columns w' = columns w /\ timers w' = timers w /\
    options w' = options w /\
    (forall h, (h < nextHandle w)%nat -> stop_clears w h -> pending w' !! h = None) /\
    (forall h, (h < nextHandle w)%nat -> ~ stop_clears w h ->
               pending w' !! h = pending w !! h) /\
    (default false (st_clearScreen o) = false ->
     nextHandle w' = nextHandle w /\ entropy w' = entropy w /\
     forall h t, pending w' !! h = Some t -> pending w !! h = Some t) /\
    (default false (st_clearScreen o) = true ->
     nextHandle w' = (nextHandle w + length (monitor_topCells (columns w)))%nat /\
     forall k top, monitor_topCells (columns w) !! k = Some top ->
       exists d,
         pending w' !! (nextHandle w + k)%nat
         = Some (timeout_task (now w) d
                   (CreateDroplet top {| d_clearScreen := true; d_charList := [] |})) /\
         (Forall unit_interval (entropy w) -> 200 <= d < 2000)).
Proof.
  intros Hd. rewrite stop_run. set (wc := set_pending _ _ w).
  destruct (Z.ltb_spec 0 (default 0 (st_delay o))) as [|_]; [lia|].
  destruct (stopFunction_spec (default false (st_clearScreen o)) wc)
    as (w' & Hrun & Hnow & Hcols & Htim & Hopt & Hnext & Hent & Hold & Hnone & Hdrops).
  change (columns wc) with (columns w) in *. change (now wc) with (now w) in *.
  change (nextHandle wc) with (nextHandle w) in *.
  change (entropy wc) with (entropy w) in *.
  change (timers wc) with (timers w) in *. change (options wc) with (options w) in *.
  change (pending wc) with (cancel (Timers.stop (timers w)) (pending w)) in *.
  exists w'. split; [exact Hrun|]. do 4 (split; [done|]).
  split; [|split; [|split]].
  - intros h Hh [Hs|[Hi|(c & Hc & Ht)]]; rewrite Hold by done.
    + apply cancel_cells_None, lookup_cancel_None. rewrite Hs. apply lookup_cancel_eq.
    + apply cancel_cells_None. rewrite Hi. apply lookup_cancel_eq.
    + by eapply cancel_cells_gone.
  - intros h Hh Hno. rewrite Hold by done.
    rewrite cancel_cells_keep.
    + rewrite !lookup_cancel_ne; [done| |]; intros E; apply Hno; [by left|by right; left].
    + intros c Hc E. apply Hno. right. right. by exists c.
  - intros Hcs. rewrite Hcs in *. rewrite Nat.add_0_r in Hnext.
    split; [done|]. split; [done|]. rewrite (Hnone eq_refl).
    intros h t Ht. apply cancel_cells_Some in Ht. by do 2 apply lookup_cancel_Some in Ht.
  - intros Hcs. rewrite Hcs in *. split; [done|].
    intros k top Hk. eexists. split; [by apply Hdrops|].
    intros Hu. apply random_of_lt; [by apply unit_interval_drop|lia].
Qed.

Lemma stop_now_clears_recorded_witness :
  exists w',
    _stop stop_defaults world_mid_cascade = Ok tt w' /\
    now w' = now world_mid_cascade /\ columns w' = columns world_mid_cascade /\
    timers w' = timers world_mid_cascade /\
    options w' = options world_mid_cascade /\
    (forall h, (h < nextHandle world_mid_cascade)%nat -> stop_clears world_mid_cascade h ->
               pending w' !! h = None) /\
    (forall h, (h < nextHandle world_mid_cascade)%nat -> ~ stop_clears world_mid_cascade h ->
               pending w' !! h = pending world_mid_cascade !! h) /\
    (default false (st_clearScreen stop_defaults) = false ->
     nextHandle w' = nextHandle world_mid_cascade /\
     entropy w' = entropy world_mid_cascade /\
     forall h t, pending w' !! h = Some t -> pending world_mid_cascade !! h = Some t) /\
    (default false (st_clearScreen stop_defaults) = true ->
     nextHandle w'
     = (nextHandle world_mid_cascade
        + length (monitor_topCells (columns world_mid_cascade)))%nat /\
     forall k top, monitor_topCells (columns world_mid_cascade) !! k = Some top ->
       exists d,
         pending w' !! (nextHandle world_mid_cascade + k)%nat
         = Some (timeout_task (now world_mid_cascade) d
                   (CreateDroplet top {| d_clearScreen := true; d_charList := [] |})) /\
         (Forall unit_interval (entropy world_mid_cascade) -> 200 <= d < 2000)).
Proof.
  apply (stop_now_clears_recorded stop_defaults world_mid_cascade).
  vm_compute. discriminate.
Defined.

(** ** The generator of the cells below a cell *)

Lemma getNextCells_loop_column cols c col fuel r :
  cols !! c = Some col -> (r < length col)%nat -> (length col - r <= fuel)%nat ->
  getNextCells_loop cols fuel (Some (c, r))
  = (Some <$> ((fun r => (c, r)) <$> seq r (length col - r)), Some GenReturn).
Proof.
  intros E. revert r. induction fuel as [|fuel IH]; intros r Hr Hf; [lia|].
  simpl. rewrite (nextCell_column _ _ _ _ E).
  replace (length col - r)%nat with (S (length col - S r)) by lia. simpl.
  destruct (decide (S r < length col)%nat).
  - rewrite IH by lia. done.
  - by replace (length col - S r)%nat with 0%nat by lia.
Qed.

(** X8: run to its end on a cell of the grid, [getNextCells] yields the
    cells below it in its column, top to bottom, and returns; on the bottom
    cell of a column, which has no cell below, it yields [undefined] once
    and then throws a TypeError. *)
Theorem getNextCells_yields (cols : list (list Cell)) (c r : nat) :
  (r < rows cols c)%nat ->
  getNextCells cols (c, r)
  = if decide (S r < rows cols c)%nat
    then (Some <$> drop (S r) (column_cells c (rows cols c)), Some GenReturn)
    else ([None], Some (GenThrow TypeError)).
Proof.
  intros Hr. unfold getNextCells. cbn [fst].
  destruct (cols !! c) as [col|] eqn:E; [|unfold rows in Hr; rewrite E in Hr; simpl in Hr; lia].
  assert (rows cols c = length col) as Hrows by (unfold rows; by rewrite E).
  rewrite Hrows in *. rewrite (nextCell_column _ _ _ _ E).
  destruct (decide (S r < length col)%nat) as [Hlt|Hge]; [|done].
  rewrite (getNextCells_loop_column _ _ _ _ _ E) by lia.
  unfold column_cells. by rewrite <- fmap_drop, drop_seq.
Qed.

Lemma getNextCells_yields_witness :
  getNextCells (columns world_2x3) (0%nat, 0%nat)
  = if decide (1 < rows (columns world_2x3) 0)%nat
    then (Some <$> drop 1 (column_cells 0 (rows (columns world_2x3) 0)), Some GenReturn)
    else ([None], Some (GenThrow TypeError)).
Proof.
  apply (getNextCells_yields (columns world_2x3) 0 0). vm_compute. lia.
Defined.

(** ** Initialisation builds the grid *)

Lemma rounds_done (from to step : Z) : to <= from -> 0 < step -> rounds from to step = 0%nat.
Proof.
  intros Hle Hs. unfold rounds.
  assert ((to - from + step - 1) / step < 1) by (apply Z.div_lt_upper_bound; lia).
  lia.
Qed.

Lemma rounds_step (from to step : Z) :
  from < to -> 0 < step -> rounds from to step = S (rounds (from + step) to step).
Proof.
  intros Hlt Hs. unfold rounds.
  replace (to - (from + step) + step - 1) with (to - from + step - 1 + (-1) * step) by lia.
  rewrite Z.div_add by lia.
  assert (1 <= (to - from + step - 1) / step) by (apply Z.div_le_lower_bound; lia).
  lia.
Qed.

Lemma build_column_ok (step height : Z) : 0 < step ->
  forall fuel y, (rounds y height step < fuel)%nat ->
    build_column fuel y height step = Some (replicate (rounds y height step) new_cell).
Proof.
  intros Hs. induction fuel as [|fuel IH]; intros y Hf; [lia|]. simpl.
  destruct (Z.ltb_spec y height) as [Hlt|Hge].
  - rewrite (rounds_step y height step) in * by done. rewrite IH by lia. done.
  - by rewrite rounds_done.
Qed.

Lemma build_columns_ok (l : Layout) (dom : Dom) (R : nat) :
  0 < cellWidth l + horizontalSpacing l ->
  0 < cellHeight l + verticalSpacing l ->
  forall n fuel index x,
    rounds x (clientWidth dom) (cellWidth l + horizontalSpacing l) = n ->
    (forall i, (index <= i < index + n)%nat ->
       (rounds 0 (clientHeight dom i) (cellHeight l + verticalSpacing l) <= R)%nat) ->
    (n + R < fuel)%nat ->
    build_columns fuel l dom index x
    = Some ((fun i => replicate (rounds 0 (clientHeight dom i)
                                   (cellHeight l + verticalSpacing l)) new_cell)
              <$> seq index n).
Proof.
  intros Hh Hv. induction n as [|n IH]; intros fuel index x Hn HR Hf.
  - destruct fuel as [|fuel]; [lia|]. simpl.
    destruct (Z.ltb_spec x (clientWidth dom)) as [Hlt|Hge]; [|done].
    rewrite rounds_step in Hn by done. done.
  - destruct fuel as [|fuel]; [lia|].
    change (build_columns (S fuel) l dom index x)
      with (if x <? clientWidth dom then
              match build_column (S fuel) 0 (clientHeight dom index)
                      (cellHeight l + verticalSpacing l) with
              | Some col =>
                  match build_columns fuel l dom (S index)
                          (x + (cellWidth l + horizontalSpacing l)) with
                  | Some rest => Some (col :: rest)
                  | None => None
                  end
              | None => None
              end
            else Some []).
    destruct (Z.ltb_spec x (clientWidth dom)) as [Hlt|Hge];
      [|rewrite rounds_done in Hn by done; done].
    rewrite rounds_step in Hn by done. injection Hn as Hn.
    rewrite build_column_ok; [|done|]; [|specialize (HR index ltac:(lia)); lia].
    rewrite (IH fuel (S index)); [done|done| |lia].
    intros i Hi. apply HR. lia.
Qed.

Lemma max_list_bound (f : nat -> nat) (n : nat) :
  forall i, (i < n)%nat -> (f i <= max_list (f <$> seq 0 n))%nat.
Proof.
  intros i Hi. apply max_list_elem_of_le. apply list_elem_of_fmap. exists i.
  split; [done|]. apply elem_of_seq. lia.
Qed.

(** X9: with positive column and row steps, [_initialize] on a page that
    holds the container finishes and builds a grid of fresh cells: one
    column for every step of [cellWidth + horizontalSpacing] from
    [paddingLeft] that stays below the container's width (none when the
    padding reaches the width), and in column [i] one cell for every step of
    [cellHeight + verticalSpacing] from 0 that stays below that column's
    height; with nothing deferred the monitor is then ready, with no timer
    id recorded. *)
Theorem initialize_builds_grid (l : Layout) (dom : Dom) (i : Instance) :
  container dom = true ->
  0 < cellWidth l + horizontalSpacing l ->
  0 < cellHeight l + verticalSpacing l ->
  deferred i = [] ->
  exists fuel0, forall fuel, (fuel0 <= fuel)%nat ->
    _initialize fuel l dom i
    = Returns {| isInitialized := true; deferred := [];
                 world := set_columns
                            (fresh_grid
                               (rounds (paddingLeft l) (clientWidth dom)
                                       (cellWidth l + horizontalSpacing l))
                               (fun c => rounds 0 (clientHeight dom c)
                                                (cellHeight l + verticalSpacing l)))
                            (reset (world i)) |}.
Proof.
  intros Hc Hh Hv Hd.
  set (n := rounds (paddingLeft l) (clientWidth dom) (cellWidth l + horizontalSpacing l)).
  set (height := fun c => rounds 0 (clientHeight dom c) (cellHeight l + verticalSpacing l)).
  exists (S (n + max_list (height <$> seq 0 n))). intros fuel Hf.
  unfold _initialize. rewrite Hc, Hd. simpl negb. cbv iota.
  rewrite (build_columns_ok l dom (max_list (height <$> seq 0 n)) Hh Hv n); [done|done| |lia].
  intros c Hi. apply (max_list_bound height n). lia.
Qed.

Lemma initialize_builds_grid_witness :
  exists fuel0, forall fuel, (fuel0 <= fuel)%nat ->
    _initialize fuel default_layout dom_2x3 (new_instance (default_options Full "AB") [])
    = Returns {| isInitialized := true; deferred := [];
                 world := set_columns
                            (fresh_grid
                               (rounds (paddingLeft default_layout) (clientWidth dom_2x3)
                                       (cellWidth default_layout
                                        + horizontalSpacing default_layout))
                               (fun c => rounds 0 (clientHeight dom_2x3 c)
                                                (cellHeight default_layout
                                                 + verticalSpacing default_layout)))
                            (reset (world (new_instance (default_options Full "AB") []))) |}.
Proof.
  apply (initialize_builds_grid default_layout dom_2x3
           (new_instance (default_options Full "AB") [])).
  - reflexivity.
  - simpl. lia.
  - simpl. lia.
  - reflexivity.
Defined.

Lemma build_column_stuck (step height : Z) : step <= 0 ->
  forall fuel y, y < height -> build_column fuel y height step = None.
Proof.
  intros Hs. induction fuel as [|fuel IH]; intros y Hy; [done|]. simpl.
  destruct (Z.ltb_spec y height) as [_|]; [|lia]. by rewrite IH by lia.
Qed.

Lemma build_columns_stuck (l : Layout) (dom : Dom) :
  cellWidth l + horizontalSpacing l <= 0 ->
  forall fuel index x, x < clientWidth dom -> build_columns fuel l dom index x = None.
Proof.
  intros Hs. induction fuel as [|fuel IH]; intros index x Hx; [done|].
  change (build_columns (S fuel) l dom index x)
    with (if x <? clientWidth dom then
            match build_column (S fuel) 0 (clientHeight dom index)
                    (cellHeight l + verticalSpacing l) with
            | Some col =>
                match build_columns fuel l dom (S index)
                        (x + (cellWidth l + horizontalSpacing l)) with
                | Some rest => Some (col :: rest)
                | None => None
                end
            | None => None
            end
          else Some []).
  destruct (Z.ltb_spec x (clientWidth dom)) as [_|]; [|lia].
  rewrite IH by lia. by destruct (build_column _ _ _ _).
Qed.

(** X10: [_initialize] never finishes when a step of one of its two loops is
    not positive and that loop is entered: with
    [cellWidth + horizontalSpacing <= 0] and [paddingLeft] below the
    container's width, or with [cellHeight + verticalSpacing <= 0], a first
    column of positive height and [paddingLeft] below the width, no amount
    of fuel lets it return. *)
Theorem initialize_never_finishes (l : Layout) (dom : Dom) (i : Instance) :
  container dom = true ->
  paddingLeft l < clientWidth dom ->
  cellWidth l + horizontalSpacing l <= 0 \/
  (cellHeight l + verticalSpacing l <= 0 /\ 0 < clientHeight dom 0) ->
  forall fuel, _initialize fuel l dom i = OutOfFuel.
Proof.
  intros Hc Hx Hstep fuel. unfold _initialize. rewrite Hc. simpl negb. cbv iota.
  destruct Hstep as [Hh|[Hv H0]].
  - by rewrite build_columns_stuck.
  - destruct fuel as [|fuel]; [done|].
    change (build_columns (S fuel) l dom 0 (paddingLeft l))
      with (if paddingLeft l <? clientWidth dom then
              match build_column (S fuel) 0 (clientHeight dom 0)
                      (cellHeight l + verticalSpacing l) with
              | Some col =>
                  match build_columns fuel l dom 1
                          (paddingLeft l + (cellWidth l + horizontalSpacing l)) with
                  | Some rest => Some (col :: rest)
                  | None => None
                  end
              | None => None
              end
            else Some []).
    destruct (Z.ltb_spec (paddingLeft l) (clientWidth dom)) as [_|]; [|lia].
    by rewrite build_column_stuck.
Qed.

Lemma initialize_never_finishes_witness :
  _initialize 1000
    {| paddingLeft := 10; cellWidth := 0; cellHeight := 20;
       horizontalSpacing := 0; verticalSpacing := 5 |}
    dom_2x3 (new_instance (default_options Full "AB") []) = OutOfFuel.
Proof.
  apply (initialize_never_finishes
           {| paddingLeft := 10; cellWidth := 0; cellHeight := 20;
              horizontalSpacing := 0; verticalSpacing := 5 |}
           dom_2x3 (new_instance (default_options Full "AB") [])).
  - reflexivity.
  - simpl. lia.
  - left. simpl. lia.
Defined.

Example initialize_2x3 :
  _initialize 10 default_layout dom_2x3
    (new_instance (default_options Full "AB") [1 # 2; 1 # 3]%Q)
  = Returns {| isInitialized := true; deferred := []; world := world_fresh_2x3 |}.
Proof. vm_compute. reflexivity. Qed.

(** ** Calls made before the page has loaded *)

Lemma drain_for_each calls : forall w w',
  for_each calls invoke w = Ok tt w' -> drain calls w = ([], w', None).
Proof.
  induction calls as [|c rest IH]; intros w w' E; simpl in *.
  - by injection E as <-.
  - unfold bind in E. destruct (invoke c w) as [[] w1|e]; [|done]. by apply IH.
Qed.

Lemma drain_throw pre bad post e : forall w w2,
  for_each pre invoke w = Ok tt w2 -> invoke bad w2 = Throw e ->
  drain (pre ++ bad :: post) w = (post, w2, Some e).
Proof.
  induction pre as [|c rest IH]; intros w w2 E Hbad; simpl in *.
  - injection E as <-. by rewrite Hbad.
  - unfold bind in E. destruct (invoke c w) as [[] w1|e']; [|done]. by apply IH.
Qed.

(** A public method that throws does so before its first effect: only
    [draw] throws, and it throws while it composes its table, which reads
    and writes nothing of the monitor. *)
Lemma invoke_throws_before_effect (c : Call) (w : World) (e : js_error) :
  invoke c w = Throw e ->
  exists asciiImage o, c = CallDraw asciiImage o /\
                       draw_imageData asciiImage o w = Throw e /\
                       forall w1 wd w2, draw_imageData asciiImage o w1 = Ok wd w2 -> w2 = w1.
Proof.
  destruct c as [o|o|o|o|img o]; simpl; intros E.
  - destruct (safe_start o w) as (a & w' & E'). congruence.
  - destruct (safe_pause o w) as (a & w' & E'). congruence.
  - destruct (safe_resume o w) as (a & w' & E'). congruence.
  - destruct (safe_stop o w) as (a & w' & E'). congruence.
  - exists img, o. split; [done|]. split.
    + rewrite draw_run in E. revert E. destruct (draw_imageData img o w); [done|by intros [= ->]].
    + intros w1 wd w2 E'.
      by apply (frame_draw_imageData (fun w => w = w1) img o w1 wd w2).
Qed.

(** An instance that is not initialised, or whose queue is not empty, only
    queues the calls it gets. *)
Lemma defer_all_not_ready later : forall i,
  isInitialized i = false \/ deferred i <> [] ->
  defer_all later i
  = Returns {| isInitialized := isInitialized i; deferred := deferred i ++ later;
               world := world i |}.
Proof.
  induction later as [|c rest IH]; intros i Hi; simpl.
  - rewrite app_nil_r. by destruct i.
  - unfold _defer.
    assert (isInitialized i && (Z.of_nat (length (deferred i)) =? 0) = false) as ->.
    { destruct Hi as [->|Hne]; [done|]. apply andb_false_iff. right.
      apply Z.eqb_neq. destruct (deferred i); [done|]. simpl. lia. }
    rewrite IH; simpl.
    + by rewrite <- app_assoc.
    + destruct Hi as [?|?]; [by left|right]. by destruct (deferred i).
Qed.

(** X11: calls of [start], [pause], [resume], [stop] and [draw] made before
    the page has loaded run nothing and are only queued; [_initialize]
    then builds the grid and replays them on it in the order they were
    made, and, when none of them throws, leaves the queue empty and the
    monitor ready. *)
Theorem deferred_calls_replayed (cfg : Options.t) (rnd : list Q) (calls : list Call)
    (fuel : nat) (l : Layout) (dom : Dom) (cols : list (list Cell)) (w' : World) :
  container dom = true ->
  build_columns fuel l dom 0 (paddingLeft l) = Some cols ->
  for_each calls invoke (set_columns cols (reset (world (new_instance cfg rnd)))) = Ok tt w' ->
  exists i,
    defer_all calls (new_instance cfg rnd) = Returns i /\
    isInitialized i = false /\ world i = world (new_instance cfg rnd) /\
    deferred i = calls /\
    _initialize fuel l dom i
    = Returns {| isInitialized := true; deferred := []; world := w' |}.
Proof.
  intros Hc Hb Hrun. eexists. split; [apply defer_all_not_ready; by left|].
  cbn [isInitialized world deferred]. do 3 (split; [done|]).
  unfold _initialize. cbn [isInitialized world deferred]. rewrite Hc. cbn [negb]. rewrite Hb.
  change (deferred (new_instance cfg rnd) ++ calls) with calls.
  by rewrite (drain_for_each _ _ _ Hrun).
Qed.

Lemma deferred_calls_replayed_witness :
  exists i,
    defer_all [CallStart start_now]
      (new_instance (default_options Full "AB") [1 # 2; 1 # 3]%Q) = Returns i /\
    isInitialized i = false /\
    world i = world (new_instance (default_options Full "AB") [1 # 2; 1 # 3]%Q) /\
    deferred i = [CallStart start_now] /\
    _initialize 10 default_layout dom_2x3 i
    = Returns {| isInitialized := true; deferred := []; world := world_deferred_start |}.
Proof.
  apply (deferred_calls_replayed (default_options Full "AB") [1 # 2; 1 # 3]%Q
           [CallStart start_now] 10 default_layout dom_2x3
           (replicate 2 (replicate 3 new_cell)) world_deferred_start).
  - reflexivity.
  - vm_compute. reflexivity.
  - vm_compute. reflexivity.
Defined.

(** X12: when a deferred call throws while [_initialize] replays the queue
    (a [draw] of something that is neither a string nor a matrix), the
    exception leaves [_initialize] with the monitor marked as initialised
    and the calls behind the failing one still queued; when there is such a
    call, every later public call is only added to the queue and never
    runs: the world stays as the throw left it. *)
Theorem throwing_deferred_call_blocks_the_queue (i : Instance) (fuel : nat) (l : Layout)
    (dom : Dom) (cols : list (list Cell)) (pre post later : list Call) (bad : Call)
    (e : js_error) (w2 : World) :
  container dom = true ->
  build_columns fuel l dom 0 (paddingLeft l) = Some cols ->
  deferred i = pre ++ bad :: post ->
  post <> [] ->
  for_each pre invoke (set_columns cols (reset (world i))) = Ok tt w2 ->
  invoke bad w2 = Throw e ->
  exists i',
    _initialize fuel l dom i = Raises (Thrown e) i' /\
    isInitialized i' = true /\ deferred i' = post /\ world i' = w2 /\
    defer_all later i'
    = Returns {| isInitialized := true; deferred := post ++ later; world := w2 |}.
Proof.
  intros Hc Hb Hd Hpost Hpre Hbad. eexists. split.
  - unfold _initialize. rewrite Hc, Hd. cbn [negb]. rewrite Hb.
    by rewrite (drain_throw _ _ _ _ _ _ Hpre Hbad).
  - cbn [isInitialized world deferred]. do 3 (split; [done|]).
    rewrite defer_all_not_ready; [done|]. by right.
Qed.

Lemma throwing_deferred_call_blocks_the_queue_witness :
  exists i',
    _initialize 10 default_layout dom_2x3
      {| isInitialized := false;
         deferred := [CallStart start_now] ++ CallDraw ImgOther no_draw_options
                       :: [CallStop stop_defaults];
         world := world (new_instance (default_options Full "AB") [1 # 2; 1 # 3]%Q) |}
    = Raises (Thrown ImageError) i' /\
    isInitialized i' = true /\ deferred i' = [CallStop stop_defaults] /\
    world i' = world_deferred_start /\
    defer_all [CallPause pause_defaults] i'
    = Returns {| isInitialized := true;
                 deferred := [CallStop stop_defaults] ++ [CallPause pause_defaults];
                 world := world_deferred_start |}.
Proof.
  apply (throwing_deferred_call_blocks_the_queue
           {| isInitialized := false;
              deferred := [CallStart start_now] ++ CallDraw ImgOther no_draw_options
                            :: [CallStop stop_defaults];
              world := world (new_instance (default_options Full "AB") [1 # 2; 1 # 3]%Q) |}
           10 default_layout dom_2x3 (replicate 2 (replicate 3 new_cell))
           [CallStart start_now] [CallStop stop_defaults] [CallPause pause_defaults]
           (CallDraw ImgOther no_draw_options) ImageError world_deferred_start).
  - reflexivity.
  - vm_compute. reflexivity.
  - reflexivity.
  - discriminate.
  - vm_compute. reflexivity.
  - vm_compute. reflexivity.
Defined.

(** X13: when the page holds no element with the container's id,
    [_initialize] throws after it has reset the monitor, which stays
    uninitialised: the calls queued so far are kept, and every later public
    call is only queued and never runs. *)
Theorem missing_container_queues_forever (i : Instance) (fuel : nat) (l : Layout)
    (dom : Dom) (later : list Call) :
  container dom = false ->
  exists i',
    _initialize fuel l dom i = Raises NoContainer i' /\
    isInitialized i' = false /\ deferred i' = deferred i /\
    world i' = reset (world i) /\
    defer_all later i'
    = Returns {| isInitialized := false; deferred := deferred i ++ later;
                 world := reset (world i) |}.
Proof.
  intros Hc. eexists. split; [unfold _initialize; by rewrite Hc|].
  simpl. do 3 (split; [done|]). rewrite defer_all_not_ready; [done|]. by left.
Qed.

Lemma missing_container_queues_forever_witness :
  exists i',
    _initialize 10 default_layout
      {| container := false; clientWidth := 56; clientHeight := fun _ => 75 |}
      (new_instance (default_options Full "AB") []) = Raises NoContainer i' /\
    isInitialized i' = false /\
    deferred i' = deferred (new_instance (default_options Full "AB") []) /\
    world i' = reset (world (new_instance (default_options Full "AB") [])) /\
    defer_all [CallStart start_now] i'
    = Returns {| isInitialized := false;
                 deferred := deferred (new_instance (default_options Full "AB") [])
                             ++ [CallStart start_now];
                 world := reset (world (new_instance (default_options Full "AB") [])) |}.
Proof.
  apply (missing_container_queues_forever (new_instance (default_options Full "AB") [])
           10 default_layout
           {| container := false; clientWidth := 56; clientHeight := fun _ => 75 |}
           [CallStart start_now]).
  reflexivity.
Defined.

(** ** The stuck-character glitch *)

Lemma cells_from_NoDup cols : forall k, NoDup (cells_from k cols).
Proof.
  induction cols as [|col rest IH]; intros k; simpl; [apply NoDup_nil_2|].
  apply NoDup_app. split; [apply column_cells_NoDup|]. split; [|apply IH].
  intros cell Hc Hr. apply column_cells_elem in Hc. apply cells_from_elem in Hr.
  destruct Hc as [? _], Hr as [? _]. lia.
Qed.

Lemma nextCell_Some cols cell next :
  nextCell cols cell = Some next <->
  next = (cell.1, S cell.2) /\ is_Some (lookup_cell cols (cell.1, S cell.2)).
Proof.
  unfold nextCell. destruct (lookup_cell cols (cell.1, S cell.2)) as [cl|].
  - split; [by intros [= <-]|by intros [-> _]].
  - split; [done|]. by intros [_ [? ?]].
Qed.

Lemma nextUpdated_NoDup cols : NoDup (nextUpdated cols).
Proof.
  apply NoDup_bind; [| |apply cells_from_NoDup].
  - intros [c1 r1] [c2 r2] y _ _ H1 H2.
    destruct (nextCell cols (c1, r1)) as [n1|] eqn:E1; [|by apply elem_of_nil in H1].
    destruct (nextCell cols (c2, r2)) as [n2|] eqn:E2; [|by apply elem_of_nil in H2].
    apply nextCell_Some in E1 as [-> _]. apply nextCell_Some in E2 as [-> _].
    destruct (_ && _); [|by apply elem_of_nil in H1].
    destruct (_ && _); [|by apply elem_of_nil in H2].
    apply list_elem_of_singleton in H1, H2. simpl in *. congruence.
  - intros cell _. destruct (nextCell cols cell); [|apply NoDup_nil_2].
    destruct (_ && _); [apply NoDup_singleton|apply NoDup_nil_2].
Qed.

Lemma nextUpdated_elem cols cell :
  cell ∈ nextUpdated cols <->
  exists c r,
    cell = (c, S r) /\ is_Some (lookup_cell cols (c, S r)) /\
    Update.isUpdated (cell_update cols (c, r)) = true /\
    Update.isUpdated (cell_update cols (c, S r)) = false.
Proof.
  unfold nextUpdated. rewrite list_elem_of_bind. split.
  - intros ([c r] & Hin & _).
    destruct (nextCell cols (c, r)) as [next|] eqn:E; [|by apply elem_of_nil in Hin].
    apply nextCell_Some in E as [-> Hgrid]. simpl in *.
    destruct (Update.isUpdated (cell_update cols (c, r))) eqn:E1;
      [|by apply elem_of_nil in Hin].
    destruct (Update.isUpdated (cell_update cols (c, S r))) eqn:E2;
      [by apply elem_of_nil in Hin|].
    apply list_elem_of_singleton in Hin as ->. by exists c, r.
  - intros (c & r & -> & Hgrid & E1 & E2). exists (c, r). split.
    + assert (nextCell cols (c, r) = Some (c, S r)) as -> by (by apply nextCell_Some).
      rewrite E1, E2. simpl. by left.
    + apply monitor_cells_elem. apply in_grid_rows. apply in_grid_rows in Hgrid. lia.
Qed.

(** X14: the cells [Glitch.STUCK_CHARACTER] makes flicker are exactly the
    fronts of the cascades: the cells of the grid below row 0 that have not
    been shown while the cell right above them has; the list holds each of
    them once, and never a top cell. *)
Theorem nextUpdated_fronts (cols : list (list Cell)) :
  NoDup (nextUpdated cols) /\
  (forall cell,
     cell ∈ nextUpdated cols <->
     exists c r,
       cell = (c, S r) /\ is_Some (lookup_cell cols (c, S r)) /\
       Update.isUpdated (cell_update cols (c, r)) = true /\
       Update.isUpdated (cell_update cols (c, S r)) = false) /\
  forall top, top ∈ monitor_topCells cols -> top ∉ nextUpdated cols.
Proof.
  split; [apply nextUpdated_NoDup|]. split; [apply nextUpdated_elem|].
  intros top Htop Hin. apply monitor_topCells_elem in Htop as [H0 _].
  apply nextUpdated_elem in Hin as (c & r & -> & _). done.
Qed.

(** One run of the glitch closure over distinct cells: cell number [k]
    shows the glyph drawn from random number [k] and is marked as shown;
    its fade is timer [nextHandle + k]. *)
Lemma stuck_glitch_spec cells : forall w,
  NoDup cells ->
  exists w',
    stuck_glitchFunction cells w = Ok tt w' /\
    now w' = now w /\ timers w' = timers w /\ options w' = options w /\
    nextHandle w' = (nextHandle w + length cells)%nat /\
    entropy w' = drop (length cells) (entropy w) /\
    (forall h, (h < nextHandle w)%nat -> pending w' !! h = pending w !! h) /\
    (forall c, c ∉ cells -> lookup_cell (columns w') c = lookup_cell (columns w) c) /\
    (forall k c, cells !! k = Some c ->
       lookup_cell (columns w') c
       = ((fun cl => {| update := mark_updated (update cl);
                        innerText := glyph_drawn (Options.alphabet (options w))
                                       (entropy w) k |})
            <$> lookup_cell (columns w) c) /\
       pending w' !! (nextHandle w + k)%nat
       = Some (timeout_task (now w) 200
                 (FadeCell c (glyph_drawn (Options.alphabet (options w)) (entropy w) k)))).
Proof.
  unfold stuck_glitchFunction.
  induction cells as [|c rest IH]; intros w Hnd.
  - exists w. simpl. rewrite Nat.add_0_r. repeat split; try done.
  - apply NoDup_cons in Hnd as [Hc Hnd].
    set (g := glyph_drawn (Options.alphabet (options w)) (entropy w) 0).
    set (w1 := set_pending
                 (<[nextHandle w := timeout_task (now w) 200 (FadeCell c g)]> (pending w))
                 (S (nextHandle w))
                 (set_columns
                    (alter_cell (fun cl => {| update := mark_updated (update cl);
                                              innerText := innerText cl |}) c
                       (alter_cell (fun cl => {| update := update cl; innerText := g |}) c
                          (columns w)))
                    (set_entropy (tl (entropy w)) w))).
    destruct (IH w1 Hnd)
      as (w' & Hrun & Hnow & Htim & Hopt & Hnext & Hent & Hold & Hcols & Hcell).
    change (nextHandle w1) with (S (nextHandle w)) in *.
    change (now w1) with (now w) in *.
    change (entropy w1) with (tl (entropy w)) in *.
    change (options w1) with (options w) in *.
    change (timers w1) with (timers w) in *.
    change (pending w1)
      with (<[nextHandle w := timeout_task (now w) 200 (FadeCell c g)]> (pending w)) in *.
    change (columns w1)
      with (alter_cell (fun cl => {| update := mark_updated (update cl);
                                     innerText := innerText cl |}) c
              (alter_cell (fun cl => {| update := update cl; innerText := g |}) c
                 (columns w))) in *.
    exists w'. change (length (c :: rest)) with (S (length rest)).
    split; [exact Hrun|]. do 3 (split; [done|]).
    split; [lia|]. split; [by rewrite Hent, drop_S_tl|].
    split; [intros h Hh; rewrite Hold by lia; apply lookup_insert_ne; lia|].
    split.
    { intros c' Hc'. apply not_elem_of_cons in Hc' as [Hne ?]. rewrite Hcols by done.
      by rewrite !lookup_cell_alter_ne. }
    intros [|k] c' Hk.
    + injection Hk as <-. rewrite Nat.add_0_r. split.
      * rewrite Hcols by done. rewrite !lookup_cell_alter_eq.
        by destruct (lookup_cell (columns w) c).
      * rewrite Hold by lia. apply lookup_insert_eq.
    + change ((c :: rest) !! S k) with (rest !! k) in Hk.
      destruct (Hcell k c' Hk) as [Hcl Hp].
      assert (c <> c') as Hne by (intros ->; apply Hc; by eapply list_elem_of_lookup_2).
      replace (nextHandle w + S k)%nat with (S (nextHandle w) + k)%nat by lia.
      unfold glyph_drawn in *. rewrite drop_S_tl. split.
      * rewrite Hcl. by rewrite !lookup_cell_alter_ne.
      * exact Hp.
Qed.

(** X15: one run of the glitch closure of [Glitch.STUCK_CHARACTER] shows a
    glyph drawn from the alphabet in each front cell and marks it as shown,
    leaving the timer id, glyph and progression the cell had recorded, and
    every other cell, as they were; it queues one fade per front cell and
    cancels nothing.  Since the cell now counts as shown, [resume] skips
    it: the glyph that had been planned for it is not shown by the
    resume. *)
Theorem stuck_glitch_marks_fronts (w : World) :
  exists w',
    stuck_glitchFunction (nextUpdated (columns w)) w = Ok tt w' /\
    timers w' = timers w /\ options w' = options w /\
    nextHandle w' = (nextHandle w + length (nextUpdated (columns w)))%nat /\
    (forall h, (h < nextHandle w)%nat -> pending w' !! h = pending w !! h) /\
    (forall c, c ∉ nextUpdated (columns w) ->
               lookup_cell (columns w') c = lookup_cell (columns w) c) /\
    (forall k c, nextUpdated (columns w) !! k = Some c ->
       let glyph := glyph_drawn (Options.alphabet (options w)) (entropy w) k in
       cell_update (columns w') c = mark_updated (cell_update (columns w) c) /\
       innerText <$> lookup_cell (columns w') c = Some glyph /\
       resume_skips (Options.variant (options w')) (cell_update (columns w') c) = true /\
       pending w' !! (nextHandle w + k)%nat
       = Some (timeout_task (now w) 200 (FadeCell c glyph)) /\
       ((1 <= String.length (Options.alphabet (options w)))%nat ->
        Forall unit_interval (entropy w) ->
        exists a, glyph = JStr (String a EmptyString) /\
                  a ∈ list_ascii_of_string (Options.alphabet (options w)))).
Proof.
  destruct (stuck_glitch_spec (nextUpdated (columns w)) w)
    as (w' & Hrun & Hnow & Htim & Hopt & Hnext & Hent & Hold & Hcols & Hcell).
  { apply nextUpdated_NoDup. }
  exists w'. split; [exact Hrun|]. do 3 (split; [done|]).
  split; [exact Hold|]. split; [exact Hcols|].
  intros k c Hk. cbv zeta. destruct (Hcell k c Hk) as [Hcl Hp].
  assert (is_Some (lookup_cell (columns w) c)) as [cl Ecl].
  { apply list_elem_of_lookup_2 in Hk. apply nextUpdated_elem in Hk.
    by destruct Hk as (c0 & r & -> & Hg & _). }
  rewrite Ecl in Hcl. simpl in Hcl.
  assert (cell_update (columns w') c = mark_updated (cell_update (columns w) c)) as Hu
      by (unfold cell_update; by rewrite Hcl, Ecl).
  split; [exact Hu|]. split; [by rewrite Hcl|].
  split; [rewrite Hu; by apply resume_skips_isUpdated|]. split; [exact Hp|].
  intros Hlen Hrnd. unfold glyph_drawn, getRandomChar_at. simpl.
  apply js_charAt_glyph. apply random_index_bounds; [|done]. by apply unit_interval_drop.
Qed.

(** ** What a recorded timer id names *)

(** X16: in every world a fresh monitor reaches through [start], [stop],
    [pause], [resume], [draw] and the host running timers, every pending
    timer has an id the host has handed out, and every timer id the monitor
    records names, while that timer is pending, a callback of its own kind:
    [timers.start] a start closure, [timers.pause] a pause closure,
    [timers.resume] a resume closure, [timers.stop] a stop closure,
    [timers.mainLoopInterval] a main loop, and a cell's [update.timer] an
    update of a cell or a droplet. *)
Theorem reachable_timers_name_their_role (cfg : Options.t) (ncols nrows : nat)
    (rnd : list Q) (w : World) :
  reachable (initial_world cfg ncols nrows rnd) w ->
  (forall h t, pending w !! h = Some t -> (h < nextHandle w)%nat) /\
  (forall h t, Timers.start (timers w) = Some h -> pending w !! h = Some t ->
               exists iv, t_action t = StartFunction iv) /\
  (forall h t, Timers.pause (timers w) = Some h -> pending w !! h = Some t ->
               exists onlyTop atOnce mn mx, t_action t = PauseFunction onlyTop atOnce mn mx) /\
  (forall h t, Timers.resume (timers w) = Some h -> pending w !! h = Some t ->
               exists onlyTop, t_action t = ResumeFunction onlyTop) /\
  (forall h t, Timers.stop (timers w) = Some h -> pending w !! h = Some t ->
               exists clearScreen, t_action t = StopFunction clearScreen) /\
  (forall h t, Timers.mainLoopInterval (timers w) = Some h -> pending w !! h = Some t ->
               exists o, t_action t = MainLoop o) /\
  (forall cell h t, Update.timer (cell_update (columns w) cell) = Some h ->
                    pending w !! h = Some t ->
                    (exists c ch, t_action t = UpdateCell c ch) \/
                    (exists c o, t_action t = CreateDroplet c o)).
Proof.
  intros Hr. destruct (reachable_inv _ _ _ _ _ Hr) as (Hdom & Hrec & _).
  assert (forall r h t, recorded w r (Some h) -> pending w !! h = Some t ->
                        role_of (t_action t) = Some r) as Hrole.
  { intros r h t Hh Ht. by apply (Hrec r (Some h) Hh h eq_refl). }
  split; [intros h t Ht; apply Hdom; by exists t|].
  split; [|split; [|split; [|split; [|split]]]].
  - intros h t Hh Ht. pose proof (Hrole StartRole h t (eq_sym Hh) Ht) as E.
    destruct (t_action t); try discriminate. by eexists.
  - intros h t Hh Ht. pose proof (Hrole PauseRole h t (eq_sym Hh) Ht) as E.
    destruct (t_action t); try discriminate. by eexists _, _, _, _.
  - intros h t Hh Ht. pose proof (Hrole ResumeRole h t (eq_sym Hh) Ht) as E.
    destruct (t_action t); try discriminate. by eexists.
  - intros h t Hh Ht. pose proof (Hrole StopRole h t (eq_sym Hh) Ht) as E.
    destruct (t_action t); try discriminate. by eexists.
  - intros h t Hh Ht. pose proof (Hrole CycleRole h t (eq_sym Hh) Ht) as E.
    destruct (t_action t); try discriminate. by eexists.
  - intros cell h t Hh Ht.
    assert (recorded w CellRole (Some h)) as Hc by (by exists cell).
    pose proof (Hrole CellRole h t Hc Ht) as E.
    destruct (t_action t); try discriminate; [left|right]; by eexists _, _.
Qed.

Lemma reachable_timers_name_their_role_witness :
  (forall h t, pending world_start_pending !! h = Some t ->
               (h < nextHandle world_start_pending)%nat) /\
  (forall h t, Timers.start (timers world_start_pending) = Some h ->
               pending world_start_pending !! h = Some t ->
               exists iv, t_action t = StartFunction iv) /\
  (forall h t, Timers.pause (timers world_start_pending) = Some h ->
               pending world_start_pending !! h = Some t ->
               exists onlyTop atOnce mn mx, t_action t = PauseFunction onlyTop atOnce mn mx) /\
  (forall h t, Timers.resume (timers world_start_pending) = Some h ->
               pending world_start_pending !! h = Some t ->
               exists onlyTop, t_action t = ResumeFunction onlyTop) /\
  (forall h t, Timers.stop (timers world_start_pending) = Some h ->
               pending world_start_pending !! h = Some t ->
               exists clearScreen, t_action t = StopFunction clearScreen) /\
  (forall h t, Timers.mainLoopInterval (timers world_start_pending) = Some h ->
               pending world_start_pending !! h = Some t ->
               exists o, t_action t = MainLoop o) /\
  (forall cell h t, Update.timer (cell_update (columns world_start_pending) cell) = Some h ->
                    pending world_start_pending !! h = Some t ->
                    (exists c ch, t_action t = UpdateCell c ch) \/
                    (exists c o, t_action t = CreateDroplet c o)).
Proof.
  apply (reachable_timers_name_their_role (default_options Full "AB") 2 3
           [1 # 2; 1 # 3; 1 # 4; 3 # 4]%Q world_start_pending).
  apply (reach_event _ (EvStart {| so_delay := Some 3000; so_duration := None |})
           world_2x3).
  - apply reach_init.
  - vm_compute. reflexivity.
Defined.

(** ** A delayed start *)

(** X17: [start] with a positive delay (the one given, or the configured one
    when none or 0 is given) runs nothing at once: it cancels the start that
    was pending, queues one start closure due after the delay and records
    it, and changes no cell, no cycle and no other timer; with a duration
    (given and not 0, or configured) whose sum with the delay is positive,
    it also replaces the pending stop by one due after duration + delay. *)
Theorem start_delayed (o : StartOptions) (w : World) :
  engine_inv w ->
  0 < start_initialDelay (options w) o ->
  match start_mainLoopDuration (options w) o with
  | Some D => 0 < D + start_initialDelay (options w) o
  | None => True
  end ->
  exists w',
    _start o w = Ok tt w' /\
    now w' = now w /\ columns w' = columns w /\ entropy w' = entropy w /\
    options w' = options w /\
    Timers.start (timers w') = Some (nextHandle w) /\
    Timers.mainLoopInterval (timers w') = Timers.mainLoopInterval (timers w) /\
    Timers.pause (timers w') = Timers.pause (timers w) /\
    Timers.resume (timers w') = Timers.resume (timers w) /\
    pending w' !! nextHandle w
    = Some (timeout_task (now w) (start_initialDelay (options w) o)
              (StartFunction (Options.mainLoopInterval (options w)))) /\
    (forall h, Timers.start (timers w) = Some h -> pending w' !! h = None) /\
    match start_mainLoopDuration (options w) o with
    | None =>
        nextHandle w' = S (nextHandle w) /\
        Timers.stop (timers w') = Timers.stop (timers w) /\
        forall h, (h < nextHandle w)%nat -> Timers.start (timers w) <> Some h ->
                  pending w' !! h = pending w !! h
    | Some D =>
        nextHandle w' = S (S (nextHandle w)) /\
        Timers.stop (timers w') = Some (S (nextHandle w)) /\
        pending w' !! S (nextHandle w)
        = Some (timeout_task (now w) (D + start_initialDelay (options w) o)
                  (StopFunction false)) /\
        (forall h, Timers.stop (timers w) = Some h -> pending w' !! h = None) /\
        forall h, (h < nextHandle w)%nat -> Timers.start (timers w) <> Some h ->
                  Timers.stop (timers w) <> Some h ->
                  pending w' !! h = pending w !! h
    end.
Proof.
  intros (Hdom & Hrec & _) Hd Hdur.
  assert (forall h, Timers.start (timers w) = Some h -> (h < nextHandle w)%nat) as Hs.
  { intros h Hh. by apply (Hrec StartRole (Some h) (eq_sym Hh) h eq_refl). }
  assert (forall h, Timers.stop (timers w) = Some h -> (h < nextHandle w)%nat) as Hst.
  { intros h Hh. by apply (Hrec StopRole (Some h) (eq_sym Hh) h eq_refl). }
  rewrite start_run.
  destruct (Z.ltb_spec 0 (start_initialDelay (options w) o)) as [_|]; [|lia].
  destruct (start_mainLoopDuration (options w) o) as [D|].
  - unfold bind at 1. unfold bind at 1. unfold setTimeout at 1. unfold modify_timers, modify.
    rewrite stop_run. cbn [st_delay st_clearScreen default from_option id].
    destruct (Z.ltb_spec 0 (D + start_initialDelay (options w) o)) as [_|]; [|lia].
    eexists. split; [reflexivity|]. cbn.
    do 8 (split; [done|]).
    split.
    { destruct (Timers.stop (timers w)) as [hs|] eqn:Es; simpl.
      - rewrite lookup_insert_ne by lia.
        rewrite lookup_delete_ne by (specialize (Hst hs eq_refl); lia).
        apply lookup_insert_eq.
      - rewrite lookup_insert_ne by lia. apply lookup_insert_eq. }
    split.
    { intros h Hh. specialize (Hs h Hh). rewrite Hh.
      rewrite lookup_insert_ne by lia. apply lookup_cancel_None.
      rewrite lookup_insert_ne by lia. apply lookup_delete_eq. }
    split; [done|]. split; [done|]. split; [apply lookup_insert_eq|].
    split.
    { intros h Hh. specialize (Hst h Hh).
      rewrite lookup_insert_ne by lia. rewrite Hh. apply lookup_cancel_eq. }
    intros h Hh Hns Hnst. rewrite lookup_insert_ne by lia.
    rewrite lookup_cancel_ne by done. rewrite lookup_insert_ne by lia.
    by rewrite lookup_cancel_ne.
  - eexists. split; [reflexivity|]. cbn.
    do 8 (split; [done|]).
    split; [apply lookup_insert_eq|].
    split.
    { intros h Hh. specialize (Hs h Hh). rewrite Hh.
      rewrite lookup_insert_ne by lia. apply lookup_delete_eq. }
    split; [done|]. split; [done|].
    intros h Hh Hns. rewrite lookup_insert_ne by lia. by rewrite lookup_cancel_ne.
Qed.

Lemma start_delayed_witness :
  exists w',
    _start {| so_delay := Some 3000; so_duration := Some 5000 |} world_2x3 = Ok tt w' /\
    now w' = now world_2x3 /\ columns w' = columns world_2x3 /\
    entropy w' = entropy world_2x3 /\ options w' = options world_2x3 /\
    Timers.start (timers w') = Some (nextHandle world_2x3) /\
    Timers.mainLoopInterval (timers w') = Timers.mainLoopInterval (timers world_2x3) /\
    Timers.pause (timers w') = Timers.pause (timers world_2x3) /\
    Timers.resume (timers w') = Timers.resume (timers world_2x3) /\
    pending w' !! nextHandle world_2x3
    = Some (timeout_task (now world_2x3)
              (start_initialDelay (options world_2x3)
                 {| so_delay := Some 3000; so_duration := Some 5000 |})
              (StartFunction (Options.mainLoopInterval (options world_2x3)))) /\
    (forall h, Timers.start (timers world_2x3) = Some h -> pending w' !! h = None) /\
    match start_mainLoopDuration (options world_2x3)
            {| so_delay := Some 3000; so_duration := Some 5000 |} with
    | None =>
        nextHandle w' = S (nextHandle world_2x3) /\
        Timers.stop (timers w') = Timers.stop (timers world_2x3) /\
        forall h, (h < nextHandle world_2x3)%nat -> Timers.start (timers world_2x3) <> Some h ->
                  pending w' !! h = pending world_2x3 !! h
    | Some D =>
        nextHandle w' = S (S (nextHandle world_2x3)) /\
        Timers.stop (timers w') = Some (S (nextHandle world_2x3)) /\
        pending w' !! S (nextHandle world_2x3)
        = Some (timeout_task (now world_2x3)
                  (D + start_initialDelay (options world_2x3)
                         {| so_delay := Some 3000; so_duration := Some 5000 |})
                  (StopFunction false)) /\
        (forall h, Timers.stop (timers world_2x3) = Some h -> pending w' !! h = None) /\
        forall h, (h < nextHandle world_2x3)%nat -> Timers.start (timers world_2x3) <> Some h ->
                  Timers.stop (timers world_2x3) <> Some h ->
                  pending w' !! h = pending world_2x3 !! h
    end.
Proof.
  apply (start_delayed {| so_delay := Some 3000; so_duration := Some 5000 |} world_2x3).
  - apply inv_initial_world.
  - vm_compute. reflexivity.
  - vm_compute. reflexivity.
Defined.

(** ** What the draw closure queues *)

Ltac draw_lookup Hp Hr :=
  repeat first
    [ rewrite lookup_insert_eq
    | rewrite lookup_insert_ne by lia
    | rewrite lookup_cancel_ne
        by (let E := fresh in intros E; first [apply Hp in E | apply Hr in E]; lia) ].

(** X18: when the closure queued by [draw] runs, with [delay + duration]
    positive, it runs nothing at once and changes no cell: it replaces the
    pending pause by a pause of the top cells only (not all at once, delays
    0 to 1000) due immediately, queues the main loop that carries the
    composed table after 1500, replaces the pending resume by one due
    [delay + duration] after this moment (so [2 * delay + duration] after
    the call of [draw]) and, in the full file with
    [keepOnNotAffectedColumns], queues the refresh after 2000.  The simpler
    file queues the resume before the table and has no refresh. *)
Theorem drawFunction_queues (delay duration : Z) (imageData : list (list jsval))
    (keep : bool) (marginLeft width : Z) (w : World) :
  engine_inv w ->
  0 < delay + duration ->
  let h0 := nextHandle w in
  let table := MainLoop {| m_clearScreen := false; m_charTable := Some <$> imageData;
                           m_ignoreColumns := [] |} in
  exists w',
    drawFunction delay duration imageData keep marginLeft width w = Ok tt w' /\
    now w' = now w /\ columns w' = columns w /\ entropy w' = entropy w /\
    options w' = options w /\
    Timers.pause (timers w') = Some h0 /\
    pending w' !! h0 = Some (timeout_task (now w) 0 (PauseFunction true false 0 1000)) /\
    (forall h, Timers.pause (timers w) = Some h \/ Timers.resume (timers w) = Some h ->
               pending w' !! h = None) /\
    (forall h, (h < h0)%nat -> Timers.pause (timers w) <> Some h ->
               Timers.resume (timers w) <> Some h -> pending w' !! h = pending w !! h) /\
    Timers.start (timers w') = Timers.start (timers w) /\
    Timers.stop (timers w') = Timers.stop (timers w) /\
    Timers.mainLoopInterval (timers w') = Timers.mainLoopInterval (timers w) /\
    match Options.variant (options w) with
    | Full =>
        pending w' !! S h0 = Some (timeout_task (now w) 1500 table) /\
        Timers.resume (timers w') = Some (S (S h0)) /\
        pending w' !! S (S h0)
        = Some (timeout_task (now w) (delay + duration) (ResumeFunction false)) /\
        if keep
        then pending w' !! S (S (S h0))
             = Some (timeout_task (now w) 2000 (DrawRefresh duration marginLeft width)) /\
             nextHandle w' = S (S (S (S h0)))
        else nextHandle w' = S (S (S h0))
    | Simple =>
        Timers.resume (timers w') = Some (S h0) /\
        pending w' !! S h0
        = Some (timeout_task (now w) (delay + duration) (ResumeFunction false)) /\
        pending w' !! S (S h0) = Some (timeout_task (now w) 1500 table) /\
        nextHandle w' = S (S (S h0))
    end.
Proof.
  intros (Hdom & Hrec & _) Hd.
  assert (forall h, Timers.pause (timers w) = Some h -> (h < nextHandle w)%nat) as Hp.
  { intros h Hh. by apply (Hrec PauseRole (Some h) (eq_sym Hh) h eq_refl). }
  assert (forall h, Timers.resume (timers w) = Some h -> (h < nextHandle w)%nat) as Hr.
  { intros h Hh. by apply (Hrec ResumeRole (Some h) (eq_sym Hh) h eq_refl). }
  assert ((0 <? delay + duration) = true) as Hlt by (apply Z.ltb_lt; lia).
  cbv zeta. unfold drawFunction, _pause, _resume.
  cbn [po_delay po_onlyTopCells po_allAtOnce po_minPauseDelay po_maxPauseDelay
       ro_delay ro_onlyTopCells default from_option id].
  rewrite Hlt.
  destruct (Options.variant (options w)) eqn:Ev; unfold bind, gets; rewrite Ev;
    [destruct keep|]; (eexists; split; [reflexivity|]); cbn;
    (do 4 (split; [done|])); (split; [done|]);
    (split; [draw_lookup Hp Hr; done|]);
    (split; [intros h [E|E];
               [pose proof (Hp h E) | pose proof (Hr h E)];
               rewrite !lookup_insert_ne by lia;
               first [ rewrite E; apply lookup_cancel_eq
                     | apply lookup_cancel_None; rewrite !lookup_insert_ne by lia;
                       rewrite E; apply lookup_cancel_eq ]|]);
    (split; [intros h Hh Hnp Hnr; rewrite !lookup_insert_ne by lia;
             rewrite lookup_cancel_ne by done; rewrite !lookup_insert_ne by lia;
             by rewrite lookup_cancel_ne|]);
    (do 3 (split; [done|])); repeat split; try done; draw_lookup Hp Hr; done.
Qed.

Lemma drawFunction_queues_witness :
  let h0 := nextHandle world_2x3 in
  let table := MainLoop {| m_clearScreen := false; m_charTable := Some <$> [[JStr "a"]];
                           m_ignoreColumns := [] |} in
  exists w',
    drawFunction 1000 30000 [[JStr "a"]] true 2 3 world_2x3 = Ok tt w' /\
    now w' = now world_2x3 /\ columns w' = columns world_2x3 /\
    entropy w' = entropy world_2x3 /\ options w' = options world_2x3 /\
    Timers.pause (timers w') = Some h0 /\
    pending w' !! h0 = Some (timeout_task (now world_2x3) 0 (PauseFunction true false 0 1000)) /\
    (forall h, Timers.pause (timers world_2x3) = Some h \/
               Timers.resume (timers world_2x3) = Some h ->
               pending w' !! h = None) /\
    (forall h, (h < h0)%nat -> Timers.pause (timers world_2x3) <> Some h ->
               Timers.resume (timers world_2x3) <> Some h ->
               pending w' !! h = pending world_2x3 !! h) /\
    Timers.start (timers w') = Timers.start (timers world_2x3) /\
    Timers.stop (timers w') = Timers.stop (timers world_2x3) /\
    Timers.mainLoopInterval (timers w') = Timers.mainLoopInterval (timers world_2x3) /\
    match Options.variant (options world_2x3) with
    | Full =>
        pending w' !! S h0 = Some (timeout_task (now world_2x3) 1500 table) /\
        Timers.resume (timers w') = Some (S (S h0)) /\
        pending w' !! S (S h0)
        = Some (timeout_task (now world_2x3) (1000 + 30000) (ResumeFunction false)) /\
        if true
        then pending w' !! S (S (S h0))
             = Some (timeout_task (now world_2x3) 2000 (DrawRefresh 30000 2 3)) /\
             nextHandle w' = S (S (S (S h0)))
        else nextHandle w' = S (S (S h0))
    | Simple =>
        Timers.resume (timers w') = Some (S h0) /\
        pending w' !! S h0
        = Some (timeout_task (now world_2x3) (1000 + 30000) (ResumeFunction false)) /\
        pending w' !! S (S h0) = Some (timeout_task (now world_2x3) 1500 table) /\
        nextHandle w' = S (S (S h0))
    end.
Proof.
  apply (drawFunction_queues 1000 30000 [[JStr "a"]] true 2 3 world_2x3).
  - apply inv_initial_world.
  - lia.
Defined.

(** ** The refresh cycle of a drawing *)

(** [_stop] leaves a timer alone when its id was handed out and is recorded
    neither as the pending stop, nor as the cycle, nor in a cell. *)
Lemma stop_keeps_unrecorded (o : StopOptions) (w : World) (h : nat) :
  (h < nextHandle w)%nat ->
  Timers.stop (timers w) <> Some h ->
  Timers.mainLoopInterval (timers w) <> Some h ->
  (forall c, Update.timer (cell_update (columns w) c) <> Some h) ->
  exists w', _stop o w = Ok tt w' /\ pending w' !! h = pending w !! h.
Proof.
  intros Hh Hs Hi Hc. rewrite stop_run. set (wc := set_pending _ _ w).
  destruct (0 <? default 0 (st_delay o)).
  - eexists. split; [reflexivity|]. simpl.
    rewrite lookup_insert_ne by lia. by rewrite lookup_cancel_ne.
  - destruct (stopFunction_spec (default false (st_clearScreen o)) wc)
      as (w' & Hrun & _ & _ & _ & _ & _ & _ & Hold & _).
    exists w'. split; [exact Hrun|]. rewrite Hold by done.
    rewrite cancel_cells_keep by (intros c _; apply Hc).
    rewrite lookup_cancel_ne by done. unfold wc. simpl. by rewrite lookup_cancel_ne.
Qed.

(** X19: the refresh closure of [draw] starts a main-loop cycle, at the
    configured interval, that skips exactly the top cells numbered from
    [marginLeft] up to [marginLeft + width], and queues the timer that
    clears this cycle [2000 + duration] later.  The cycle's id is recorded
    nowhere in the monitor, so a [stop] that follows, with any options,
    leaves it running: only its own clearing timer ends it. *)
Theorem stop_keeps_draw_refresh (duration marginLeft width : Z) (o : StopOptions)
    (w : World) :
  engine_inv w ->
  0 <= width <= 4294967295 ->
  exists ignoreColumns w1 w2,
    drawRefresh duration marginLeft width w = Ok tt w1 /\
    (forall i : nat, Z.of_nat i ∈ ignoreColumns <->
                     marginLeft <= Z.of_nat i < marginLeft + width) /\
    pending w1 !! nextHandle w
    = Some (interval_task (now w) (Options.mainLoopInterval (options w))
              (MainLoop {| m_clearScreen := false; m_charTable := [];
                           m_ignoreColumns := ignoreColumns |})) /\
    pending w1 !! S (nextHandle w)
    = Some (timeout_task (now w) (2000 + duration) (ClearTimer (Some (nextHandle w)))) /\
    timers w1 = timers w /\ columns w1 = columns w /\
    _stop o w1 = Ok tt w2 /\
    pending w2 !! nextHandle w = pending w1 !! nextHandle w.
Proof.
  intros (Hdom & Hrec & _) Hw.
  assert (forall r h, recorded w r (Some h) -> (h < nextHandle w)%nat) as Hlt.
  { intros r h Hh. by apply (Hrec r (Some h) Hh h eq_refl). }
  set (ign := (fun k => marginLeft + Z.of_nat k) <$> seq 0 (Z.to_nat width)).
  set (w1 := set_pending
               (<[S (nextHandle w) :=
                    timeout_task (now w) (2000 + duration) (ClearTimer (Some (nextHandle w)))]>
                  (<[nextHandle w :=
                       interval_task (now w) (Options.mainLoopInterval (options w))
                         (MainLoop {| m_clearScreen := false; m_charTable := [];
                                      m_ignoreColumns := ign |})]> (pending w)))
               (S (S (nextHandle w))) w).
  assert (drawRefresh duration marginLeft width w = Ok tt w1) as Hrun.
  { unfold drawRefresh, bind, new_Array_fill.
    destruct (Z.ltb_spec width 0) as [|_]; [lia|].
    destruct (Z.ltb_spec 4294967295 width) as [|_]; [lia|].
    simpl. unfold w1, ign. by rewrite length_replicate. }
  destruct (stop_keeps_unrecorded o w1 (nextHandle w)) as (w2 & Hstop & Hkeep).
  - simpl. lia.
  - intros E. assert (nextHandle w < nextHandle w)%nat; [|lia].
    by apply (Hlt StopRole).
  - intros E. assert (nextHandle w < nextHandle w)%nat; [|lia].
    by apply (Hlt CycleRole).
  - intros c E. assert (nextHandle w < nextHandle w)%nat; [|lia].
    apply (Hlt CellRole). simpl. by exists c.
  - exists ign, w1, w2. split; [exact Hrun|]. split.
    { intros i. unfold ign. rewrite list_elem_of_fmap. split.
      - intros (k & -> & Hk%elem_of_seq). lia.
      - intros Hi. exists (Z.to_nat (Z.of_nat i - marginLeft)). split; [lia|].
        apply elem_of_seq. lia. }
    split; [simpl; rewrite lookup_insert_ne by lia; apply lookup_insert_eq|].
    split; [simpl; apply lookup_insert_eq|]. done.
Qed.

Lemma stop_keeps_draw_refresh_witness :
  exists ignoreColumns w1 w2,
    drawRefresh 30000 2 3 world_2x3 = Ok tt w1 /\
    (forall i : nat, Z.of_nat i ∈ ignoreColumns <-> 2 <= Z.of_nat i < 2 + 3) /\
    pending w1 !! nextHandle world_2x3
    = Some (interval_task (now world_2x3) (Options.mainLoopInterval (options world_2x3))
              (MainLoop {| m_clearScreen := false; m_charTable := [];
                           m_ignoreColumns := ignoreColumns |})) /\
    pending w1 !! S (nextHandle world_2x3)
    = Some (timeout_task (now world_2x3) (2000 + 30000)
              (ClearTimer (Some (nextHandle world_2x3)))) /\
    timers w1 = timers world_2x3 /\ columns w1 = columns world_2x3 /\
    _stop stop_defaults w1 = Ok tt w2 /\
    pending w2 !! nextHandle world_2x3 = pending w1 !! nextHandle world_2x3.
Proof.
  apply (stop_keeps_draw_refresh 30000 2 3 stop_defaults world_2x3).
  - apply inv_initial_world.
  - lia.
Defined.

(** ** A margin that is not an array length *)

Lemma new_Array_fill_neg n v w : n < 0 -> new_Array_fill n v w = Throw RangeError.
Proof. intros Hn. unfold new_Array_fill. by destruct (Z.ltb_spec n 0); [|lia]. Qed.

Lemma push_rows_cases n (row : M (list jsval)) w :
  (row w = Throw RangeError \/ exists r, row w = Ok r w) ->
  push_rows n row w = Throw RangeError \/ exists rs, push_rows n row w = Ok rs w.
Proof.
  intros Hrow. induction n as [|n IH]; [right; by exists []|].
  simpl. unfold bind. destruct Hrow as [->|[r ->]]; [by left|].
  destruct IH as [->|[rs ->]]; [by left|right; by eexists].
Qed.

Lemma new_Array_fill_cases n v w :
  new_Array_fill n v w = Throw RangeError \/ exists r, new_Array_fill n v w = Ok r w.
Proof. unfold new_Array_fill. destruct (_ || _); [by left|right; by eexists]. Qed.

Lemma split_lines_from_nonempty s : forall cur, split_lines_from cur s <> [].
Proof.
  induction s as [|a s IH]; intros cur; simpl; [done|].
  destruct (Ascii.eqb a "010"); [done|apply IH].
Qed.

Lemma rows_of_nonempty asciiImage :
  passes_shape_test asciiImage -> exists e rest, rows_of asciiImage = e :: rest.
Proof.
  destruct asciiImage as [s|[|[l|s|] rows]|]; simpl; try done.
  - intros _. unfold split_lines.
    pose proof (split_lines_from_nonempty s EmptyString) as Hne.
    destruct (split_lines_from EmptyString s) as [|x xs]; [done|]. simpl. by eexists _, _.
  - intros _. by eexists _, _.
Qed.

(** X20: [draw] of an image that passes the shape test and whose rows all
    have a length, with a negative [marginLeft], throws a RangeError (from
    [new Array(marginLeft)]), not the image error, whatever the other
    margins and paddings are. *)
Theorem draw_negative_margin_throws_range_error (asciiImage : js_image)
    (o : DrawOptions) (w : World) :
  passes_shape_test asciiImage ->
  Forall (fun e => e <> ENull) (rows_of asciiImage) ->
  default 2 (dr_marginLeft o) < 0 ->
  _draw asciiImage o w = Throw RangeError.
Proof.
  intros Hshape Hrows Hneg. rewrite draw_run. unfold draw_imageData, bind.
  rewrite (image_rows_ok _ _ Hshape). unfold compose, bind.
  rewrite (map_M_ok elem_length elem_len)
    by (intros e He; apply elem_length_ok; by eapply Forall_forall in Hrows).
  match goal with
  | |- context [push_rows ?n (new_Array_fill ?tw ?v) w] =>
      destruct (push_rows_cases n (new_Array_fill tw v) w (new_Array_fill_cases tw v w))
        as [->|[top ->]]; [done|]
  end.
  match goal with
  | |- context [push_rows ?n (padding_row ?a ?b ?c ?d ?e ?f) w] =>
      destruct (push_rows_cases n (padding_row a b c d e f) w) as [->|[ptop ->]]; [|done|]
  end.
  { left. unfold padding_row, bind. by rewrite new_Array_fill_neg. }
  destruct (rows_of_nonempty _ Hshape) as (e & rest & ->). simpl. unfold bind.
  unfold image_row at 1. unfold bind. by rewrite new_Array_fill_neg.
Qed.

Lemma draw_negative_margin_throws_range_error_witness :
  _draw image_2x3
    {| dr_delay := None; dr_duration := None; dr_marginTop := None; dr_paddingTop := None;
       dr_marginBottom := None; dr_paddingBottom := None; dr_marginRight := None;
       dr_paddingRight := None; dr_marginLeft := Some (-1); dr_paddingLeft := None;
       dr_paddingChar := None; dr_keepOnNotAffectedColumns := None |}
    world_2x3 = Throw RangeError.
Proof.
  apply (draw_negative_margin_throws_range_error image_2x3
           {| dr_delay := None; dr_duration := None; dr_marginTop := None;
              dr_paddingTop := None; dr_marginBottom := None; dr_paddingBottom := None;
              dr_marginRight := None; dr_paddingRight := None; dr_marginLeft := Some (-1);
              dr_paddingLeft := None; dr_paddingChar := None;
              dr_keepOnNotAffectedColumns := None |} world_2x3).
  - vm_compute. exact I.
  - vm_compute. repeat constructor; discriminate.
  - vm_compute. reflexivity.
Defined.

(** ** From the composed table to the cells *)

Lemma spawned_nil (l : list nat) : spawned [] l = length l.
Proof.
  induction l as [|i l IH]; [done|].
  rewrite spawned_cons_kept by apply not_elem_of_nil. simpl. by rewrite IH.
Qed.

(** X21: the main loop that [draw] queues hands every glyph of the composed
    table to the cell it is meant for.  When it runs, the droplet it queues
    for top cell number [i] carries, as glyph number [r], entry
    [imageData[r][i]]; and when that droplet runs on a column whose recorded
    timer ids were handed out earlier, every cell [r] of the column whose
    table entry is a string (the empty one included) gets that string as its
    next glyph, with an update queued after [r] times the progression,
    which shows it in the cell. *)
Theorem drawn_glyph_reaches_its_cell (imageData : list (list jsval)) (w : World)
    (i c : nat) :
  monitor_topCells (columns w) !! i = Some (c, 0%nat) ->
  exists w' d o,
    exec (MainLoop {| m_clearScreen := false; m_charTable := Some <$> imageData;
                      m_ignoreColumns := [] |}) w = Ok tt w' /\
    pending w' !! (nextHandle w + i)%nat
    = Some (timeout_task (now w) d (CreateDroplet (c, 0%nat) o)) /\
    Update.timer (cell_update (columns w') (c, 0%nat)) = Some (nextHandle w + i)%nat /\
    (forall r, js_index (d_charList o) r = js_index (default [] (imageData !! r)) i) /\
    forall wd col,
      columns wd !! c = Some col ->
      handles_issued wd (column_cells c (length col)) ->
      exists wd',
        exec (CreateDroplet (c, 0%nat) o) wd = Ok tt wd' /\
        forall r s,
          (r < length col)%nat ->
          js_index (default [] (imageData !! r)) i = JStr s ->
          Update.nextChar (cell_update (columns wd') (c, r)) = JStr s /\
          Update.isUpdated (cell_update (columns wd') (c, r)) = false /\
          pending wd' !! (nextHandle wd + r)%nat
          = Some (timeout_task (now wd) (Z.of_nat r * droplet_progression wd)
                    (UpdateCell (c, r) (JStr s))) /\
          forall wu, exists wu',
            exec (UpdateCell (c, r) (JStr s)) wu = Ok tt wu' /\
            lookup_cell (columns wu') (c, r)
            = ((fun cl => {| update := mark_updated (update cl); innerText := JStr s |})
                 <$> lookup_cell (columns wu) (c, r)).
Proof.
  intros Htop.
  set (o := {| m_clearScreen := false; m_charTable := Some <$> imageData;
               m_ignoreColumns := [] |}).
  destruct (mainLoop_loop_spec (options w) o (charTableByColumn o)
              (imap (fun i c => (i, c)) (monitor_topCells (columns w))) w)
    as (w' & Hrun & Hnow & Htim & Hopt & Hnext & _ & Hold & Hcols & Hcell & Hnew).
  { rewrite imap_index_snd. apply monitor_topCells_NoDup. }
  assert (imap (fun i c => (i, c)) (monitor_topCells (columns w)) !! i = Some (i, (c, 0%nat)))
    as Hic by (by rewrite list_lookup_imap, Htop).
  specialize (Hcell i i (c, 0%nat) Hic).
  change (bool_decide (Z.of_nat i ∈ m_ignoreColumns o)) with false in Hcell.
  cbv zeta in Hcell.
  rewrite take_imap_pair_fst in Hcell by (apply lookup_lt_Some in Htop; lia).
  change (m_ignoreColumns o) with (@nil Z) in Hcell.
  rewrite spawned_nil, length_seq in Hcell. destruct Hcell as [Hcl Hp].
  eexists w', _, _. split; [exact Hrun|]. split; [exact Hp|]. split.
  { assert (is_Some (lookup_cell (columns w) (c, 0%nat))) as [cl Ecl].
    { apply (monitor_topCells_elem (columns w) (c, 0%nat)).
      by eapply list_elem_of_lookup_2. }
    unfold cell_update. by rewrite Hcl, Ecl. }
  split.
  { intros r. cbn [d_charList]. unfold charTableByColumn. cbn [m_clearScreen m_charTable o].
    destruct imageData as [|row0 rows]; [by destruct r|].
    change (negb false && (0 <? Z.of_nat (length (Some <$> row0 :: rows)))) with true.
    cbv iota. rewrite transpose_get, list_lookup_fmap.
    by destruct ((row0 :: rows) !! r). }
  intros wd col Hcol Hissued.
  change (exec (CreateDroplet (c, 0%nat) ?o) wd) with (createDroplet (c, 0%nat) o wd).
  rewrite createDroplet_run, (walk_top _ _ _ Hcol). cbn [d_clearScreen d_charList m_clearScreen o].
  match goal with
  | |- context [droplet_loop false ?cl _ _ _ _ _ _] => set (charList := cl)
  end.
  destruct (droplet_loop_spec false charList (droplet_progression wd)
              (column_cells c (length col)) 0 0 JNull
              (set_entropy (tl (entropy wd)) wd))
    as (wd' & Hrun' & Hnow' & _ & _ & _ & _ & Hcells & _).
  { apply column_cells_NoDup. }
  { intros cell Hin. simpl. by eapply column_cells_in_grid. }
  { exact Hissued. }
  cbn [now options columns nextHandle entropy set_entropy pending timers] in *.
  exists wd'. split; [exact Hrun'|]. intros r s Hr Hs.
  destruct (Hcells r (c, r)) as (ch & Hu & Hpd & Hg); [by apply column_cells_lookup|].
  assert (ch = JStr s) as ->.
  { unfold glyph_rule in Hg. simpl in Hg.
    assert (js_index charList r = JStr s) as Hcl'.
    { unfold charList, charTableByColumn. cbn [m_clearScreen m_charTable o].
      destruct imageData as [|row0 rows]; [by destruct r|].
      change (negb false && (0 <? Z.of_nat (length (Some <$> row0 :: rows)))) with true.
      cbv iota. rewrite transpose_get, list_lookup_fmap.
      revert Hs. by destruct ((row0 :: rows) !! r). }
    by rewrite Hcl' in Hg. }
  rewrite Hu. split; [done|]. split; [done|].
  split; [by rewrite Hpd, Z.add_0_l|].
  intros wu. eexists. split; [reflexivity|]. simpl.
  rewrite !lookup_cell_alter_eq. by destruct (lookup_cell (columns wu) (c, r)).
Qed.

Lemma drawn_glyph_reaches_its_cell_witness :
  exists w' d o,
    exec (MainLoop {| m_clearScreen := false; m_charTable := Some <$> [[JStr "a"]];
                      m_ignoreColumns := [] |}) world_2x3 = Ok tt w' /\
    pending w' !! (nextHandle world_2x3 + 0)%nat
    = Some (timeout_task (now world_2x3) d (CreateDroplet (0%nat, 0%nat) o)) /\
    Update.timer (cell_update (columns w') (0%nat, 0%nat))
    = Some (nextHandle world_2x3 + 0)%nat /\
    (forall r, js_index (d_charList o) r = js_index (default [] ([[JStr "a"]] !! r)) 0) /\
    forall wd col,
      columns wd !! 0%nat = Some col ->
      handles_issued wd (column_cells 0 (length col)) ->
      exists wd',
        exec (CreateDroplet (0%nat, 0%nat) o) wd = Ok tt wd' /\
        forall r s,
          (r < length col)%nat ->
          js_index (default [] ([[JStr "a"]] !! r)) 0 = JStr s ->
          Update.nextChar (cell_update (columns wd') (0%nat, r)) = JStr s /\
          Update.isUpdated (cell_update (columns wd') (0%nat, r)) = false /\
          pending wd' !! (nextHandle wd + r)%nat
          = Some (timeout_task (now wd) (Z.of_nat r * droplet_progression wd)
                    (UpdateCell (0%nat, r) (JStr s))) /\
          forall wu, exists wu',
            exec (UpdateCell (0%nat, r) (JStr s)) wu = Ok tt wu' /\
            lookup_cell (columns wu') (0%nat, r)
            = ((fun cl => {| update := mark_updated (update cl); innerText := JStr s |})
                 <$> lookup_cell (columns wu) (0%nat, r)).
Proof.
  apply (drawn_glyph_reaches_its_cell [[JStr "a"]] world_2x3 0 0).
  vm_compute. reflexivity.
Defined.

(** ** Pause, then resume *)

Lemma same_stored_update w w' cell :
  same_stored w w' ->
  with_timer None (cell_update (columns w') cell)
  = with_timer None (cell_update (columns w) cell).
Proof.
  intros (_ & _ & H). specialize (H cell). unfold cell_update.
  destruct (lookup_cell (columns w') cell) as [cl'|],
           (lookup_cell (columns w) cell) as [cl|]; simpl in *; try done.
  assert (strip_timer cl' = strip_timer cl) as E by congruence.
  exact (f_equal update E).
Qed.

Lemma same_stored_in_grid w w' cell :
  same_stored w w' ->
  is_Some (lookup_cell (columns w) cell) -> is_Some (lookup_cell (columns w') cell).
Proof.
  intros (_ & _ & H) [cl E]. specialize (H cell). rewrite E in H.
  destruct (lookup_cell (columns w') cell); [done|discriminate].
Qed.

Lemma resume_skips_stored v u u' :
  with_timer None u' = with_timer None u -> resume_skips v u' = resume_skips v u.
Proof.
  intros H. unfold resume_skips.
  apply (f_equal Update.isUpdated) in H as Hi. apply (f_equal Update.function) in H as Hf.
  simpl in *. by rewrite Hi, Hf.
Qed.

Lemma resume_action_stored v cell u u' :
  with_timer None u' = with_timer None u -> resume_action v cell u' = resume_action v cell u.
Proof.
  intros H. unfold resume_action.
  apply (f_equal Update.nextChar) in H as Hn. apply (f_equal Update.function) in H as Hf.
  simpl in *. by rewrite Hn, Hf.
Qed.

Lemma resume_sum_stored v cols cols' cells :
  (forall c, with_timer None (cell_update cols' c) = with_timer None (cell_update cols c)) ->
  resume_sum v cols' cells = resume_sum v cols cells.
Proof.
  intros H. induction cells as [|c rest IH]; simpl; [done|].
  rewrite IH, (resume_skips_stored v _ _ (H c)).
  pose proof (f_equal Update.progression (H c)) as Hp. simpl in Hp. by rewrite Hp.
Qed.

(** Timer ids are handed out in increasing order: no step of [_start] lowers
    the next id. *)
Lemma grow_step {A} (n : nat) (m : M A) :
  (forall w a w', m w = Ok a w' -> (nextHandle w <= nextHandle w')%nat) ->
  hoare (fun w => (n <= nextHandle w)%nat) m (fun _ w => (n <= nextHandle w)%nat).
Proof. intros H w a w' Hn E. specialize (H w a w' E). lia. Qed.

Lemma grow_random n from to :
  hoare (fun w => (n <= nextHandle w)%nat) (random from to)
        (fun _ w => (n <= nextHandle w)%nat).
Proof. apply grow_step. by intros w a w' [= _ <-]. Qed.

Lemma grow_clearTimeout n h :
  hoare (fun w => (n <= nextHandle w)%nat) (clearTimeout h)
        (fun _ w => (n <= nextHandle w)%nat).
Proof. apply grow_step. by intros w a w' [= _ <-]. Qed.

Lemma grow_setTimeout n a d :
  hoare (fun w => (n <= nextHandle w)%nat) (setTimeout a d)
        (fun _ w => (n <= nextHandle w)%nat).
Proof. apply grow_step. intros w a' w' [= _ <-]. simpl. lia. Qed.

Lemma grow_setInterval n a d :
  hoare (fun w => (n <= nextHandle w)%nat) (setInterval a d)
        (fun _ w => (n <= nextHandle w)%nat).
Proof. apply grow_step. intros w a' w' [= _ <-]. simpl. lia. Qed.

Lemma grow_modify n f :
  (forall w, nextHandle (f w) = nextHandle w) ->
  hoare (fun w => (n <= nextHandle w)%nat) (modify f)
        (fun _ w => (n <= nextHandle w)%nat).
Proof. intros Hf. apply grow_step. intros w a' w' [= _ <-]. by rewrite Hf. Qed.

Ltac gbind n tac :=
  eapply (hoare_bind _ (fun _ w => (n <= nextHandle w)%nat)); [tac|intros ?].

Lemma grow_mainLoop n o :
  hoare (fun w => (n <= nextHandle w)%nat) (mainLoop o)
        (fun _ w => (n <= nextHandle w)%nat).
Proof.
  unfold mainLoop.
  gbind n ltac:(apply hoare_gets_keep). gbind n ltac:(apply hoare_gets_keep).
  apply hoare_for_each. intros ic. destruct (bool_decide _); [apply hoare_ret|].
  gbind n ltac:(apply grow_random). gbind n ltac:(apply grow_setTimeout).
  by apply grow_modify.
Qed.

Lemma grow_stopFunction n clearScreen :
  hoare (fun w => (n <= nextHandle w)%nat) (stopFunction clearScreen)
        (fun _ w => (n <= nextHandle w)%nat).
Proof.
  unfold stopFunction.
  gbind n ltac:(apply hoare_gets_keep). gbind n ltac:(apply grow_clearTimeout).
  gbind n ltac:(apply hoare_gets_keep).
  gbind n ltac:(apply hoare_for_each; intros cell;
                gbind n ltac:(apply hoare_gets_keep); apply grow_clearTimeout).
  destruct clearScreen; [|apply hoare_ret].
  gbind n ltac:(apply hoare_gets_keep). apply hoare_for_each. intros top.
  gbind n ltac:(apply grow_random). gbind n ltac:(apply grow_setTimeout). apply hoare_ret.
Qed.

Lemma grow_stop n o :
  hoare (fun w => (n <= nextHandle w)%nat) (_stop o) (fun _ w => (n <= nextHandle w)%nat).
Proof.
  unfold _stop.
  gbind n ltac:(apply hoare_gets_keep). gbind n ltac:(apply grow_clearTimeout).
  destruct (0 <? _); [|apply grow_stopFunction].
  gbind n ltac:(apply grow_setTimeout). by apply grow_modify.
Qed.

Lemma grow_start n o :
  hoare (fun w => (n <= nextHandle w)%nat) (_start o) (fun _ w => (n <= nextHandle w)%nat).
Proof.
  unfold _start.
  gbind n ltac:(apply hoare_gets_keep). gbind n ltac:(apply hoare_gets_keep).
  gbind n ltac:(apply grow_clearTimeout).
  eapply (hoare_bind _ (fun _ w => (n <= nextHandle w)%nat)); [|intros ?].
  - destruct (0 <? _).
    + gbind n ltac:(apply grow_setTimeout). by apply grow_modify.
    + unfold startFunction.
      gbind n ltac:(apply hoare_gets_keep). gbind n ltac:(apply grow_clearTimeout).
      gbind n ltac:(apply grow_mainLoop). gbind n ltac:(apply grow_setInterval).
      by apply grow_modify.
  - destruct (start_mainLoopDuration _ _); [apply grow_stop|apply hoare_ret].
Qed.

(** X22: a pause of all cells at once followed by a resume loses no planned
    glyph.  If a cell's recorded timer is a pending update of that cell
    with the glyph the cell has stored as its next one, and the cell has not
    been shown, then the pause closure cancels that update and changes
    nothing stored in the cell, and the resume closure that follows queues
    an update of the same cell with the same glyph under a new timer id,
    which it records in the cell, due after the fresh cumulative delay of
    the column.  (In the simpler file the cell must also hold the update as
    its stored function, as [createDroplet] leaves it.) *)
Theorem pause_then_resume_requeues (w : World) (c r h : nat) (t : Task) (ch : jsval)
    (mn mx : Z) :
  pending w !! h = Some t ->
  t_action t = UpdateCell (c, r) ch ->
  Update.timer (cell_update (columns w) (c, r)) = Some h ->
  Update.isUpdated (cell_update (columns w) (c, r)) = false ->
  Update.nextChar (cell_update (columns w) (c, r)) = ch ->
  (Options.variant (options w) = Simple ->
   Update.function (cell_update (columns w) (c, r)) = Some (UpdateCell (c, r) ch)) ->
  exists w1 w2 h',
    exec (PauseFunction false true mn mx) w = Ok tt w1 /\
    pending w1 !! h = None /\
    columns w1 = columns w /\
    exec (ResumeFunction false) w1 = Ok tt w2 /\
    Update.timer (cell_update (columns w2) (c, r)) = Some h' /\
    (nextHandle w <= h')%nat /\
    pending w2 !! h'
    = Some (timeout_task (now w)
              (resume_delay (Options.variant (options w)) (columns w) c r)
              (UpdateCell (c, r) ch)) /\
    Update.nextChar (cell_update (columns w2) (c, r)) = ch /\
    Update.isUpdated (cell_update (columns w2) (c, r)) = false.
Proof.
  intros Ht Hact Htimer Hupd Hnext Hfun.
  assert (is_Some (lookup_cell (columns w) (c, r))) as Hgrid.
  { unfold cell_update in Htimer.
    destruct (lookup_cell (columns w) (c, r)) as [cl|]; [done|discriminate]. }
  (* the pause *)
  change (exec (PauseFunction false true mn mx) w) with (pauseFunction false true mn mx w).
  rewrite pauseFunction_run. set (wc := set_pending _ _ w).
  destruct (pauseAtOnce_spec false wc)
    as (w1 & Hp & Hnow1 & Hnext1 & Hent1 & Hcols1 & Htim1 & Hopt1 & Hpend1).
  change (columns wc) with (columns w) in *. change (now wc) with (now w) in *.
  change (nextHandle wc) with (nextHandle w) in *.
  change (options wc) with (options w) in *.
  (* the resume: first the start *)
  destruct (safe_start no_start_options w1) as ([] & w0 & Hstart).
  pose proof (stored_start _ _ _ _ Hstart) as Hst.
  destruct Hst as (Hnow0 & Hopt0 & Hstored0).
  assert (same_stored w1 w0) as Hst by done.
  assert (nextHandle w1 <= nextHandle w0)%nat as Hmono.
  { by apply (grow_start (nextHandle w1) no_start_options w1 tt w0). }
  destruct (resume_tops_spec (columns w0) (monitor_topCells (columns w0)) w0)
    as (w2 & Hrun & Hnow2 & Htim2 & Hopt2 & Hent2 & Hnext2 & Hrows & Hcells & Hframe & Hkeep
        & Hnew).
  { apply monitor_topCells_NoDup. }
  { by intros top [? _]%monitor_topCells_elem. }
  { done. }
  pose proof (same_stored_update w1 w0 (c, r) Hst) as Hu. rewrite Hcols1 in Hu.
  assert (is_Some (lookup_cell (columns w0) (c, r))) as Hgrid0.
  { apply (same_stored_in_grid w1 w0); [done|]. by rewrite Hcols1. }
  assert (resume_skips (Options.variant (options w0)) (cell_update (columns w0) (c, r))
          = false) as Hskip.
  { rewrite (resume_skips_stored _ _ _ Hu). rewrite Hopt0, Hopt1.
    unfold resume_skips. rewrite Hupd. simpl.
    destruct (Options.variant (options w)) eqn:Ev; [done|]. by rewrite Hfun. }
  destruct (Hcells c r) as [_ Hn].
  { apply monitor_topCells_elem. split; [done|]. apply in_grid_rows.
    apply in_grid_rows in Hgrid0. lia. }
  { by apply in_grid_rows. }
  destruct (Hn Hskip) as (h' & Hh' & Hu2 & Hp2).
  exists w1, w2, h'. split; [exact Hp|]. split.
  { rewrite Hpend1. eapply cancel_cells_gone; [|exact Htimer].
    unfold cellsToPause. by apply monitor_cells_elem. }
  split; [done|]. split.
  { simpl. unfold resumeFunction, bind. rewrite Hstart. exact Hrun. }
  rewrite Hu2. split; [done|]. split; [lia|]. split.
  - rewrite Hp2. f_equal. rewrite Hnow0, Hnow1, Hopt0, Hopt1. f_equal.
    + unfold resume_delay. apply resume_sum_stored. intros cell.
      rewrite <- Hcols1. by apply same_stored_update.
    + rewrite (resume_action_stored _ _ _ _ Hu). unfold resume_action.
      destruct (Options.variant (options w)) eqn:Ev; [by rewrite Hnext|].
      by rewrite Hfun.
  - pose proof (f_equal Update.nextChar Hu) as Hn'.
    pose proof (f_equal Update.isUpdated Hu) as Hi'. simpl in *.
    split; congruence.
Qed.

Lemma pause_then_resume_requeues_witness :
  exists w1 w2 h',
    exec (PauseFunction false true 0 1000) world_mid_cascade = Ok tt w1 /\
    pending w1 !! 11%nat = None /\
    columns w1 = columns world_mid_cascade /\
    exec (ResumeFunction false) w1 = Ok tt w2 /\
    Update.timer (cell_update (columns w2) (0%nat, 1%nat)) = Some h' /\
    (nextHandle world_mid_cascade <= h')%nat /\
    pending w2 !! h'
    = Some (timeout_task (now world_mid_cascade)
              (resume_delay (Options.variant (options world_mid_cascade))
                 (columns world_mid_cascade) 0 1)
              (UpdateCell (0%nat, 1%nat) (JStr "B"))) /\
    Update.nextChar (cell_update (columns w2) (0%nat, 1%nat)) = JStr "B" /\
    Update.isUpdated (cell_update (columns w2) (0%nat, 1%nat)) = false.
Proof.
  apply (pause_then_resume_requeues world_mid_cascade 0 1 11
           (timeout_task 5250 200 (UpdateCell (0%nat, 1%nat) (JStr "B"))) (JStr "B") 0 1000).
  - vm_compute. reflexivity.
  - reflexivity.
  - vm_compute. reflexivity.
  - vm_compute. reflexivity.
  - vm_compute. reflexivity.
  - vm_compute. discriminate.
Defined.
